(** * Kafka Desktop Viewer: the live-ingestion pipeline

    A shallow embedding of the main process (masking, record normalisation,
    consumer lifecycle) and of the renderer's bounded buffer and filter,
    with the properties its specification states about them. *)

From Stdlib Require Import ZArith Ascii String List Bool Lia.
From Stdlib Require Import DecimalString DecimalPos DecimalZ.
From stdpp Require Import base list gmap strings.

Local Open Scope char_scope.
Local Open Scope nat_scope.

(** ** JavaScript text

    A JavaScript string is a sequence of code units.  The development keeps
    text as [string] and scans it as [list ascii]; every class of the two
    patterns below is a set of ASCII characters, so any other unit behaves
    like one more character outside all classes. *)

Abbreviation units := list_ascii_of_string.
Abbreviation text := string_of_list_ascii.

Module RegExp.

(** *** The fragment of regular expressions the masking patterns use *)

(** A member of a bracket class: [A-Z] or a single character. *)
Inductive class_item : Type :=
| Range (lo hi : ascii)
| Single (c : ascii).

Inductive atom : Type :=
| Lit (c : ascii)                 (* an escaped or plain character *)
| Class (items : list class_item) (* [...] *)
| Digit.                          (* \d *)

Inductive node : Type :=
| One (a : atom)                  (* a *)
| AtLeast (n : nat) (a : atom)    (* a{n,}, greedy; a+ is a{1,} *)
| WordB.                          (* \b *)

Record regexp : Type := RegExpLit {
  source : list node;
  ignoreCase : bool
}.

Definition in_range (lo hi c : ascii) : bool :=
  Nat.leb (nat_of_ascii lo) (nat_of_ascii c) && Nat.leb (nat_of_ascii c) (nat_of_ascii hi).

(** Canonicalize of a pattern without the unicode flag: the upper-case
    form of the character. *)
Definition Canonicalize (ic : bool) (c : ascii) : ascii :=
  if ic && in_range "a" "z" c then ascii_of_nat (nat_of_ascii c - 32) else c.

Definition all_units : list ascii := map ascii_of_nat (seq 0 256).

Definition item_members (it : class_item) : list ascii :=
  match it with
  | Range lo hi => List.filter (in_range lo hi) all_units
  | Single c => [c]
  end.

(** A character set matches [c] when some member has the canonical form
    of [c]. *)
Definition set_matches (ic : bool) (members : list ascii) (c : ascii) : bool :=
  existsb (fun a => Ascii.eqb (Canonicalize ic a) (Canonicalize ic c)) members.

Definition atom_matches (ic : bool) (a : atom) (c : ascii) : bool :=
  match a with
  | Lit x => set_matches ic [x] c
  | Class items => set_matches ic (concat (map item_members items)) c
  | Digit => in_range "0" "9" c
  end.

(** IsWordChar: [a-zA-Z0-9_]; the position before the first and after
    the last character holds no word character. *)
Definition IsWordChar (c : option ascii) : bool :=
  match c with
  | None => false
  | Some c => in_range "a" "z" c || in_range "A" "Z" c
              || in_range "0" "9" c || Ascii.eqb c "_"
  end.

(** The backtracking matcher.  [run ic ns prev s] matches the nodes [ns]
    at the front of [s], [prev] being the character just before it, and
    returns what is left of [s] after the first match the search finds.
    A greedy repetition first tries to take one more character and falls
    back to the rest of the pattern when that fails. *)
Fixpoint run (ic : bool) (ns : list node) (prev : option ascii)
         (s : list ascii) {struct ns} : option (list ascii) :=
  match ns with
  | [] => Some s
  | One a :: ns' =>
      match s with
      | c :: s' => if atom_matches ic a c then run ic ns' (Some c) s' else None
      | [] => None
      end
  | WordB :: ns' =>
      if xorb (IsWordChar prev) (IsWordChar (head s))
      then run ic ns' prev s else None
  | AtLeast n a :: ns' =>
      (fix rep (n : nat) (prev : option ascii) (s : list ascii) {struct s}
         : option (list ascii) :=
         let leave := match n with
                      | O => run ic ns' prev s
                      | S _ => None
                      end in
         match s with
         | c :: s' =>
             if atom_matches ic a c then
               match rep (pred n) (Some c) s' with
               | Some r => Some r
               | None => leave
               end
             else leave
         | [] => leave
         end) n prev s
  end.

(** One attempt of RegExpBuiltinExec at the current position: the number
    of characters the match covers. *)
Definition exec_at (re : regexp) (prev : option ascii) (s : list ascii)
  : option nat :=
  match run (ignoreCase re) (source re) prev s with
  | Some rest => Some (length s - length rest)
  | None => None
  end.

(** [String.prototype.replace] with a global pattern and a replacement
    free of [$]: scan left to right, at each position try the pattern;
    on a match emit the replacement and resume after the match (an empty
    match also copies the character it stands before), otherwise copy
    the character.  [skip] counts the characters of the current match
    still to be passed over. *)
Fixpoint replace_from (find : option ascii -> list ascii -> option nat)
         (by_ : list ascii) (skip : nat) (prev : option ascii)
         (s : list ascii) {struct s} : list ascii :=
  match s with
  | [] =>
      match skip, find prev [] with
      | O, Some _ => by_
      | _, _ => []
      end
  | c :: s' =>
      match skip with
      | S k => replace_from find by_ k (Some c) s'
      | O =>
          match find prev s with
          | Some (S k) => by_ ++ replace_from find by_ k (Some c) s'
          | Some O => by_ ++ c :: replace_from find by_ 0 (Some c) s'
          | None => c :: replace_from find by_ 0 (Some c) s'
          end
      end
  end.

Definition replace (re : regexp) (by_ : string) (input : string) : string :=
  text (replace_from (exec_at re) (units by_) 0 None (units input)).

End RegExp.

Import RegExp.

(** ** The masking engine (maskText) *)

(** The three bracket classes of the email pattern. *)
Definition email_local : atom :=      (* [A-Z0-9._%+-] *)
  Class [Range "A" "Z"; Range "0" "9"; Single "."; Single "_"; Single "%";
         Single "+"; Single "-"].
Definition email_domain : atom :=     (* [A-Z0-9.-] *)
  Class [Range "A" "Z"; Range "0" "9"; Single "."; Single "-"].
Definition email_tld : atom :=        (* [A-Z] *)
  Class [Range "A" "Z"].

(** /[A-Z0-9._%+-]+@[A-Z0-9.-]+\.[A-Z]{2,}/gi *)
Definition email : regexp :=
  RegExpLit
    [ AtLeast 1 email_local; One (Lit "@"); AtLeast 1 email_domain;
      One (Lit "."); AtLeast 2 email_tld ]
    true.

(** /\b\d{7,}\b/g *)
Definition longDigits : regexp :=
  RegExpLit [ WordB; AtLeast 7 Digit; WordB ] false.

Definition maskText (input : string) : string :=
  replace longDigits "[REDACTED_NUM]" (replace email "[REDACTED_EMAIL]" input).

(** ** The masking policy in the specification's words

    An email occurrence is a local part, [@], a domain, a dot and a
    top-level domain of two or more letters, in either case; a long number
    is a run of seven or more decimal digits with a word boundary on each
    side.  Every occurrence is replaced, left to right, the longest one at
    each position, and occurrences do not overlap. *)

Module Policy.

Definition letter (c : ascii) : bool := in_range "a" "z" c || in_range "A" "Z" c.
Definition digit (c : ascii) : bool := in_range "0" "9" c.
Definition one_of (cs : list ascii) (c : ascii) : bool := existsb (Ascii.eqb c) cs.
Definition local_char (c : ascii) : bool :=
  letter c || digit c || one_of ["."; "_"; "%"; "+"; "-"] c.
Definition domain_char (c : ascii) : bool :=
  letter c || digit c || one_of ["."; "-"] c.
Definition word_char (c : option ascii) : bool :=
  match c with
  | Some c => letter c || digit c || one_of ["_"] c
  | None => false
  end.

(** All the ways to cut a list in two. *)
Fixpoint splits {A : Type} (l : list A) : list (list A * list A) :=
  ([], l) ::
  match l with
  | [] => []
  | x :: l' => map (fun '(a, b) => (x :: a, b)) (splits l')
  end.

Definition nonempty {A : Type} (l : list A) : bool :=
  match l with [] => false | _ => true end.

Definition domain_and_tld (r : list ascii) : bool :=
  existsb (fun '(d, r') =>
             match r' with
             | c :: t =>
                 Ascii.eqb c "." && nonempty d && forallb domain_char d
                 && Nat.leb 2 (length t) && forallb letter t
             | [] => false
             end) (splits r).

Definition is_email (m : list ascii) : bool :=
  existsb (fun '(l, r) =>
             match r with
             | c :: r' =>
                 Ascii.eqb c "@" && nonempty l && forallb local_char l
                 && domain_and_tld r'
             | [] => false
             end) (splits m).

(** A word boundary lies between two positions exactly one of which holds
    a word character. *)
Definition boundary (a b : option ascii) : bool := xorb (word_char a) (word_char b).

(** An occurrence is judged with the character before it and the text
    after it. *)
Definition occurrence : Type := option ascii -> list ascii -> list ascii -> bool.

Definition email_occurrence : occurrence := fun _ m _ => is_email m.

Definition long_number : occurrence := fun prev m next =>
  Nat.leb 7 (length m) && forallb digit m
  && boundary prev (head m) && boundary (last m) (head next).

(** The length of the longest occurrence that starts here, if any. *)
Definition longest_at (P : occurrence) (prev : option ascii) (s : list ascii)
  : option nat :=
  List.find (fun n => P prev (take n s) (drop n s)) (rev (seq 1 (length s))).

Fixpoint redact (fuel : nat) (P : occurrence) (token : list ascii)
         (prev : option ascii) (s : list ascii) : list ascii :=
  match fuel, s with
  | S fuel', c :: s' =>
      match longest_at P prev s with
      | Some n => token ++ redact fuel' P token (last (take n s)) (drop n s)
      | None => c :: redact fuel' P token (Some c) s'
      end
  | _, _ => s
  end.

(** Each round consumes at least one character, so the length of the text
    is fuel enough. *)
Definition redact_all (P : occurrence) (token : string) (s : string) : string :=
  text (redact (length (units s)) P (units token) None (units s)).

Definition mask (input : string) : string :=
  redact_all long_number "[REDACTED_NUM]"
    (redact_all email_occurrence "[REDACTED_EMAIL]" input).

End Policy.

(** ** JavaScript strings and values

    The string functions are modelled on ASCII: white space is the six
    ASCII white-space and line-end characters, and case is the case of
    the 26 letters.  What Unicode adds to either is outside this
    development. *)

Module Js.

Definition is_space (c : ascii) : bool :=
  existsb (Ascii.eqb c) [" "; "009"; "010"; "011"; "012"; "013"].

Fixpoint trim_start (s : list ascii) : list ascii :=
  match s with
  | c :: s' => if is_space c then trim_start s' else s
  | [] => []
  end.

Definition trim_end (s : list ascii) : list ascii := rev (trim_start (rev s)).

(** [String.prototype.trim] as it is on texts of ASCII characters: the
    white space and line ends below U+0080.  The built-in also strips the
    white space beyond (U+00A0, U+2028, ...), which this development does
    not read. *)
Definition trim (s : string) : string := text (trim_end (trim_start (units s))).

Definition lower (c : ascii) : ascii :=
  if in_range "A" "Z" c then ascii_of_nat (nat_of_ascii c + 32) else c.

(** [String.prototype.toLowerCase] as it is on texts of ASCII
    characters: the letters A to Z are lowered one by one.  The built-in
    is the Unicode mapping, which is not unit by unit beyond ASCII; there
    this definition leaves the units as they are. *)
Definition toLowerCase (s : string) : string := text (map lower (units s)).

Fixpoint starts_with (p s : list ascii) : bool :=
  match p, s with
  | [], _ => true
  | a :: p', b :: s' => Ascii.eqb a b && starts_with p' s'
  | _ :: _, [] => false
  end.

Fixpoint includes_units (hay needle : list ascii) : bool :=
  starts_with needle hay ||
  match hay with
  | [] => false
  | _ :: hay' => includes_units hay' needle
  end.

(** [String.prototype.includes] *)
Definition includes (hay needle : string) : bool :=
  includes_units (units hay) (units needle).

Fixpoint split_units (sep : ascii) (s : list ascii) : list (list ascii) :=
  match s with
  | [] => [[]]
  | c :: s' =>
      if Ascii.eqb c sep then [] :: split_units sep s'
      else match split_units sep s' with
           | piece :: pieces => (c :: piece) :: pieces
           | [] => [[c]]
           end
  end.

(** [String.prototype.split] with a one-character separator. *)
Definition split (sep : ascii) (s : string) : list string :=
  map text (split_units sep (units s)).

(** The values a message field of the broker client can hold where the
    code tests it for truth: nothing, a number, or a string. *)
Inductive value : Type :=
| Undefined
| Num (z : Z)
| Str (s : string).

(** The numbers (IEEE 754 doubles) this development tells apart: those
    whose value is an integer, the negative zero, the infinities and NaN;
    and, unread, the number [Number(s)] of a string [s] that is not a
    plain decimal integer. *)
Inductive number : Type :=
| Int (z : Z)
| NegZero
| Infinity (negative : bool)
| NaN
| Of_string (s : string).

(** The double nearest to the integer [z]: [z] itself below 2^53 in
    absolute value; beyond, [z] rounded to 53 significant bits, a tie going
    to the even significand; an infinity from 2^1024 on. *)
Definition to_double (z : Z) : number :=
  let a := Z.abs z in
  if (a <? 2 ^ 53)%Z then Int z
  else
    let e := (Z.log2 a - 52)%Z in
    let q := (a / 2 ^ e)%Z in
    let r := (a mod 2 ^ e)%Z in
    let half := (2 ^ (e - 1))%Z in
    let q' := if (r <? half)%Z then q
              else if (half <? r)%Z then (q + 1)%Z
              else if Z.even q then q else (q + 1)%Z in
    if (2 ^ 1024 <=? q' * 2 ^ e)%Z then Infinity (z <? 0)%Z
    else Int (Z.sgn z * (q' * 2 ^ e))%Z.

Definition ToBoolean (v : value) : bool :=
  match v with
  | Undefined => false
  | Num z => negb (z =? 0)%Z
  | Str s => negb (String.eqb s EmptyString)
  end.

(** [Number(v)].  A string is read when it is a plain decimal integer,
    digits with an optional minus sign before them, which is how the
    broker client renders its 64-bit timestamps: the result is the double
    nearest to that integer.  The empty string is 0.  The number of any
    other string (white space around the digits, a plus sign, a fraction,
    an exponent, a radix prefix, "Infinity", ...) is left unread. *)
Definition Number (v : value) : number :=
  match v with
  | Undefined => NaN
  | Num z => Int z
  | Str s =>
      if String.eqb s EmptyString then Int 0
      else match NilZero.int_of_string s with
           | Some (Decimal.Pos u) => to_double (Z.of_uint u)
           | Some (Decimal.Neg u) =>
               if (Z.of_uint u =? 0)%Z then NegZero
               else to_double (- Z.of_uint u)
           | None => Of_string s
           end
  end.

(** The decimal rendering of an integer ([Long.prototype.toString]). *)
Definition decimal (z : Z) : string := NilZero.string_of_int (Z.to_int z).

End Js.

Local Close Scope char_scope.
Local Open Scope string_scope.
Local Open Scope list_scope.
Local Open Scope nat_scope.

(** ** The main process *)

(** *** Data *)

Definition Buffer : Type := list Byte.byte.

Module StartConfig.
Record t : Type := mk {
  brokers : string;
  topic : string;
  groupId : string;
  fromBeginning : bool;
  mask : bool
}.
End StartConfig.

(** The message of the broker client (KafkaMessage of kafkajs). *)
Module Message.
Record t : Type := mk {
  key : option Buffer;
  value : option Buffer;
  timestamp : Js.value;
  offset : string;
  headers : option (gmap string (option Buffer))
}.
End Message.

(** The argument of [eachMessage]. *)
Module Payload.
Record t : Type := mk {
  topic : string;
  partition : Z;
  message : Message.t
}.
End Payload.

Record KafkaMsg : Type := mkKafkaMsg {
  topic : string;
  partition : Z;
  offset : string;
  timestamp : option Js.number;
  key : string;
  value : string;
  headers : gmap string string
}.

(** A consumer object of the broker client: its identity and what it was
    created with. *)
Record Consumer : Type := mkConsumer {
  consumer_id : nat;
  consumer_brokers : list string;
  consumer_groupId : string
}.

Inductive Error : Type :=
| KafkaJSError (message : string)   (* thrown by the broker client *)
| TypeError.                        (* a method call on [null] *)

(** The module-level variables of the main process.  [created] counts the
    consumer objects made so far and gives each one its identity. *)
Record Main : Type := mkMain {
  win : option nat;
  consumer : option Consumer;
  running : bool;
  created : nat
}.

Definition set_running (b : bool) (g : Main) : Main :=
  mkMain (win g) (consumer g) b (created g).
Definition set_consumer (c : option Consumer) (g : Main) : Main :=
  mkMain (win g) c (running g) (created g).

(** The calls on the broker client that the handlers await. *)
Inductive Call : Type :=
| Connect (c : Consumer)
| Subscribe (c : Consumer) (topic : string) (fromBeginning : bool)
| Run (c : Consumer) (cfg : StartConfig.t)  (* [eachMessage] closed over cfg *)
| Stop (c : Consumer)
| Disconnect (c : Consumer).

(** How an awaited promise settles. *)
Inductive Outcome : Type :=
| Resolved
| Rejected (e : Error).

(** *** Asynchronous functions

    An async function runs until its next [await]; there it leaves the
    shared state as it is, and when the awaited call settles it goes on
    from the state it then finds. *)
Section Async.

Context {St Call' : Type}.

Inductive Task (R : Type) : Type :=
| Return (s : St) (r : R)
| Throw (s : St) (e : Error)
| Await (s : St) (c : Call') (k : Outcome -> St -> Task R).

Arguments Return {R}.
Arguments Throw {R}.
Arguments Await {R}.

(** [await t] on another async function, then [f]. *)
Fixpoint and_then {A B : Type} (t : Task A) (f : A -> St -> Task B) : Task B :=
  match t with
  | Return s a => f a s
  | Throw s e => Throw s e
  | Await s c k => Await s c (fun o s' => and_then (k o s') f)
  end.

(** One awaited call as the run of a task met it. *)
Record Event {World : Type} : Type := mkEvent {
  ev_state : St;          (* the shared state when the call was made *)
  ev_world : World;       (* the outside world when the call was made *)
  ev_call : Call';
  ev_outcome : Outcome
}.

Record Run_ {World Out R : Type} : Type := mkRun {
  final : St;
  result : R + Error;
  world : World;
  trace : list (@Event World);
  outbox : list Out
}.

Context {World Arrival Out : Type}.

(** What the outside does: how each call settles, and what arrives while
    it is pending. *)
Record Env : Type := mkEnv {
  reply : Call' -> Outcome;
  arrivals : Call' -> list Arrival
}.

Variable effect : Call' -> Outcome -> World -> World.
Variable on_arrival : Arrival -> St -> St * list Out.

Fixpoint deliver (xs : list Arrival) (s : St) : St * list Out :=
  match xs with
  | [] => (s, [])
  | x :: xs' =>
      let '(s1, out1) := on_arrival x s in
      let '(s2, out2) := deliver xs' s1 in
      (s2, out1 ++ out2)
  end.

(** Run a task to its end: at each [await] the arrivals of the pending
    call are handled, then the call settles. *)
Fixpoint perform {R : Type} (env : Env) (t : Task R) (w : World)
  : @Run_ World Out R :=
  match t with
  | Return s r => mkRun _ _ _ s (inl r) w [] []
  | Throw s e => mkRun _ _ _ s (inr e) w [] []
  | Await s c k =>
      let '(s', out) := deliver (arrivals env c) s in
      let o := reply env c in
      let r := perform env (k o s') (effect c o w) in
      mkRun _ _ _ (final r) (result r) (world r)
            (mkEvent _ s w c o :: trace r) (out ++ outbox r)
  end.

End Async.

Arguments Return {St Call' R}.
Arguments Throw {St Call' R}.
Arguments Await {St Call' R}.
Arguments Event : clear implicits.
Arguments Run_ : clear implicits.
Arguments Env : clear implicits.

(** *** Normalising a record and handing it to the window *)

Record Ack : Type := mkAck { ok : bool }.

Section MainProcess.

(** [Buffer.prototype.toString("utf8")] of the platform. *)
Variable toString_utf8 : Buffer -> string.

(** [b ? b.toString("utf8") : ""] *)
Definition to_text (b : option Buffer) : string :=
  match b with
  | Some bytes => toString_utf8 bytes
  | None => ""
  end.

(** The loop over [Object.entries(message.headers)]. *)
Definition decode_headers (hs : option (gmap string (option Buffer)))
  : gmap string string :=
  match hs with
  | Some entries => map_fold (fun k v acc => <[k := to_text v]> acc) ∅ entries
  | None => ∅
  end.

(** [Object.fromEntries(Object.entries(headers).map(([k, v]) => [k, maskText(v)]))] *)
Definition mask_headers (hs : gmap string string) : gmap string string :=
  list_to_map ((fun kv => (kv.1, maskText kv.2)) <$> map_to_list hs).

(** [message.timestamp ? Number(message.timestamp) : null] *)
Definition normalize_timestamp (ts : Js.value) : option Js.number :=
  if Js.ToBoolean ts then Some (Js.Number ts) else None.

(** The record [out] that [eachMessage] builds. *)
Definition normalize (cfg : StartConfig.t) (p : Payload.t) : KafkaMsg :=
  let message := Payload.message p in
  let key := to_text (Message.key message) in
  let value := to_text (Message.value message) in
  let headers := decode_headers (Message.headers message) in
  {| topic := Payload.topic p;
     partition := Payload.partition p;
     offset := Message.offset message;
     timestamp := normalize_timestamp (Message.timestamp message);
     key := if StartConfig.mask cfg then maskText key else key;
     value := if StartConfig.mask cfg then maskText value else value;
     headers := if StartConfig.mask cfg then mask_headers headers else headers |}.

(** The callback given to [consumer.run], closed over the [cfg] of the
    start request; the result is what it sends on "kafka:message". *)
Definition eachMessage (cfg : StartConfig.t) (g : Main) (p : Payload.t)
  : option KafkaMsg :=
  if negb (running g) || negb (bool_decide (is_Some (win g))) then None
  else Some (normalize cfg p).

(** *** The handlers *)

Definition stopConsumer (g : Main) : @Task Main Call unit :=
  let g := set_running false g in
  match consumer g with
  | Some c =>
      Await g (Stop c) (fun o g =>
        match o with
        | Resolved =>
            match consumer g with
            | Some c' =>
                Await g (Disconnect c') (fun _ g =>
                  (* resolved, or rejected and caught *)
                  Return (set_consumer None g) tt)
            | None => Return (set_consumer None g) tt   (* TypeError, caught *)
            end
        | Rejected _ => Return (set_consumer None g) tt (* caught *)
        end)
  | None => Return g tt
  end.

(** [kafka.consumer({ groupId })] on a client for the given brokers. *)
Definition new_consumer (cfg : StartConfig.t) (g : Main) : Consumer :=
  {| consumer_id := created g;
     consumer_brokers := Js.trim <$> Js.split "," (StartConfig.brokers cfg);
     consumer_groupId := StartConfig.groupId cfg |}.

(** ipcMain.handle("kafka:start") *)
Definition kafka_start (cfg : StartConfig.t) (g : Main) : @Task Main Call Ack :=
  and_then (stopConsumer g) (fun _ g =>
    let c := new_consumer cfg g in
    let g := mkMain (win g) (Some c) (running g) (S (created g)) in
    Await g (Connect c) (fun o g =>
      match o, consumer g with
      | Rejected e, _ => Throw g e
      | Resolved, None => Throw g TypeError
      | Resolved, Some c =>
      Await g (Subscribe c (StartConfig.topic cfg) (StartConfig.fromBeginning cfg))
        (fun o g =>
          match o with
          | Rejected e => Throw g e
          | Resolved =>
              let g := set_running true g in
              match consumer g with
              | None => Throw g TypeError
              | Some c =>
                  Await g (Run c cfg) (fun o g =>
                    match o with
                    | Rejected e => Throw g e
                    | Resolved => Return g (mkAck true)
                    end)
              end
          end)
      end)).

(** ipcMain.handle("kafka:stop") *)
Definition kafka_stop (g : Main) : @Task Main Call Ack :=
  and_then (stopConsumer g) (fun _ g => Return g (mkAck true)).

(** *** The broker side

    The open connections, by consumer identity: a connection is open from
    a [connect] that resolved to a [disconnect] that resolved. *)
Definition connections : Type := gset nat.

Definition effect (c : Call) (o : Outcome) (w : connections) : connections :=
  match c, o with
  | Connect h, Resolved => {[consumer_id h]} ∪ w
  | Disconnect h, Resolved => w ∖ {[consumer_id h]}
  | _, _ => w
  end.

(** A record the broker client delivers to the callback of a [run]. *)
Definition Delivery : Type := StartConfig.t * Payload.t.

Definition on_delivery (d : Delivery) (g : Main) : Main * list KafkaMsg :=
  (g, match eachMessage d.1 g d.2 with
      | Some out => [out]
      | None => []
      end).

Definition MainEnv : Type := Env Call Delivery.

Definition run_handler {R} (env : MainEnv) (t : @Task Main Call R) (w : connections)
  : Run_ Main Call connections KafkaMsg R :=
  perform effect on_delivery env t w.

(** *** The process over time, one request after the other

    [serve] is the process when no request is received while the
    handler of another still waits on the broker client: each handler
    runs to its end, with the deliveries of the broker client at its
    awaits, and between requests the callbacks of running consumers may
    fire.  The handlers are asynchronous and the source does not
    serialise them; what the process does when they overlap is [play],
    further down, of which [serve] is the serial case. *)
Record System : Type := mkSystem {
  globals : Main;
  net : connections;
  sent : list KafkaMsg;      (* what has reached the window, oldest first *)
  log : list (Event Main Call connections)   (* the calls made so far *)
}.

Inductive Request : Type :=
| StartRequest (cfg : StartConfig.t) (env : MainEnv)
| StopRequest (env : MainEnv)
| Incoming (d : Delivery).

Definition absorb {R} (sys : System) (r : Run_ Main Call connections KafkaMsg R)
  : System :=
  mkSystem (final r) (world r) (sent sys ++ outbox r) (log sys ++ trace r).

Definition serve (sys : System) (req : Request) : System * option (Ack + Error) :=
  match req with
  | StartRequest cfg env =>
      let r := run_handler env (kafka_start cfg (globals sys)) (net sys) in
      (absorb sys r, Some (result r))
  | StopRequest env =>
      let r := run_handler env (kafka_stop (globals sys)) (net sys) in
      (absorb sys r, Some (result r))
  | Incoming d =>
      let '(g, out) := on_delivery d (globals sys) in
      (mkSystem g (net sys) (sent sys ++ out) (log sys), None)
  end.

Definition serve_all (sys : System) (reqs : list Request) : System :=
  foldl (fun s r => (serve s r).1) sys reqs.

End MainProcess.

(** The process once the window is up: nothing consumed yet. *)
Definition main_ready : Main := mkMain (Some 1) None false 0.
Definition system_ready : System := mkSystem main_ready ∅ [] [].

(** *** What the specification asks of the lifecycle *)

(** The connection the process holds: that of its current consumer. *)
Definition held (g : Main) : connections :=
  match consumer g with
  | Some c => {[consumer_id c]}
  | None => ∅
  end.

(** At most one subscription: no connection is open but the held one. *)
Definition one_subscription (g : Main) (w : connections) : Prop := w ⊆ held g.

(** The release calls of the broker client go through. *)
Definition releases_resolve (env : MainEnv) : Prop :=
  forall c, reply env (Stop c) = Resolved /\ reply env (Disconnect c) = Resolved.

Definition polite (req : Request) : Prop :=
  match req with
  | StartRequest _ env | StopRequest env => releases_resolve env
  | Incoming _ => True
  end.

(** The consumer a call is made on. *)
Definition callee (c : Call) : Consumer :=
  match c with
  | Connect h | Subscribe h _ _ | Run h _ | Stop h | Disconnect h => h
  end.

(** The process is stopped: nothing runs and no consumer is held. *)
Definition Stopped (g : Main) : Prop := running g = false /\ consumer g = None.

(** An outside where every call settles as [o] and nothing arrives. *)
Definition quiet {C A : Type} (o : Outcome) : Env C A :=
  mkEnv (fun _ => o) (fun _ => []).

(** ** The renderer (App) *)

Module Renderer.

Definition MAX_MESSAGES : nat := 500.
Definition UI_FLUSH_MS : nat := 120.

Inductive Status : Type := st_stopped | st_running | st_starting | st_error.

(** The state of the component: its [useState] cells and the queue ref. *)
Record App : Type := mkApp {
  brokers : string;
  topics : list string;
  topic : string;
  groupId : string;
  fromBeginning : bool;
  mask : bool;
  status : Status;
  search : string;
  selected : option KafkaMsg;
  messages : list KafkaMsg;
  queueRef : list KafkaMsg
}.

Definition initial : App :=
  mkApp "localhost:29092" [] "" "kafka-desktop-viewer" false true st_stopped
        "" None [] [].

Definition setStatus (st : Status) (a : App) : App :=
  mkApp (brokers a) (topics a) (topic a) (groupId a) (fromBeginning a) (mask a)
        st (search a) (selected a) (messages a) (queueRef a).

(** [setSelected(null); setMessages([]); queueRef.current = []] *)
Definition reset (a : App) : App :=
  mkApp (brokers a) (topics a) (topic a) (groupId a) (fromBeginning a) (mask a)
        (status a) (search a) None [] [].

(** The listener given to [onMessage]. *)
Definition onMessage (msg : KafkaMsg) (a : App) : App :=
  mkApp (brokers a) (topics a) (topic a) (groupId a) (fromBeginning a) (mask a)
        (status a) (search a) (selected a) (messages a) (queueRef a ++ [msg]).

(** The updater passed to [setMessages] by the interval callback. *)
Definition merge (prev queue : list KafkaMsg) : list KafkaMsg :=
  let merged := prev ++ queue in
  if length merged <=? MAX_MESSAGES then merged
  else drop (length merged - MAX_MESSAGES) merged.

(** The interval callback, every [UI_FLUSH_MS]. *)
Definition flush (a : App) : App :=
  if length (queueRef a) =? 0 then a
  else mkApp (brokers a) (topics a) (topic a) (groupId a) (fromBeginning a)
             (mask a) (status a) (search a) (selected a)
             (merge (messages a) (queueRef a)) [].

(** The predicate of [messages.filter] in [filtered]. *)
Definition matches (q : string) (m : KafkaMsg) : bool :=
  Js.includes (Js.toLowerCase (key m +:+ " " +:+ value m)) q.

Definition filter_by (search : string) (messages : list KafkaMsg) : list KafkaMsg :=
  let q := Js.toLowerCase (Js.trim search) in
  if String.eqb q "" then messages
  else List.filter (matches q) messages.

Definition filtered (a : App) : list KafkaMsg := filter_by (search a) (messages a).

(** What the renderer invokes on the main process. *)
Inductive Ipc : Type :=
| InvokeStart (cfg : StartConfig.t)
| InvokeStop.

Definition blank (s : string) : bool := String.eqb (Js.trim s) "".

(** [start] of the component. *)
Definition start (a : App) : @Task App Ipc unit :=
  if blank (brokers a) || blank (topic a) || blank (groupId a) then Return a tt
  else
    let a := setStatus st_starting (reset a) in
    Await a
      (InvokeStart (StartConfig.mk (brokers a) (topic a) (groupId a)
                                   (fromBeginning a) (mask a)))
      (fun o a =>
         match o with
         | Resolved => Return (setStatus st_running a) tt
         | Rejected _ => Return (setStatus st_error a) tt  (* caught, logged *)
         end).

(** [stop] of the component. *)
Definition stop (a : App) : @Task App Ipc unit :=
  Await a InvokeStop (fun o a =>
    match o with
    | Resolved => Return (setStatus st_stopped a) tt
    | Rejected e => Throw a e
    end).

(** The Clear button. *)
Definition clear (a : App) : App := reset a.

(** What happens to the component by itself: a record arrives from the
    main process, or the interval fires. *)
Inductive Tick : Type :=
| Arrives (msg : KafkaMsg)
| Interval.

Definition on_tick (t : Tick) (a : App) : App :=
  match t with
  | Arrives msg => onMessage msg a
  | Interval => flush a
  end.

Definition ticks (ts : list Tick) (a : App) : App := foldl (fun a t => on_tick t a) a ts.

Definition run_handler {R} (env : Env Ipc Tick) (t : @Task App Ipc R)
  : Run_ App Ipc unit Empty_set R :=
  perform (fun _ _ w => w) (fun t a => (on_tick t a, [])) env t tt.

End Renderer.

(** ** The notions of the specification *)

(** The filter in the specification's words: a query that is empty or
    only white space gives the buffer back; any other query is lowercased
    and looked for in the lowercased key, separator and value. *)
Module SpecFilter.

Definition whitespace_only (query : string) : bool :=
  forallb Js.is_space (units query).

Definition filter (buffer : list KafkaMsg) (query : string) : list KafkaMsg :=
  if whitespace_only query then buffer
  else List.filter
         (fun m => Js.includes (Js.toLowerCase (key m +:+ " " +:+ value m))
                               (Js.toLowerCase query))
         buffer.

End SpecFilter.

(** The timestamp in the specification's words: the epoch milliseconds
    the broker reports, and null when there are none or they are zero. *)
Module SpecTimestamp.

Definition reported (ts : Js.value) : option Z :=
  match Js.Number ts with
  | Js.Int z => Some z
  | _ => None
  end.

Definition timestamp (ts : Js.value) : option Js.number :=
  match reported ts with
  | Some z => if (z =? 0)%Z then None else Some (Js.Int z)
  | None => None
  end.

End SpecTimestamp.

Section Notions.

Variable toString_utf8 : Buffer -> string.

(** What a batch of deliveries sends to the window. *)
Definition sends (ds : list Delivery) (g : Main) : list KafkaMsg :=
  (deliver (on_delivery toString_utf8) ds g).2.

End Notions.

Definition is_release (c : Call) : Prop :=
  match c with
  | Stop _ | Disconnect _ => True
  | _ => False
  end.

Definition settled_at (e : Event Main Call connections) : Prop :=
  one_subscription (ev_state e) (ev_world e).

Definition tidy (sys : System) : Prop :=
  one_subscription (globals sys) (net sys) /\ Forall settled_at (log sys).


(** The most recent [n] elements of a list. *)
Definition last_n {A} (n : nat) (l : list A) : list A := drop (length l - n) l.

Section BufferNotions.
Import Renderer.

Definition records (ts : list Tick) : list KafkaMsg :=
  omap (fun t => match t with Arrives m => Some m | Interval => None end) ts.

Definition buffer_inv (seen : list KafkaMsg) (a : App) : Prop :=
  exists drained, seen = drained ++ queueRef a /\
                  messages a = last_n MAX_MESSAGES drained.

(** Records fed one at a time, each followed by a drain. *)
Definition one_at_a_time (rs : list KafkaMsg) : list Tick :=
  flat_map (fun r => [Arrives r; Interval]) rs.

Definition start_cfg (a : App) : StartConfig.t :=
  StartConfig.mk (brokers a) (topic a) (groupId a) (fromBeginning a) (mask a).

End BufferNotions.

(** ** Sample data *)

Definition msg (k v : string) : KafkaMsg := mkKafkaMsg "t" 0 "0" None k v ∅.

Definition msg0 : KafkaMsg := mkKafkaMsg "t" 0 "0" None "k" "v" ∅.

Definition with_topic (t : string) (ms : list KafkaMsg) : Renderer.App :=
  Renderer.mkApp "localhost:29092" [] t "kafka-desktop-viewer" false true Renderer.st_stopped
        "" None ms [].

Definition cfg0 : StartConfig.t :=
  StartConfig.mk "localhost:29092" "orders" "viewer" false true.

Definition cfg1 : StartConfig.t :=
  StartConfig.mk "localhost:29092" "payments" "viewer" true false.

(** The broker client rejects [run] and accepts everything else. *)
Definition run_fails : MainEnv :=
  mkEnv (fun c => match c with
                  | Run _ _ => Rejected (KafkaJSError "run failed")
                  | _ => Resolved
                  end)
        (fun _ => []).

(** The broker client rejects [stop] and accepts everything else. *)
Definition stop_fails : MainEnv :=
  mkEnv (fun c => match c with
                  | Stop _ => Rejected (KafkaJSError "stop failed")
                  | _ => Resolved
                  end)
        (fun _ => []).

Definition two_starts : list Request :=
  [StartRequest cfg0 (quiet Resolved); StartRequest cfg1 stop_fails].

(** ** Auxiliary definitions for the proofs *)

Definition event (g : Main) (w : connections) (c : Call) (o : Outcome)
  : Event Main Call connections :=
  {| ev_state := g; ev_world := w; ev_call := c; ev_outcome := o |}.

(** What [kafka:start] does once [stopConsumer] has returned. *)
Definition after_stop (cfg : StartConfig.t) (g : Main) : @Task Main Call Ack :=
  let c := new_consumer cfg g in
  let g := mkMain (win g) (Some c) (running g) (S (created g)) in
  Await g (Connect c) (fun o g =>
    match o, consumer g with
    | Rejected e, _ => Throw g e
    | Resolved, None => Throw g TypeError
    | Resolved, Some c =>
    Await g (Subscribe c (StartConfig.topic cfg) (StartConfig.fromBeginning cfg))
      (fun o g =>
        match o with
        | Rejected e => Throw g e
        | Resolved =>
            let g := set_running true g in
            match consumer g with
            | None => Throw g TypeError
            | Some c =>
                Await g (Run c cfg) (fun o g =>
                  match o with
                  | Rejected e => Throw g e
                  | Resolved => Return g (mkAck true)
                  end)
            end
        end)
    end).

Definition subscribe_call (cfg : StartConfig.t) (c : Consumer) : Call :=
  Subscribe c (StartConfig.topic cfg) (StartConfig.fromBeginning cfg).

Definition settled (o : Outcome) : Ack + Error :=
  match o with
  | Resolved => inl (mkAck true)
  | Rejected e => inr e
  end.

Local Open Scope char_scope.
Local Open Scope nat_scope.

Section MatcherNotions.
Import Policy.

(** The loop of a repetition, with the rest of the pattern as [K]. *)
Fixpoint rep (K : option ascii -> list ascii -> option (list ascii))
         (p : ascii -> bool) (n : nat) (prev : option ascii) (s : list ascii)
  : option (list ascii) :=
  let leave := match n with O => K prev s | S _ => None end in
  match s with
  | c :: s' =>
      if p c then
        match rep K p (pred n) (Some c) s' with
        | Some r => Some r
        | None => leave
        end
      else leave
  | [] => leave
  end.

(** Length of the longest prefix whose characters all satisfy [p]. *)
Fixpoint span_len (p : ascii -> bool) (s : list ascii) : nat :=
  match s with
  | c :: s' => if p c then S (span_len p s') else 0
  | [] => 0
  end.

(** The character before position [k] of [s]. *)
Definition prev_at (prev : option ascii) (s : list ascii) (k : nat) : option ascii :=
  match k with
  | O => prev
  | S k' => s !! k'
  end.

Definition at_ {B} (K : option ascii -> list ascii -> option B)
           (prev : option ascii) (s : list ascii) (k : nat) : option B :=
  K (prev_at prev s k) (drop k s).

(** The first success of [f] at [hi], [hi - 1], ..., [lo]. *)
Fixpoint try_down {B} (f : nat -> option B) (lo hi : nat) : option B :=
  if hi <? lo then None
  else match f hi with
       | Some b => Some b
       | None => match hi with
                 | O => None
                 | S h => try_down f lo h
                 end
       end.

Definition tld_k (s3 : list ascii) : option (list ascii) :=
  if 2 <=? span_len letter s3 then Some (drop (span_len letter s3) s3) else None.

Definition dot_k (prev : option ascii) (x : list ascii) : option (list ascii) :=
  match x with
  | c :: s3 => if Ascii.eqb c "." then tld_k s3 else None
  | [] => None
  end.

Definition at_k (prev : option ascii) (x : list ascii) : option (list ascii) :=
  match x with
  | c :: s2 =>
      if Ascii.eqb c "@"
      then try_down (at_ dot_k (Some c) s2) 1 (span_len domain_char s2)
      else None
  | [] => None
  end.

Definition email_shape (l d t : list ascii) : Prop :=
  l <> [] /\ forallb local_char l = true /\
  d <> [] /\ forallb domain_char d = true /\
  2 <= length t /\ forallb letter t = true.

Definition boundary_k (q : option ascii) (x : list ascii) : option (list ascii) :=
  if boundary q (head x) then Some x else None.

End MatcherNotions.

Local Close Scope char_scope.

(** ** Further notions: what masking leaves behind *)

Local Open Scope char_scope.
Local Open Scope nat_scope.

Section CleanNotions.
Import Policy.

(** No occurrence starts at any position of [s], [prev] being the
    character before [s]. *)
Fixpoint clean (P : occurrence) (prev : option ascii) (s : list ascii) : bool :=
  match s with
  | [] => true
  | c :: s' =>
      match longest_at P prev s with
      | Some _ => false
      | None => clean P (Some c) s'
      end
  end.

(** The characters an email occurrence is made of. *)
Definition email_char (c : ascii) : bool := local_char c || Ascii.eqb c "@".

Definition is_at (c : ascii) : bool := Ascii.eqb c "@".

Definition no_at (s : list ascii) : bool := forallb (fun c => negb (is_at c)) s.

(** No run of seven decimal digits or more anywhere in [s]. *)
Fixpoint short_runs (s : list ascii) : bool :=
  match s with
  | [] => true
  | _ :: s' => (span_len digit s <? 7) && short_runs s'
  end.

Definition tokenE : list ascii := units "[REDACTED_EMAIL]".
Definition tokenN : list ascii := units "[REDACTED_NUM]".

(** A text ends outside the email characters. *)
Definition sealed (t : list ascii) : bool :=
  match last t with
  | Some c => negb (email_char c)
  | None => false
  end.

Definition not_digit (c : ascii) : bool := negb (digit c).

(** No occurrence of [P] at any position of the text [t], of any length:
    the piece of [n] characters from position [i] on, judged with the
    character before it and the text after it, is never one. *)
Definition free_of (P : occurrence) (t : string) : Prop :=
  forall i n,
    P (prev_at None (units t) i) (take n (drop i (units t)))
      (drop n (drop i (units t))) = false.

(** The text between the two rounds, and after them. *)
Definition after_emails (s : string) : list ascii :=
  redact (length (units s)) email_occurrence tokenE None (units s).

Definition after_numbers (x : list ascii) : list ascii :=
  redact (length x) long_number tokenN None x.

(** Letters, digits and the underscore. *)
Definition identifier_char (c : ascii) : bool := word_char (Some c).

End CleanNotions.

Local Close Scope char_scope.

Local Open Scope string_scope.
Local Open Scope list_scope.
Local Open Scope nat_scope.

(** A text that holds no email occurrence and no long number. *)
Definition masked (t : string) : Prop :=
  free_of Policy.email_occurrence t /\ free_of Policy.long_number t.

(** ** The topic list (kafka:listTopics) *)

Module JsArray.

Fixpoint insert (x : string) (l : list string) : list string :=
  match l with
  | [] => [x]
  | y :: l' => if String.leb x y then x :: l else y :: insert x l'
  end.

(** [Array.prototype.sort] without a comparison function, on strings:
    ascending in the order of their code units. *)
Definition sort (l : list string) : list string := foldr insert [] l.

End JsArray.

(** In ascending order: every entry is at most every later one. *)
Fixpoint ascending (l : list string) : Prop :=
  match l with
  | [] => True
  | x :: l' => Forall (fun y => String.leb x y = true) l' /\ ascending l'
  end.

(** The calls on the admin client of one request. *)
Inductive AdminCall : Type :=
| AdminConnect (brokers : list string)
| AdminListTopics
| AdminDisconnect.

(** ipcMain.handle("kafka:listTopics").  [listed] is what
    [admin.listTopics()] resolves to when it resolves. *)
Definition kafka_listTopics (listed : list string) (brokers : string) (g : Main)
  : @Task Main AdminCall (list string) :=
  Await g (AdminConnect (Js.trim <$> Js.split "," brokers)) (fun o g =>
    match o with
    | Rejected e => Throw g e
    | Resolved =>
        Await g AdminListTopics (fun o g =>
          (* finally: await admin.disconnect() *)
          Await g AdminDisconnect (fun o' g =>
            match o', o with
            | Rejected e', _ => Throw g e'
            | Resolved, Rejected e => Throw g e
            | Resolved, Resolved => Return g (JsArray.sort listed)
            end))
    end).

(** The admin connections open at the broker, counted. *)
Definition admin_effect (c : AdminCall) (o : Outcome) (open : nat) : nat :=
  match c, o with
  | AdminConnect _, Resolved => S open
  | AdminDisconnect, Resolved => pred open
  | _, _ => open
  end.

(** app.on("window-all-closed"): the result tells whether [app.quit()]
    is called. *)
Definition window_all_closed (platform : string) (g : Main) : @Task Main Call bool :=
  and_then (stopConsumer g) (fun _ g =>
    Return g (negb (String.eqb platform "darwin"))).

Section MoreNotions.

Variable toString_utf8 : Buffer -> string.

Definition run_admin {R} (env : Env AdminCall Delivery)
           (t : @Task Main AdminCall R) (open : nat)
  : Run_ Main AdminCall nat KafkaMsg R :=
  perform admin_effect (on_delivery toString_utf8) env t open.

(** What the callback makes of a delivery. *)
Definition forwarded (d : Delivery) : KafkaMsg := normalize toString_utf8 d.1 d.2.

End MoreNotions.

(** An entry of a broker list: a text without comma. *)
Definition comma_free (s : string) : Prop := ","%char ∉ units s.

(** A record with a key, a value and one header. *)
Definition payload0 : Payload.t :=
  Payload.mk "orders" 0
             (Message.mk (Some []) (Some []) Js.Undefined "0"
                         (Some {[ "reply-to" := Some [] ]})).

(** ** More of the renderer *)

Section RendererNotions.
Import Renderer.

Definition setBrokers (s : string) (a : App) : App :=
  mkApp s (topics a) (topic a) (groupId a) (fromBeginning a) (mask a)
        (status a) (search a) (selected a) (messages a) (queueRef a).

Definition setTopics (l : list string) (a : App) : App :=
  mkApp (brokers a) l (topic a) (groupId a) (fromBeginning a) (mask a)
        (status a) (search a) (selected a) (messages a) (queueRef a).

Definition setTopic (t : string) (a : App) : App :=
  mkApp (brokers a) (topics a) t (groupId a) (fromBeginning a) (mask a)
        (status a) (search a) (selected a) (messages a) (queueRef a).

Definition setGroupId (s : string) (a : App) : App :=
  mkApp (brokers a) (topics a) (topic a) s (fromBeginning a) (mask a)
        (status a) (search a) (selected a) (messages a) (queueRef a).

Definition setFromBeginning (b : bool) (a : App) : App :=
  mkApp (brokers a) (topics a) (topic a) (groupId a) b (mask a)
        (status a) (search a) (selected a) (messages a) (queueRef a).

Definition setMask (b : bool) (a : App) : App :=
  mkApp (brokers a) (topics a) (topic a) (groupId a) (fromBeginning a) b
        (status a) (search a) (selected a) (messages a) (queueRef a).

Definition setSearch (q : string) (a : App) : App :=
  mkApp (brokers a) (topics a) (topic a) (groupId a) (fromBeginning a) (mask a)
        (status a) q (selected a) (messages a) (queueRef a).

Definition setSelected (m : option KafkaMsg) (a : App) : App :=
  mkApp (brokers a) (topics a) (topic a) (groupId a) (fromBeginning a) (mask a)
        (status a) (search a) m (messages a) (queueRef a).

(** The component [a] with another buffer and queue. *)
Definition with_buffer (a : App) (ms q : list KafkaMsg) : App :=
  mkApp (brokers a) (topics a) (topic a) (groupId a) (fromBeginning a) (mask a)
        (status a) (search a) (selected a) ms q.

(** What the renderer invokes for the topic list. *)
Inductive IpcTopics : Type :=
| InvokeListTopics (brokers : string).

(** [refreshTopics] of the component; [list] is what the invocation
    resolves to when it resolves.  [brokers] and [topic] are those of the
    render the function belongs to, the setters act on the state at the
    time they are called. *)
Definition refreshTopics (list : list string) (a : App) : @Task App IpcTopics unit :=
  Await a (InvokeListTopics (brokers a)) (fun o a' =>
    match o with
    | Resolved =>
        let a' := setTopics list a' in
        if String.eqb (topic a) "" && negb (length list =? 0)
        then Return (setTopic (hd "" list) a') tt
        else Return a' tt
    | Rejected _ => Return (setTopics [] a') tt   (* caught, logged *)
    end).

Definition run_refresh {R} (env : Env IpcTopics Tick) (t : @Task App IpcTopics R)
  : Run_ App IpcTopics unit Empty_set R :=
  perform (fun _ _ w => w) (fun t a => (on_tick t a, [])) env t tt.

(** The rows of the list, first row first: [[...filtered].reverse()]. *)
Definition rows (a : App) : list KafkaMsg := rev (filtered a).

(** What can happen to the component: a record arrives or the interval
    fires, or the user acts on one of its controls.  A button runs its
    handler to the end, with what the main process answers and what
    arrives meanwhile. *)
Inductive Ui : Type :=
| Passes (t : Tick)
| TypeBrokers (s : string)
| ClickLoadTopics (list : list string) (env : Env IpcTopics Tick)
| ChooseTopic (i : nat)                      (* the i-th option listed *)
| TypeGroup (s : string)
| ChooseOffset (earliest : bool)
| ToggleMask (checked : bool)
| ClickStart (env : Env Ipc Tick)
| ClickStop (env : Env Ipc Tick)
| TypeSearch (q : string)
| ClickClear
| ClickRow (i : nat).                        (* the i-th row shown *)

Definition ui (e : Ui) (a : App) : App :=
  match e with
  | Passes t => on_tick t a
  | TypeBrokers s => setBrokers s a
  | ClickLoadTopics list env => final (run_refresh env (refreshTopics list a))
  | ChooseTopic i =>
      match topics a !! i with
      | Some t => setTopic t a
      | None => a
      end
  | TypeGroup s => setGroupId s a
  | ChooseOffset earliest => setFromBeginning earliest a
  | ToggleMask checked => setMask checked a
  | ClickStart env =>
      match status a with
      | st_running | st_starting => a            (* disabled *)
      | _ => final (Renderer.run_handler env (start a))
      end
  | ClickStop env =>
      match status a with
      | st_running => final (Renderer.run_handler env (stop a))
      | _ => a                                   (* disabled *)
      end
  | TypeSearch q => setSearch q a
  | ClickClear => clear a
  | ClickRow i =>
      match rows a !! i with
      | Some m => setSelected (Some m) a
      | None => a
      end
  end.

Definition session (es : list Ui) (a : App) : App := foldl (fun a e => ui e a) a es.

End RendererNotions.

(** ** The topic list, from the broker to the component

    The bridge of the preload script: [listTopics] of the renderer is the
    invocation of the handler of the main process, resolved with what it
    returns and rejected when it throws. *)
Section Bridge.

Variable toString_utf8 : Buffer -> string.

Definition load_topics (listed : list string) (g : Main)
           (broker : Env AdminCall Delivery) (open : nat)
           (meanwhile : list Renderer.Tick) (a : Renderer.App)
  : Run_ Renderer.App IpcTopics unit Empty_set unit :=
  let r := run_admin toString_utf8 broker
                     (kafka_listTopics listed (Renderer.brokers a) g) open in
  match result r with
  | inl list =>
      run_refresh (mkEnv (fun _ => Resolved) (fun _ => meanwhile))
                  (refreshTopics list a)
  | inr e =>
      run_refresh (mkEnv (fun _ => Rejected e) (fun _ => meanwhile))
                  (refreshTopics [] a)
  end.

(** [invoke] of a handler of the main process: the request is served
    to the end, and the promise settles as the handler did. *)
Definition answer (broker : MainEnv) (c : Renderer.Ipc) (sys : System)
  : System * Outcome :=
  let req := match c with
             | Renderer.InvokeStart cfg => StartRequest cfg broker
             | Renderer.InvokeStop => StopRequest broker
             end in
  let '(sys', res) := serve toString_utf8 sys req in
  (sys', match res with
         | Some (inr e) => Rejected e
         | _ => Resolved
         end).

(** The records sent to the window reach the listener of the component
    in order, the interval firing any number of times in between:
    [fires] tells how often before each record and after the last. *)
Fixpoint paced (fires : list nat) (news : list KafkaMsg) : list Renderer.Tick :=
  replicate (hd 0 fires) Renderer.Interval ++
  match news with
  | [] => []
  | m :: news' => Renderer.Arrives m :: paced (tl fires) news'
  end.

(** A handler of the component run against the main process: while an
    invocation is pending the component receives what the main process
    sends to the window. *)
Fixpoint couple {R} (broker : MainEnv) (fires : list nat)
         (t : @Task Renderer.App Renderer.Ipc R) (sys : System)
  : System * Renderer.App * (R + Error) :=
  match t with
  | Return a r => (sys, a, inl r)
  | Throw a e => (sys, a, inr e)
  | Await a c k =>
      let '(sys', o) := answer broker c sys in
      let news := drop (length (sent sys)) (sent sys') in
      couple broker fires (k o (Renderer.ticks (paced fires news) a)) sys'
  end.

(** Records delivered by the broker client between two requests: the
    callback sends them to the window, where the component receives
    them. *)
Definition incoming (fires : list nat) (ds : list Delivery)
           (sys : System) (a : Renderer.App) : System * Renderer.App :=
  let sys' := serve_all toString_utf8 sys (Incoming <$> ds) in
  let news := drop (length (sent sys)) (sent sys') in
  (sys', Renderer.ticks (paced fires news) a).

(** The Start and Stop buttons, which do nothing while disabled. *)
Definition click_start (broker : MainEnv) (fires : list nat)
           (sys : System) (a : Renderer.App)
  : System * Renderer.App * (unit + Error) :=
  match Renderer.status a with
  | Renderer.st_running | Renderer.st_starting => (sys, a, inl tt)
  | _ => couple broker fires (Renderer.start a) sys
  end.

Definition click_stop (broker : MainEnv) (fires : list nat)
           (sys : System) (a : Renderer.App)
  : System * Renderer.App * (unit + Error) :=
  match Renderer.status a with
  | Renderer.st_running => couple broker fires (Renderer.stop a) sys
  | _ => (sys, a, inl tt)
  end.

End Bridge.

(** A text of ASCII characters only.  On such texts the units of this
    development are the code units of the source, and [Js.trim],
    [Js.toLowerCase] and [Js.includes] are the built-ins of the source. *)
Definition ascii_only (s : string) : bool :=
  forallb (fun c => nat_of_ascii c <? 128) (units s).

Definition ascii_record (m : KafkaMsg) : bool :=
  ascii_only (key m) && ascii_only (value m).

(** A broker client whose calls all go through and which delivers one
    record once [run] is called. *)
Definition delivers_on_run : MainEnv :=
  mkEnv (fun _ => Resolved)
        (fun c => match c with
                  | Run _ cfg => [(cfg, payload0)]
                  | _ => []
                  end).

Local Close Scope string_scope.

(** ** Handlers that overlap

    The handlers of the main process are asynchronous and nothing
    serialises them: while one waits on the broker client the process
    takes the next invocation, and each handler, when the call it waits
    on settles, goes on with the globals as they are then.  [serve] is
    the case where a request is received only once the handler of the
    one before has returned. *)

Local Open Scope string_scope.
Local Open Scope list_scope.
Local Open Scope nat_scope.

(** A handler waiting on a call: the globals and the connections when
    the call was made, the call, and what the handler does next. *)
Record Parked : Type := mkParked {
  pk_result : Type;
  pk_state : Main;
  pk_world : connections;
  pk_call : Call;
  pk_next : Outcome -> Main -> @Task Main Call pk_result
}.

Record Process : Type := mkProcess {
  system : System;
  parked : list Parked          (* the handlers waiting, oldest wait first *)
}.

Definition idle (sys : System) : Process := mkProcess sys [].

(** What the main process handles. *)
Inductive Handler : Type :=
| OnStart (cfg : StartConfig.t)
| OnStop
| OnWindowAllClosed (platform : string).

Inductive Happening : Type :=
| Received (h : Handler)               (* an invocation or event arrives *)
| Settled (i : nat) (o : Outcome)      (* the call of the i-th waiting handler settles *)
| Delivered (d : Delivery).            (* the broker client calls a callback *)

Section Overlap.

Variable toString_utf8 : Buffer -> string.

(** A handler runs up to its next [await], or to its end. *)
Definition advance {R} (t : @Task Main Call R) (p : Process) : Process :=
  let sys := system p in
  match t with
  | Return g _ | Throw g _ =>
      mkProcess (mkSystem g (net sys) (sent sys) (log sys)) (parked p)
  | Await g c k =>
      mkProcess (mkSystem g (net sys) (sent sys) (log sys))
                (parked p ++ [mkParked R g (net sys) c k])
  end.

Definition receive (h : Handler) (p : Process) : Process :=
  let g := globals (system p) in
  match h with
  | OnStart cfg => advance (kafka_start cfg g) p
  | OnStop => advance (kafka_stop g) p
  | OnWindowAllClosed platform => advance (window_all_closed platform g) p
  end.

Definition happen (p : Process) (h : Happening) : Process :=
  let sys := system p in
  match h with
  | Received h => receive h p
  | Settled i o =>
      match parked p !! i with
      | Some pk =>
          let sys' :=
            mkSystem (globals sys) (effect (pk_call pk) o (net sys)) (sent sys)
                     (log sys ++ [event (pk_state pk) (pk_world pk) (pk_call pk) o]) in
          advance (pk_next pk o (globals sys)) (mkProcess sys' (delete i (parked p)))
      | None => p
      end
  | Delivered d =>
      let '(g, out) := on_delivery toString_utf8 d (globals sys) in
      mkProcess (mkSystem g (net sys) (sent sys ++ out) (log sys)) (parked p)
  end.

Definition play (p : Process) (hs : list Happening) : Process := foldl happen p hs.

(** What happens when a handler runs with no other handler in between:
    at each call the deliveries of [env], then its answer. *)
Fixpoint script {R} (env : MainEnv) (t : @Task Main Call R) : list Happening :=
  match t with
  | Await g c k =>
      (Delivered <$> arrivals env c)
      ++ Settled 0 (reply env c) :: script env (k (reply env c) g)
  | _ => []
  end.

(** Requests served one after the other: each is received when the
    handler of the one before has returned. *)
Fixpoint serially (sys : System) (reqs : list Request) : list Happening :=
  match reqs with
  | [] => []
  | req :: reqs' =>
      match req with
      | StartRequest cfg env =>
          Received (OnStart cfg) :: script env (kafka_start cfg (globals sys))
      | StopRequest env =>
          Received OnStop :: script env (kafka_stop (globals sys))
      | Incoming d => [Delivered d]
      end ++ serially (serve toString_utf8 sys req).1 reqs'
  end.

(** No overlap, and releases that go through: a request is received
    only when no handler is waiting, and the stop and disconnect calls of
    the broker client resolve. *)
Definition admitted (p : Process) (h : Happening) : Prop :=
  match h with
  | Received _ => parked p = []
  | Settled i o =>
      match parked p !! i with
      | Some pk => is_release (pk_call pk) -> o = Resolved
      | None => True
      end
  | Delivered _ => True
  end.

Fixpoint orderly (p : Process) (hs : list Happening) : Prop :=
  match hs with
  | [] => True
  | h :: hs' => admitted p h /\ orderly (happen p h) hs'
  end.

End Overlap.

(** A handler that, run with no other handler in between from the
    connections [w], has one subscription at most at each of its calls and
    at its end, however the broker client answers, its releases going
    through. *)
Fixpoint steady {R} (t : @Task Main Call R) (w : connections) : Prop :=
  match t with
  | Return g _ | Throw g _ => one_subscription g w
  | Await g c k =>
      one_subscription g w /\
      forall o, (is_release c -> o = Resolved) -> steady (k o g) (effect c o w)
  end.

(** What holds of the process as long as nothing overlaps. *)
Definition calm (p : Process) : Prop :=
  Forall settled_at (log (system p)) /\
  match parked p with
  | [] => one_subscription (globals (system p)) (net (system p))
  | [pk] =>
      globals (system p) = pk_state pk /\ net (system p) = pk_world pk /\
      steady (Await (pk_state pk) (pk_call pk) (pk_next pk)) (pk_world pk)
  | _ => False
  end.

(** Two start requests, the second received while the first waits for
    its connection; every call of the broker client goes through. *)
Definition overlapping_starts : list Happening :=
  [ Received (OnStart cfg0);        (* the first handler waits on connect *)
    Received (OnStart cfg1);        (* the second waits on stop of the first consumer *)
    Settled 1 Resolved;             (* stop; it waits on disconnect *)
    Settled 1 Resolved;             (* disconnect; it creates its consumer, waits on connect *)
    Settled 0 Resolved;             (* connect of the first consumer; the first handler goes on *)
    Settled 0 Resolved;             (* connect of the second consumer *)
    Settled 0 Resolved;             (* subscribe, asked by the first handler *)
    Settled 0 Resolved;             (* subscribe, asked by the second handler *)
    Settled 0 Resolved;             (* run, asked by the first handler *)
    Settled 0 Resolved ].           (* run, asked by the second handler *)

Local Close Scope string_scope.
(** * Proofs *)

(** ** The masking engine agrees with the masking policy *)

Import Policy.

Local Open Scope char_scope.
Local Open Scope nat_scope.

(** The classes of the patterns, read with the case-insensitive flag, are
    the classes of the policy. *)
Lemma email_local_class c : atom_matches true email_local c = local_char c.
Proof. destruct c as [[] [] [] [] [] [] [] []]; vm_compute; reflexivity. Qed.

Lemma email_domain_class c : atom_matches true email_domain c = domain_char c.
Proof. destruct c as [[] [] [] [] [] [] [] []]; vm_compute; reflexivity. Qed.

Lemma email_tld_class c : atom_matches true email_tld c = letter c.
Proof. destruct c as [[] [] [] [] [] [] [] []]; vm_compute; reflexivity. Qed.

Lemma lit_at_class c : atom_matches true (Lit "@") c = Ascii.eqb c "@".
Proof. destruct c as [[] [] [] [] [] [] [] []]; vm_compute; reflexivity. Qed.

Lemma lit_dot_class c : atom_matches true (Lit ".") c = Ascii.eqb c ".".
Proof. destruct c as [[] [] [] [] [] [] [] []]; vm_compute; reflexivity. Qed.

Lemma word_char_class c : IsWordChar c = word_char c.
Proof.
  destruct c as [c|]; [|reflexivity].
  destruct c as [[] [] [] [] [] [] [] []]; vm_compute; reflexivity.
Qed.

(** *** Greedy repetition *)

Lemma run_AtLeast ic n a ns prev s :
  run ic (AtLeast n a :: ns) prev s = rep (run ic ns) (atom_matches ic a) n prev s.
Proof.
  revert n prev. induction s as [|c s IH]; intros n prev; simpl.
  - reflexivity.
  - destruct (atom_matches ic a c); [|reflexivity].
    simpl in IH. rewrite IH. reflexivity.
Qed.

Lemma try_down_shift {B} (f : nat -> option B) lo h :
  try_down f lo (S h) =
  match try_down (fun k => f (S k)) (pred lo) h with
  | Some b => Some b
  | None => match lo with O => f 0 | S _ => None end
  end.
Proof.
  revert lo. induction h as [|h IH]; intros lo.
  - simpl. destruct lo as [|[|lo]]; simpl; try reflexivity;
      destruct (f 1); try reflexivity; destruct (f 0); reflexivity.
  - remember (S h) as h1 eqn:E.
    cbn [try_down]. rewrite E at 2. rewrite <- E.
    rewrite (IH lo). subst h1.
    cbn [try_down].
    destruct lo as [|lo]; simpl.
    + destruct (f (S (S h))); reflexivity.
    + change (S (S h) <? S lo) with (S h <? lo).
      destruct (S h <? lo); [reflexivity|].
      destruct (f (S (S h))); reflexivity.
Qed.

Lemma try_down_ext {B} (f g : nat -> option B) lo hi :
  (forall k, f k = g k) -> try_down f lo hi = try_down g lo hi.
Proof.
  intros E. induction hi as [|h IH]; simpl; rewrite E; [reflexivity|].
  rewrite IH. reflexivity.
Qed.

Lemma rep_try_down K p n prev s :
  rep K p n prev s = try_down (at_ K prev s) n (span_len p s).
Proof.
  revert n prev. induction s as [|c s IH]; intros n prev.
  - simpl. unfold at_. simpl. destruct n; simpl; [destruct (K prev [])|]; reflexivity.
  - cbn [rep span_len]. destruct (p c).
    + rewrite try_down_shift, IH. reflexivity.
    + simpl. unfold at_. simpl.
      destruct n; simpl; [destruct (K prev (c :: s))|]; reflexivity.
Qed.

Lemma try_down_Some {B} (f : nat -> option B) lo hi b :
  try_down f lo hi = Some b ->
  exists k, lo <= k <= hi /\ f k = Some b /\ forall k', k < k' <= hi -> f k' = None.
Proof.
  induction hi as [|h IH]; simpl.
  - destruct (Nat.ltb_spec 0 lo); [discriminate|].
    destruct (f 0) eqn:E; [|discriminate]. intros [= ->].
    exists 0. split; [lia|]. split; [exact E|]. intros; lia.
  - destruct (Nat.ltb_spec (S h) lo); [discriminate|].
    destruct (f (S h)) eqn:E.
    + intros [= ->]. exists (S h). split; [lia|]. split; [exact E|]. intros; lia.
    + intros H1. destruct (IH H1) as (k & Hk & Hf & Hmax).
      exists k. split; [lia|]. split; [exact Hf|].
      intros k' Hk'. destruct (decide (k' = S h)) as [->|]; [exact E|].
      apply Hmax. lia.
Qed.

Lemma try_down_None {B} (f : nat -> option B) lo hi :
  try_down f lo hi = None -> forall k, lo <= k <= hi -> f k = None.
Proof.
  induction hi as [|h IH]; simpl.
  - destruct (Nat.ltb_spec 0 lo); [intros; lia|].
    destruct (f 0) eqn:E; [discriminate|]. intros _ k Hk.
    replace k with 0 by lia. exact E.
  - destruct (Nat.ltb_spec (S h) lo); [intros; lia|].
    destruct (f (S h)) eqn:E; [discriminate|].
    intros H1 k Hk. destruct (decide (k = S h)) as [->|]; [exact E|].
    apply IH; [exact H1|lia].
Qed.

Lemma rep_ext K p q n prev s :
  (forall c, p c = q c) -> rep K p n prev s = rep K q n prev s.
Proof.
  intros E. revert n prev. induction s as [|c s IH]; intros; simpl; [reflexivity|].
  rewrite E, IH. reflexivity.
Qed.

(** *** Prefixes that satisfy a class *)

Lemma span_len_le p s : span_len p s <= length s.
Proof. induction s as [|c s IH]; simpl; [lia|]. destruct (p c); simpl; lia. Qed.

Lemma forallb_take_span p s k :
  k <= span_len p s -> forallb p (take k s) = true.
Proof.
  revert k. induction s as [|c s IH]; intros k Hk; simpl in *.
  - destruct k; reflexivity.
  - destruct k; [reflexivity|]. destruct (p c) eqn:E; [|lia].
    simpl. rewrite E. apply IH. lia.
Qed.

Lemma span_len_app_ge p l r :
  forallb p l = true -> length l <= span_len p (l ++ r).
Proof.
  induction l as [|c l IH]; simpl; [lia|].
  intros H. apply andb_true_iff in H as [-> H]. specialize (IH H). lia.
Qed.

Lemma span_len_stop p l c r :
  forallb p l = true -> p c = false -> span_len p (l ++ c :: r) = length l.
Proof.
  induction l as [|x l IH]; simpl; intros H Hc.
  - rewrite Hc. reflexivity.
  - apply andb_true_iff in H as [-> H]. rewrite IH by assumption. reflexivity.
Qed.

(** Two cuts of one text at a character outside the class, each after a
    prefix inside the class, are the same cut. *)
Lemma class_cut_unique p (l1 l2 : list ascii) c r1 r2 :
  forallb p l1 = true -> forallb p l2 = true -> p c = false ->
  l1 ++ c :: r1 = l2 ++ c :: r2 -> l1 = l2 /\ r1 = r2.
Proof.
  revert l2. induction l1 as [|x l1 IH]; intros [|y l2] H1 H2 Hc E; simpl in *.
  - injection E as ->. split; reflexivity.
  - injection E as -> E. apply andb_true_iff in H2 as [H2 _]. congruence.
  - injection E as -> E. apply andb_true_iff in H1 as [H1 _]. congruence.
  - injection E as -> E.
    apply andb_true_iff in H1 as [_ H1]. apply andb_true_iff in H2 as [_ H2].
    destruct (IH l2 H1 H2 Hc E) as [-> ->]. split; reflexivity.
Qed.

Lemma try_down_top {B} (f : nat -> option B) lo hi b :
  lo <= hi -> f hi = Some b -> try_down f lo hi = Some b.
Proof.
  intros Hle E. destruct hi; cbn [try_down]; rewrite E;
    match goal with |- context [?a <? ?b] => destruct (Nat.ltb_spec a b) end;
    solve [lia|reflexivity].
Qed.

Lemma try_down_lt {B} (f : nat -> option B) lo hi :
  hi < lo -> try_down f lo hi = None.
Proof.
  intros Hlt. destruct hi; cbn [try_down];
    match goal with |- context [?a <? ?b] => destruct (Nat.ltb_spec a b) end;
    solve [lia|reflexivity].
Qed.

Lemma rep_ext_K K K' p n prev s :
  (forall q x, K q x = K' q x) -> rep K p n prev s = rep K' p n prev s.
Proof.
  intros E. revert n prev. induction s as [|c s IH]; intros; simpl.
  - rewrite E. reflexivity.
  - rewrite E, IH. reflexivity.
Qed.

(** *** The email pattern, node by node *)

Lemma rep_done p n prev s :
  rep (run true []) p n prev s =
  if n <=? span_len p s then Some (drop (span_len p s) s) else None.
Proof.
  rewrite rep_try_down.
  destruct (Nat.leb_spec n (span_len p s)).
  - apply try_down_top; [assumption|reflexivity].
  - apply try_down_lt; assumption.
Qed.

Lemma run_tld prev x :
  run true [One (Lit "."); AtLeast 2 email_tld] prev x = dot_k prev x.
Proof.
  destruct x as [|c s3]; [reflexivity|].
  cbn [run]. rewrite lit_dot_class. unfold dot_k.
  destruct (Ascii.eqb c "."); [|reflexivity].
  change (run true [AtLeast 2 email_tld] (Some c) s3 = tld_k s3).
  rewrite run_AtLeast, (rep_ext _ _ letter) by apply email_tld_class.
  apply rep_done.
Qed.

Lemma run_domain prev x :
  run true [One (Lit "@"); AtLeast 1 email_domain; One (Lit "."); AtLeast 2 email_tld]
      prev x = at_k prev x.
Proof.
  destruct x as [|c s2]; [reflexivity|].
  cbn [run]. rewrite lit_at_class. unfold at_k.
  destruct (Ascii.eqb c "@"); [|reflexivity].
  change (run true [AtLeast 1 email_domain; One (Lit "."); AtLeast 2 email_tld]
              (Some c) s2 = try_down (at_ dot_k (Some c) s2) 1 (span_len domain_char s2)).
  rewrite run_AtLeast, (rep_ext _ _ domain_char) by apply email_domain_class.
  rewrite (rep_ext_K _ dot_k) by apply run_tld.
  apply rep_try_down.
Qed.

Lemma run_email prev s :
  run true (source email) prev s =
  try_down (at_ at_k prev s) 1 (span_len local_char s).
Proof.
  unfold email, source.
  rewrite run_AtLeast, (rep_ext _ _ local_char) by apply email_local_class.
  rewrite (rep_ext_K _ at_k) by apply run_domain.
  apply rep_try_down.
Qed.

(** *** Occurrences of the policy *)

Lemma in_splits {A} (l a b : list A) : In (a, b) (splits l) <-> l = a ++ b.
Proof.
  revert a. induction l as [|x l IH]; intros a; simpl.
  - split.
    + intros [[= <- <-]|[]]. reflexivity.
    + intros E. symmetry in E. apply app_eq_nil in E as [-> ->]. left. reflexivity.
  - split.
    + intros [[= <- <-]|H]; [reflexivity|].
      apply in_map_iff in H as ([a' b'] & [= <- <-] & H).
      apply IH in H. subst l. reflexivity.
    + destruct a as [|y a]; simpl.
      * intros <-. left. reflexivity.
      * intros [= <- ->]. right. apply in_map_iff.
        exists (a, b). split; [reflexivity|]. apply IH. reflexivity.
Qed.

Lemma nonempty_true {A} (l : list A) : nonempty l = true <-> l <> [].
Proof. destruct l; simpl; split; congruence. Qed.

Lemma is_email_spec m :
  is_email m = true <->
  exists l d t, m = l ++ "@" :: d ++ "." :: t /\ email_shape l d t.
Proof.
  unfold is_email, domain_and_tld, email_shape. rewrite existsb_exists. split.
  - intros ([l r] & Hin & H). apply in_splits in Hin. subst m.
    destruct r as [|c r]; [discriminate|].
    rewrite !andb_true_iff in H. destruct H as (((Hc & Hl) & Hl') & H).
    apply Ascii.eqb_eq in Hc. subst c.
    apply existsb_exists in H as ([d r'] & Hin & H).
    apply in_splits in Hin. subst r.
    destruct r' as [|c t]; [discriminate|].
    rewrite !andb_true_iff in H. destruct H as ((((Hc & Hd) & Hd') & Ht) & Ht').
    apply Ascii.eqb_eq in Hc. subst c.
    exists l, d, t. split; [reflexivity|].
    apply nonempty_true in Hl, Hd. apply Nat.leb_le in Ht.
    tauto.
  - intros (l & d & t & -> & Hl & Hl' & Hd & Hd' & Ht & Ht').
    exists (l, "@" :: d ++ "." :: t). split; [apply in_splits; reflexivity|].
    rewrite Ascii.eqb_refl, (proj2 (nonempty_true l)), Hl' by assumption.
    cbn [andb]. apply existsb_exists. exists (d, "." :: t). split; [apply in_splits; reflexivity|].
    rewrite Ascii.eqb_refl, (proj2 (nonempty_true d)), Hd', Ht' by assumption.
    rewrite (proj2 (Nat.leb_le _ _)) by assumption. reflexivity.
Qed.

Lemma find_longest (f : nat -> bool) len n :
  1 <= n <= len -> f n = true -> (forall n', n < n' <= len -> f n' = false) ->
  List.find f (rev (seq 1 len)) = Some n.
Proof.
  induction len as [|len IH]; intros Hn Hf Hmax; [lia|].
  rewrite seq_S, rev_app_distr. simpl.
  destruct (decide (n = S len)) as [->|Hne].
  - rewrite Hf. reflexivity.
  - rewrite (Hmax (S len)) by lia. apply IH; [lia|assumption|].
    intros; apply Hmax; lia.
Qed.

Lemma find_longest_none (f : nat -> bool) len :
  (forall n, 1 <= n <= len -> f n = false) -> List.find f (rev (seq 1 len)) = None.
Proof.
  induction len as [|len IH]; intros H; [reflexivity|].
  rewrite seq_S, rev_app_distr. simpl.
  rewrite (H (S len)) by lia. apply IH. intros; apply H; lia.
Qed.

Lemma longest_at_Some P prev s n :
  longest_at P prev s = Some n -> 1 <= n <= length s.
Proof.
  unfold longest_at. intros H. apply find_some in H as [H _].
  apply in_rev, in_seq in H. lia.
Qed.

Lemma longest_at_nil P prev : longest_at P prev [] = None.
Proof. reflexivity. Qed.

Lemma tld_k_Some s3 rest :
  tld_k s3 = Some rest ->
  2 <= span_len letter s3 /\ rest = drop (span_len letter s3) s3.
Proof.
  unfold tld_k. destruct (Nat.leb_spec 2 (span_len letter s3)); [|discriminate].
  intros [= <-]. split; [assumption|reflexivity].
Qed.

Lemma dot_k_Some q x rest :
  dot_k q x = Some rest -> exists s3, x = "." :: s3 /\ tld_k s3 = Some rest.
Proof.
  destruct x as [|c s3]; [discriminate|]. simpl.
  destruct (Ascii.eqb_spec c "."); [|discriminate].
  subst c. intros H. exists s3. split; [reflexivity|assumption].
Qed.

Lemma at_k_Some q x rest :
  at_k q x = Some rest ->
  exists s2, x = "@" :: s2 /\
    try_down (at_ dot_k (Some "@") s2) 1 (span_len domain_char s2) = Some rest.
Proof.
  destruct x as [|c s2]; [discriminate|]. simpl.
  destruct (Ascii.eqb_spec c "@"); [|discriminate].
  subst c. intros H. exists s2. split; [reflexivity|assumption].
Qed.

Lemma take_nonempty {A} (l : list A) k : 1 <= k <= length l -> take k l <> [].
Proof.
  intros Hk E. apply (f_equal length) in E. rewrite length_take in E. simpl in E. lia.
Qed.

(** Soundness: what the pattern matches is an email of the policy. *)
Lemma email_sound prev s rest :
  run true (source email) prev s = Some rest ->
  exists l d t, s = l ++ "@" :: d ++ "." :: t ++ rest /\ email_shape l d t.
Proof.
  rewrite run_email. intros H.
  apply try_down_Some in H as (k1 & Hk1 & H & _).
  unfold at_ in H. apply at_k_Some in H as (s2 & E1 & H).
  apply try_down_Some in H as (k2 & Hk2 & H & _).
  unfold at_ in H. apply dot_k_Some in H as (s3 & E2 & H).
  apply tld_k_Some in H as [Hr3 ->].
  pose proof (span_len_le local_char s) as L1.
  pose proof (span_len_le domain_char s2) as L2.
  pose proof (span_len_le letter s3) as L3.
  exists (take k1 s), (take k2 s2), (take (span_len letter s3) s3).
  split.
  - rewrite (take_drop _ s3), <- E2, (take_drop _ s2), <- E1, (take_drop _ s).
    reflexivity.
  - unfold email_shape.
    refine (conj _ (conj _ (conj _ (conj _ (conj _ _))))).
    + apply take_nonempty. lia.
    + apply forallb_take_span. lia.
    + apply take_nonempty. lia.
    + apply forallb_take_span. lia.
    + rewrite length_take. lia.
    + apply forallb_take_span. lia.
Qed.

Lemma tld_k_app t rest :
  forallb letter t = true -> 2 <= length t ->
  exists rest', tld_k (t ++ rest) = Some rest' /\ length rest' <= length rest.
Proof.
  intros Ht Hlen. unfold tld_k.
  pose proof (span_len_app_ge letter t rest Ht) as Hge.
  pose proof (span_len_le letter (t ++ rest)) as Hle.
  destruct (Nat.leb_spec 2 (span_len letter (t ++ rest))); [|lia].
  eexists. split; [reflexivity|].
  rewrite length_drop, length_app. lia.
Qed.

Lemma forallb_lookup (p : ascii -> bool) (l : list ascii) i c :
  forallb p l = true -> l !! i = Some c -> p c = true.
Proof.
  intros H Hi. rewrite forallb_forall in H. apply H.
  apply list_elem_of_In. eapply list_elem_of_lookup_2. exact Hi.
Qed.

(** Completeness with maximality: on a text that starts with a domain, a
    dot and a top-level domain, the search succeeds and leaves no more
    than that reading does. *)
Lemma domain_complete q d t rest :
  d <> [] -> forallb domain_char d = true ->
  2 <= length t -> forallb letter t = true ->
  exists rest',
    try_down (at_ dot_k q (d ++ "." :: t ++ rest)) 1
             (span_len domain_char (d ++ "." :: t ++ rest)) = Some rest'
    /\ length rest' <= length rest.
Proof.
  intros Hd Hd' Ht Ht'.
  set (s2 := d ++ "." :: t ++ rest).
  assert (Hlen : 1 <= length d) by (destruct d; [congruence|simpl; lia]).
  pose proof (span_len_app_ge domain_char d ("." :: t ++ rest) Hd') as Hge.
  fold s2 in Hge.
  destruct (tld_k_app t rest Ht' Ht) as (r0 & Hr0 & Hr0len).
  assert (Hat : at_ dot_k q s2 (length d) = Some r0).
  { unfold at_, s2. rewrite drop_app_length. simpl. exact Hr0. }
  destruct (try_down (at_ dot_k q s2) 1 (span_len domain_char s2)) as [rest'|] eqn:E.
  - exists rest'. split; [reflexivity|].
    apply try_down_Some in E as (k2 & Hk2 & H & Hmax).
    assert (Hdk : length d <= k2).
    { destruct (Nat.le_gt_cases (length d) k2) as [|Hlt]; [assumption|].
      rewrite (Hmax (length d)) in Hat by lia. discriminate. }
    unfold at_ in H. apply dot_k_Some in H as (s3 & E2 & H).
    apply tld_k_Some in H as [Hr3 ->].
    assert (Hs3 : length s3 + k2 + 1 = length s2).
    { pose proof (length_drop s2 k2) as Hdrop. rewrite E2 in Hdrop. simpl in Hdrop.
      lia. }
    assert (Hs2 : length s2 = length d + 1 + length t + length rest).
    { unfold s2. rewrite length_app. simpl. rewrite length_app. lia. }
    rewrite length_drop.
    destruct (decide (k2 = length d)) as [->|Hne].
    + unfold s2 in E2. rewrite drop_app_length in E2. injection E2 as E2.
      subst s3.
      pose proof (span_len_app_ge letter t rest Ht'). rewrite length_app. lia.
    + assert (Hfar : length d + 1 + length t <= k2).
      { destruct (Nat.le_gt_cases (length d + 1 + length t) k2) as [|Hlt]; [assumption|].
        exfalso.
        assert (Hlk : s2 !! k2 = Some "."%char).
        { rewrite <- (Nat.add_0_r k2), <- lookup_drop, E2. reflexivity. }
        unfold s2 in Hlk. rewrite lookup_app_r in Hlk by lia.
        destruct (k2 - length d) as [|j] eqn:Ej; [lia|]. simpl in Hlk.
        rewrite lookup_app_l in Hlk by lia.
        pose proof (forallb_lookup _ _ _ _ Ht' Hlk) as Hbad. discriminate Hbad. }
      lia.
  - apply try_down_None with (k := length d) in E; [|lia]. congruence.
Qed.

Lemma email_complete prev l d t rest :
  email_shape l d t ->
  exists rest',
    run true (source email) prev (l ++ "@" :: d ++ "." :: t ++ rest) = Some rest'
    /\ length rest' <= length rest.
Proof.
  intros (Hl & Hl' & Hd & Hd' & Ht & Ht').
  destruct (domain_complete (Some "@"%char) d t rest Hd Hd' Ht Ht') as (rest' & H & Hlen).
  exists rest'. split; [|assumption].
  rewrite run_email, span_len_stop by (assumption || reflexivity).
  apply try_down_top.
  - destruct l; [congruence|simpl; lia].
  - unfold at_. rewrite drop_app_length. simpl. exact H.
Qed.

(** The email pattern finds, at each position, the longest email of the
    policy that starts there. *)
Lemma exec_email prev s :
  exec_at email prev s = longest_at email_occurrence prev s.
Proof.
  unfold exec_at. change (ignoreCase email) with true.
  destruct (run true (source email) prev s) as [rest|] eqn:E; symmetry.
  - destruct (email_sound _ _ _ E) as (l & d & t & Es & Hshape).
    set (m := l ++ "@" :: d ++ "." :: t).
    assert (Esm : s = m ++ rest).
    { rewrite Es. unfold m. rewrite <- !app_assoc. simpl. rewrite <- app_assoc.
      reflexivity. }
    assert (Hm : 1 <= length m).
    { unfold m. rewrite length_app. simpl. lia. }
    assert (En : length s - length rest = length m).
    { rewrite Esm, length_app. lia. }
    rewrite En. apply find_longest.
    + rewrite Esm, length_app. lia.
    + unfold email_occurrence. rewrite Esm, take_app_length.
      apply is_email_spec. exists l, d, t. split; [reflexivity|assumption].
    + intros n' Hn'. unfold email_occurrence.
      destruct (is_email (take n' s)) eqn:Em; [exfalso|reflexivity].
      apply is_email_spec in Em as (l' & d' & t' & Et & Hshape').
      destruct (email_complete prev l' d' t' (drop n' s) Hshape') as (rest' & Hrun & Hlen).
      replace (l' ++ "@" :: d' ++ "." :: t' ++ drop n' s) with s in Hrun.
      * rewrite E in Hrun. injection Hrun as <-.
        rewrite length_drop in Hlen. rewrite Esm, length_app in *. lia.
      * rewrite <- (take_drop n' s) at 1. rewrite Et, <- !app_assoc. simpl.
        rewrite <- app_assoc. reflexivity.
  - apply find_longest_none. intros n Hn. unfold email_occurrence.
    destruct (is_email (take n s)) eqn:Em; [exfalso|reflexivity].
    apply is_email_spec in Em as (l' & d' & t' & Et & Hshape').
    destruct (email_complete prev l' d' t' (drop n s) Hshape') as (rest' & Hrun & Hlen).
    replace (l' ++ "@" :: d' ++ "." :: t' ++ drop n s) with s in Hrun.
    + congruence.
    + rewrite <- (take_drop n s) at 1. rewrite Et, <- !app_assoc. simpl.
      rewrite <- app_assoc. reflexivity.
Qed.

(** *** The long-number pattern *)

Lemma run_boundary q x : run false [WordB] q x = boundary_k q x.
Proof.
  unfold boundary_k, boundary. simpl. rewrite !word_char_class. reflexivity.
Qed.

Lemma run_longDigits prev s :
  run false (source longDigits) prev s =
  if boundary prev (head s)
  then try_down (at_ boundary_k prev s) 7 (span_len digit s)
  else None.
Proof.
  unfold longDigits, source. cbn [run]. unfold boundary.
  rewrite !word_char_class.
  destruct (xorb (word_char prev) (word_char (head s))); [|reflexivity].
  change (run false [AtLeast 7 Digit; WordB] prev s =
          try_down (at_ boundary_k prev s) 7 (span_len digit s)).
  rewrite run_AtLeast, (rep_ext_K _ boundary_k) by apply run_boundary.
  apply rep_try_down.
Qed.

Lemma span_len_take p s n :
  forallb p (take n s) = true -> n <= length s -> n <= span_len p s.
Proof.
  revert n. induction s as [|c s IH]; intros [|n]; simpl; try lia.
  intros H Hn. apply andb_true_iff in H as [-> H]. specialize (IH n H). lia.
Qed.

Lemma span_len_lookup p s k :
  k < span_len p s -> exists c, s !! k = Some c /\ p c = true.
Proof.
  revert k. induction s as [|c s IH]; intros k; simpl; [lia|].
  destruct (p c) eqn:E; [|lia]. destruct k as [|k]; intros Hk.
  - exists c. split; [reflexivity|assumption].
  - apply IH. lia.
Qed.

Lemma digit_word c : digit c = true -> word_char (Some c) = true.
Proof. simpl. intros ->. rewrite orb_true_r. reflexivity. Qed.

(** Inside a run of digits there is no word boundary. *)
Lemma no_boundary_inside prev s k :
  1 <= k < span_len digit s ->
  boundary (prev_at prev s k) (head (drop k s)) = false.
Proof.
  intros Hk. destruct k as [|k]; [lia|]. simpl prev_at.
  destruct (span_len_lookup digit s k) as (a & Ea & Ha); [lia|].
  destruct (span_len_lookup digit s (S k)) as (b & Eb & Hb); [lia|].
  rewrite head_lookup, lookup_drop, Nat.add_0_r, Ea, Eb.
  unfold boundary. rewrite !digit_word by assumption. reflexivity.
Qed.

Lemma long_number_at prev s n :
  1 <= n <= length s ->
  long_number prev (take n s) (drop n s) =
  (7 <=? n) && forallb digit (take n s) && boundary prev (head s)
  && boundary (prev_at prev s n) (head (drop n s)).
Proof.
  intros Hn. unfold long_number. rewrite length_take, Nat.min_l by lia.
  destruct n as [|n]; [lia|]. simpl prev_at.
  rewrite last_lookup, length_take, Nat.min_l by lia. simpl pred.
  rewrite lookup_take_lt by lia.
  replace (head (take (S n) s)) with (head s); [reflexivity|].
  destruct s; reflexivity.
Qed.

Lemma exec_longDigits prev s :
  exec_at longDigits prev s = longest_at long_number prev s.
Proof.
  unfold exec_at. change (ignoreCase longDigits) with false.
  rewrite run_longDigits.
  pose proof (span_len_le digit s) as Hspan.
  destruct (boundary prev (head s)) eqn:Eb.
  - destruct (try_down _ 7 _) as [rest|] eqn:E; symmetry.
    + apply try_down_Some in E as (k & Hk & H & _).
      unfold at_, boundary_k in H.
      destruct (boundary _ _) eqn:Ek in H; [|discriminate].
      injection H as <-.
      rewrite length_drop.
      replace (length s - (length s - k)) with k by lia.
      apply find_longest; [lia| |].
      * rewrite long_number_at, Eb, Ek, forallb_take_span by lia.
        rewrite (proj2 (Nat.leb_le 7 k)) by lia. reflexivity.
      * intros n' Hn'. rewrite long_number_at by lia.
        destruct (forallb digit (take n' s)) eqn:Ed;
          [|rewrite andb_false_r; reflexivity].
        apply span_len_take in Ed; [|lia].
        rewrite (no_boundary_inside prev s k) in Ek by lia. discriminate.
    + apply find_longest_none. intros n Hn. rewrite long_number_at by lia.
      destruct (Nat.leb_spec 7 n); [|reflexivity].
      destruct (forallb digit (take n s)) eqn:Ed; [|reflexivity].
      apply span_len_take in Ed; [|lia].
      apply try_down_None with (k := n) in E; [|lia].
      unfold at_, boundary_k in E.
      destruct (boundary (prev_at prev s n) _); [discriminate|].
      rewrite andb_false_r. reflexivity.
  - symmetry. apply find_longest_none. intros n Hn. rewrite long_number_at, Eb by lia.
    rewrite andb_false_r. reflexivity.
Qed.

(** *** The scan of [replace] and the rounds of the policy *)

Lemma replace_from_ext find find' by_ k prev s :
  (forall q x, find q x = find' q x) ->
  replace_from find by_ k prev s = replace_from find' by_ k prev s.
Proof.
  intros E. revert k prev. induction s as [|c s IH]; intros k prev; simpl.
  - rewrite E. reflexivity.
  - rewrite E. destruct k; [|apply IH].
    destruct (find' prev (c :: s)) as [[|n]|]; rewrite IH; reflexivity.
Qed.

(** Passing over the [k] characters of a match is resuming after them. *)
Lemma replace_from_skip find by_ k prev s :
  (forall q, find q [] = None) ->
  replace_from find by_ k prev s =
  replace_from find by_ 0 (prev_at prev s k) (drop k s).
Proof.
  intros Hnil. revert k prev. induction s as [|c s IH]; intros k prev.
  - destruct k; simpl; rewrite ?Hnil; reflexivity.
  - destruct k as [|k]; [reflexivity|].
    cbn [replace_from]. rewrite IH. destruct k; reflexivity.
Qed.

Lemma replace_from_redact P token fuel prev s :
  length s <= fuel ->
  replace_from (longest_at P) token 0 prev s = redact fuel P token prev s.
Proof.
  revert prev s. induction fuel as [|fuel IH]; intros prev s Hlen.
  - destruct s; [reflexivity|simpl in Hlen; lia].
  - destruct s as [|c s]; [reflexivity|].
    cbn [replace_from redact].
    destruct (longest_at P prev (c :: s)) as [n|] eqn:E.
    + apply longest_at_Some in E. destruct n as [|k]; [lia|].
      rewrite replace_from_skip by (intros; reflexivity).
      simpl in Hlen, E.
      rewrite IH by (rewrite length_drop; lia).
      f_equal. f_equal.
      rewrite last_lookup, length_take, Nat.min_l by (simpl; lia).
      simpl pred. rewrite lookup_take_lt by lia. destruct k; reflexivity.
    + rewrite IH by (simpl in Hlen; lia). reflexivity.
Qed.

Lemma replace_is_redact_all re P token input :
  (forall q x, exec_at re q x = longest_at P q x) ->
  replace re token input = redact_all P token input.
Proof.
  intros E. unfold replace, redact_all. f_equal.
  rewrite (replace_from_ext _ _ _ _ _ _ E).
  apply replace_from_redact. reflexivity.
Qed.

Lemma exec_longDigits_min prev s n :
  exec_at longDigits prev s = Some n ->
  7 <= n /\ forallb digit (take n s) = true.
Proof.
  rewrite exec_longDigits. intros H.
  pose proof (longest_at_Some _ _ _ _ H) as Hn.
  unfold longest_at in H. apply find_some in H as [_ H].
  rewrite long_number_at in H by assumption.
  rewrite !andb_true_iff in H. destruct H as (((H7 & Hd) & _) & _).
  apply Nat.leb_le in H7. split; assumption.
Qed.

(** C3.  For every input text, [maskText] is the policy's transform:
    every email occurrence (local part, [@], domain, dot, top-level domain
    of two or more letters, in either case) is replaced by the email token,
    left to right without overlap, and then, in the text so obtained, every
    run of seven or more decimal digits that has a word boundary on each
    side is replaced by the number token.  The number pattern never covers
    fewer than seven digits, and ["short 123456"] is returned as it is. *)
Theorem maskText_is_policy :
  (forall input : string, maskText input = Policy.mask input) /\
  (forall prev s,
      match exec_at longDigits prev s with
      | Some n => 7 <= n /\ forallb Policy.digit (take n s) = true
      | None => True
      end) /\
  maskText "short 123456"%string = "short 123456"%string.
Proof.
  split; [|split].
  - intros input. unfold maskText, Policy.mask.
    rewrite (replace_is_redact_all email email_occurrence) by apply exec_email.
    apply replace_is_redact_all, exec_longDigits.
  - intros prev s. destruct (exec_at longDigits prev s) as [n|] eqn:E; [|exact I].
    apply (exec_longDigits_min _ _ _ E).
  - vm_compute. reflexivity.
Qed.

Local Close Scope char_scope.

(** ** The bounded buffer of the renderer *)

Section Buffer.
Import Renderer.

Lemma merge_last_n prev queue :
  merge prev queue = last_n MAX_MESSAGES (prev ++ queue).
Proof.
  unfold merge, last_n.
  destruct (Nat.leb_spec (length (prev ++ queue)) MAX_MESSAGES) as [H|H].
  - replace (length (prev ++ queue) - MAX_MESSAGES) with 0 by lia. reflexivity.
  - reflexivity.
Qed.

Lemma length_last_n {A} n (l : list A) : length (last_n n l) <= n.
Proof. unfold last_n. rewrite length_drop. lia. Qed.

(** Keeping the last [n] of what was kept plus a batch is keeping the
    last [n] of everything. *)
Lemma last_n_app {A} n (l q : list A) :
  last_n n (last_n n l ++ q) = last_n n (l ++ q).
Proof.
  unfold last_n. rewrite !length_app, length_drop.
  destruct (Nat.le_gt_cases (length l) n) as [H|H].
  - replace (length l - n) with 0 by lia. simpl. rewrite Nat.sub_0_r. reflexivity.
  - rewrite !drop_app, !length_drop, drop_drop.
    f_equal; [|f_equal; lia].
    destruct (Nat.le_gt_cases (length q) n) as [Hq|Hq].
    + f_equal. lia.
    + rewrite !drop_ge by lia. reflexivity.
Qed.

Lemma on_tick_inv seen t a :
  buffer_inv seen a -> buffer_inv (seen ++ records [t]) (on_tick t a).
Proof.
  intros (drained & Hseen & Hmsgs). destruct t as [msg|]; simpl.
  - exists drained. split; [|assumption].
    rewrite Hseen, <- app_assoc. reflexivity.
  - rewrite app_nil_r. unfold flush.
    destruct (Nat.eqb_spec (length (queueRef a)) 0) as [H|H].
    + exists drained. split; assumption.
    + exists seen. simpl. split; [rewrite app_nil_r; reflexivity|].
      rewrite merge_last_n, Hmsgs, last_n_app, Hseen. reflexivity.
Qed.

Lemma records_app ts ts' : records (ts ++ ts') = records ts ++ records ts'.
Proof. unfold records. apply omap_app. Qed.

Lemma ticks_inv seen ts a :
  buffer_inv seen a -> buffer_inv (seen ++ records ts) (ticks ts a).
Proof.
  revert seen a. induction ts as [|t ts IH]; intros seen a H.
  - rewrite app_nil_r. exact H.
  - change (t :: ts) with ([t] ++ ts). rewrite records_app, app_assoc.
    apply IH, on_tick_inv, H.
Qed.

Lemma initial_inv : buffer_inv [] initial.
Proof. exists []. split; reflexivity. Qed.

Lemma ticks_app ts ts' a : ticks (ts ++ ts') a = ticks ts' (ticks ts a).
Proof. apply foldl_app. Qed.

Lemma flush_queue a : queueRef (flush a) = [].
Proof.
  unfold flush. destruct (Nat.eqb_spec (length (queueRef a)) 0) as [H|H];
    [|reflexivity].
  destruct (queueRef a); [reflexivity|discriminate].
Qed.

Lemma records_one_at_a_time rs : records (one_at_a_time rs) = rs.
Proof. induction rs as [|r rs IH]; simpl; [reflexivity|]. f_equal. exact IH. Qed.

Lemma one_at_a_time_queue rs a :
  queueRef a = [] -> queueRef (ticks (one_at_a_time rs) a) = [].
Proof.
  revert a. induction rs as [|r rs IH]; intros a H; [exact H|].
  simpl. apply IH. apply flush_queue.
Qed.

(** C1.  Starting from the empty buffer, whatever records arrive and
    whenever the interval fires: the retained buffer never holds more than
    500 records, and it is the last 500 (in arrival order) of the records
    drained so far, the others still waiting in the queue in arrival
    order.  A drain with a non-empty queue appends the queue to the buffer
    and keeps the most recent 500 of the result, leaving the queue empty; a
    drain with an empty queue changes nothing.  After 600 records fed one
    at a time, each followed by a drain, the buffer holds records 101 to
    600 in arrival order. *)
Theorem buffer_keeps_most_recent :
  (forall ts : list Tick,
      let a := ticks ts initial in
      length (messages a) <= 500 /\
      exists drained,
        records ts = drained ++ queueRef a /\
        messages a = last_n 500 drained) /\
  (forall a : App,
      match queueRef a with
      | [] => flush a = a
      | _ :: _ =>
          messages (flush a) = last_n 500 (messages a ++ queueRef a) /\
          queueRef (flush a) = []
      end) /\
  (forall f : nat -> KafkaMsg,
      let a := ticks (one_at_a_time (f <$> seq 1 600)) initial in
      messages a = f <$> seq 101 500 /\ length (messages a) = 500).
Proof.
  split; [|split].
  - intros ts a.
    destruct (ticks_inv [] ts initial initial_inv) as (drained & Hseen & Hmsgs).
    split.
    + fold a in Hmsgs. rewrite Hmsgs. apply length_last_n.
    + exists drained. split; assumption.
  - intros a. destruct (queueRef a) as [|m q] eqn:E.
    + unfold flush. rewrite E. reflexivity.
    + unfold flush. rewrite E. simpl. split; [|reflexivity].
      apply merge_last_n.
  - intros f a.
    destruct (ticks_inv [] (one_at_a_time (f <$> seq 1 600)) initial initial_inv)
      as (drained & Hseen & Hmsgs).
    fold a in Hseen, Hmsgs.
    assert (Hq : queueRef a = []) by (apply one_at_a_time_queue; reflexivity).
    rewrite Hq, app_nil_r, records_one_at_a_time in Hseen.
    subst drained.
    assert (E : messages a = f <$> seq 101 500).
    { rewrite Hmsgs. unfold last_n. rewrite !app_nil_l, length_fmap, length_seq.
      change (600 - MAX_MESSAGES) with 100.
      rewrite <- fmap_drop. reflexivity. }
    split; [exact E|]. rewrite E, length_fmap, length_seq. reflexivity.
Qed.

End Buffer.

(** ** The filtered view *)

Section Filter.
Import Renderer.

Lemma units_text l : units (text l) = l.
Proof. apply list_ascii_of_string_of_list_ascii. Qed.

Lemma text_units s : text (units s) = s.
Proof. apply string_of_list_ascii_of_string. Qed.

Lemma text_empty l : String.eqb (text l) "" = true <-> l = [].
Proof.
  rewrite String.eqb_eq. split.
  - intros H. apply (f_equal units) in H. rewrite units_text in H. exact H.
  - intros ->. reflexivity.
Qed.

Lemma trim_start_head l c l' :
  Js.trim_start l = c :: l' -> Js.is_space c = false.
Proof.
  induction l as [|x l IH]; simpl; [discriminate|].
  destruct (Js.is_space x) eqn:E; [exact IH|]. intros [= <- _]. exact E.
Qed.

Lemma trim_start_snoc l c :
  Js.is_space c = false -> Js.trim_start (l ++ [c]) = Js.trim_start l ++ [c].
Proof.
  intros Hc. induction l as [|x l IH]; simpl.
  - rewrite Hc. reflexivity.
  - destruct (Js.is_space x); [exact IH|reflexivity].
Qed.

Lemma trim_start_blank l : forallb Js.is_space l = true -> Js.trim_start l = [].
Proof.
  induction l as [|c l IH]; [reflexivity|]. simpl.
  intros H. apply andb_true_iff in H as [-> H]. apply IH, H.
Qed.

Lemma trim_start_all_blank l :
  forallb Js.is_space (Js.trim_start l) = true -> forallb Js.is_space l = true.
Proof.
  induction l as [|c l IH]; [reflexivity|]. simpl.
  destruct (Js.is_space c) eqn:E; [exact IH|]. simpl. rewrite E. discriminate.
Qed.

Lemma forallb_rev {A} (p : A -> bool) (l : list A) :
  forallb p (rev l) = forallb p l.
Proof.
  induction l as [|x l IH]; [reflexivity|]. simpl.
  rewrite forallb_app, IH. simpl. rewrite andb_true_r. apply andb_comm.
Qed.

Lemma trim_end_blank l :
  forallb Js.is_space (Js.trim_end l) = true -> forallb Js.is_space l = true.
Proof.
  unfold Js.trim_end. rewrite forallb_rev. intros H.
  apply trim_start_all_blank in H. rewrite forallb_rev in H. exact H.
Qed.

(** What [trim] returns does not start with white space. *)
Lemma trim_end_head c l :
  Js.is_space c = false -> exists l', Js.trim_end (c :: l) = c :: l'.
Proof.
  intros Hc. unfold Js.trim_end. simpl rev.
  rewrite trim_start_snoc by assumption.
  rewrite rev_app_distr. simpl. eexists. reflexivity.
Qed.

Lemma trimmed_blank s :
  SpecFilter.whitespace_only (Js.trim s) =
  String.eqb (Js.toLowerCase (Js.trim s)) "".
Proof.
  unfold SpecFilter.whitespace_only, Js.toLowerCase, Js.trim.
  rewrite !units_text.
  destruct (Js.trim_start (units s)) as [|c l] eqn:E.
  - reflexivity.
  - pose proof (trim_start_head _ _ _ E) as Hc.
    destruct (trim_end_head c l Hc) as (l' & ->).
    simpl. rewrite Hc. reflexivity.
Qed.

Lemma filter_sublist {A} (p : A -> bool) (l : list A) :
  sublist (List.filter p l) l.
Proof.
  induction l as [|x l IH]; simpl; [constructor|].
  destruct (p x); constructor; exact IH.
Qed.

(** C7, counterexample.  On a query with white space around it the view
    is not the specification's filter of the query as typed: for the query
    "abc " (with a space after it) the view keeps the record with key "k"
    and value "xabc", which the unchanged query does not occur in. *)
Lemma filtered_trims_the_query :
  filter_by "abc " [msg "k" "xabc"] = [msg "k" "xabc"] /\
  SpecFilter.filter [msg "k" "xabc"] "abc " = [].
Proof. split; vm_compute; reflexivity. Qed.

(** C7, amended.  For every buffer and query, the filtered view is the
    specification's filter applied to the query with the white space
    around it removed: a query that is empty or only white space gives the
    buffer unchanged; any other query is trimmed and lowercased and the
    records whose lowercased key, space and value contain it are kept, in
    their order in the buffer.  Matching ignores case (the query "ABC"
    keeps a record holding "abc") and a query found in no record gives the
    empty list. *)
Theorem filtered_is_spec_filter_of_trimmed_query :
  (forall (buffer : list KafkaMsg) (query : string),
      filter_by query buffer = SpecFilter.filter buffer (Js.trim query) /\
      filter_by query buffer =
        (if SpecFilter.whitespace_only query then buffer
         else List.filter (matches (Js.toLowerCase (Js.trim query))) buffer) /\
      sublist (filter_by query buffer) buffer) /\
  filter_by "ABC" [msg "k1" "xyz"; msg "k2" "an abc here"] = [msg "k2" "an abc here"] /\
  filter_by "xyz" [msg "k1" "abc"; msg "k2" "def"] = [].
Proof.
  split; [|split; vm_compute; reflexivity].
  intros buffer query.
  assert (E : filter_by query buffer = SpecFilter.filter buffer (Js.trim query)).
  { unfold filter_by, SpecFilter.filter, matches.
    rewrite trimmed_blank. reflexivity. }
  split; [exact E|]. split.
  - unfold filter_by.
    destruct (SpecFilter.whitespace_only query) eqn:Hblank.
    + unfold Js.trim, SpecFilter.whitespace_only in *.
      rewrite trim_start_blank by assumption. reflexivity.
    + destruct (String.eqb _ _) eqn:Eq; [|reflexivity].
      exfalso. rewrite <- trimmed_blank in Eq.
      unfold SpecFilter.whitespace_only, Js.trim in *. rewrite units_text in Eq.
      apply trim_end_blank in Eq.
      rewrite (trim_start_all_blank _ Eq) in Hblank. discriminate.
  - unfold filter_by. destruct (String.eqb _ _); [reflexivity|apply filter_sublist].
Qed.

End Filter.

(** ** The start button *)

Section StartButton.
Import Renderer.

(** C10, counterexample.  With no topic chosen, [start] returns at its
    first line: the retained buffer stays as it was and no call is made. *)
Lemma start_without_topic_keeps_buffer :
  messages (final (Renderer.run_handler (quiet Resolved)
                                        (start (with_topic "" [msg0])))) = [msg0] /\
  trace (Renderer.run_handler (quiet Resolved) (start (with_topic "" [msg0]))) = [].
Proof. split; vm_compute; reflexivity. Qed.

Lemma messages_setStatus st a : messages (setStatus st a) = messages a.
Proof. reflexivity. Qed.

Lemma ticks_selected ts a st :
  selected a = None -> selected (setStatus st (ticks ts a)) = None.
Proof.
  revert a. induction ts as [|t ts IH]; intros a H; [exact H|].
  simpl. apply IH. destruct t; simpl; [exact H|].
  unfold flush. destruct (_ =? _); exact H.
Qed.

(** C10, amended.  An invocation of [start] with brokers, topic and group
    id all non-blank clears the selected record, the retained buffer and
    the queue and only then issues the start call, whose one event sees
    them empty; when the call settles, resolved or rejected, only the
    status changes (to running or to error), so the buffer then holds
    nothing but what arrived and was drained while the call was pending,
    and is empty when nothing arrived: the reset does not depend on the
    outcome.  An invocation with a blank field returns at once, clears
    nothing and issues no call. *)
Theorem start_resets_before_the_call (a : App) (env : Env Ipc Tick) :
  let r := Renderer.run_handler env (start a) in
  if blank (brokers a) || blank (topic a) || blank (groupId a)
  then final r = a /\ trace r = []
  else
    let call := InvokeStart (start_cfg a) in
    let cleared := setStatus st_starting (reset a) in
    messages cleared = [] /\ queueRef cleared = [] /\ selected cleared = None /\
    trace r = [ {| ev_state := cleared; ev_world := tt; ev_call := call;
                   ev_outcome := reply env call |} ] /\
    result r = inl tt /\
    final r =
      setStatus (match reply env call with
                 | Resolved => st_running
                 | Rejected _ => st_error
                 end)
                (ticks (arrivals env call) cleared) /\
    match arrivals env call with
    | [] => messages (final r) = [] /\ queueRef (final r) = [] /\
            selected (final r) = None
    | _ :: _ => selected (final r) = None
    end.
Proof.
  intros r. subst r. unfold Renderer.run_handler, start.
  destruct (blank (brokers a) || blank (topic a) || blank (groupId a)).
  - split; reflexivity.
  - cbn zeta. repeat (split; [reflexivity|]).
    cbn [perform].
    fold (start_cfg (setStatus st_starting (reset a))).
    change (start_cfg (setStatus st_starting (reset a))) with (start_cfg a).
    set (call := InvokeStart (start_cfg a)).
    set (cleared := setStatus st_starting (reset a)).
    assert (Hd : forall ts (x : App),
               deliver (fun (t : Tick) (a : App) => (on_tick t a, @nil Empty_set)) ts x
               = (ticks ts x, [])).
    { induction ts as [|t ts IH]; intros x; [reflexivity|].
      simpl. rewrite IH. reflexivity. }
    rewrite Hd.
    destruct (reply env call) eqn:Er; cbn [perform final result trace];
      (split; [reflexivity|]); (split; [reflexivity|]); (split; [reflexivity|]);
      (destruct (arrivals env call) as [|t ts]; [repeat split; reflexivity|]);
      apply ticks_selected; reflexivity.
Qed.

End StartButton.

(** ** The record normaliser *)

Section Normaliser.

(** C6, counterexample.  A broker timestamp of zero reaches the code as
    the string "0", which is true in a condition: the record carries 0,
    where the specification asks for null. *)
Lemma zero_timestamp_is_kept :
  normalize_timestamp (Js.Str "0") = Some (Js.Int 0) /\
  SpecTimestamp.timestamp (Js.Str "0") = None.
Proof. split; vm_compute; reflexivity. Qed.

Lemma decimal_read z :
  NilZero.int_of_string (Js.decimal z) = Some (Z.to_int z).
Proof.
  unfold Js.decimal. apply NilZero.isi; destruct z; simpl; try discriminate.
  - intros [= H]. exact (DecimalPos.Unsigned.to_uint_nonnil _ H).
  - intros [= H]. exact (DecimalPos.Unsigned.to_uint_nonnil _ H).
Qed.

Lemma decimal_not_empty z : String.eqb (Js.decimal z) "" = false.
Proof.
  destruct (String.eqb_spec (Js.decimal z) "") as [E|]; [|reflexivity].
  pose proof (decimal_read z) as H. rewrite E in H. discriminate H.
Qed.

Lemma number_of_decimal z : Js.Number (Js.Str (Js.decimal z)) = Js.to_double z.
Proof.
  unfold Js.Number. change EmptyString with "". rewrite decimal_not_empty.
  rewrite decimal_read. pose proof (DecimalZ.of_to z) as H.
  destruct z as [|p|p]; cbn [Z.to_int Z.of_int] in *.
  - reflexivity.
  - rewrite H. reflexivity.
  - assert (E : Z.of_uint (Pos.to_uint p) = Z.pos p) by lia.
    rewrite E. reflexivity.
Qed.

Lemma to_double_exact z : (Z.abs z <= 2 ^ 53)%Z -> Js.to_double z = Js.Int z.
Proof.
  intros H. unfold Js.to_double.
  destruct (Z.ltb_spec (Z.abs z) (2 ^ 53)) as [_|H']; [reflexivity|].
  change (2 ^ 53)%Z with 9007199254740992%Z in H, H'.
  assert (E : z = 9007199254740992%Z \/ z = (-9007199254740992)%Z) by lia.
  destruct E as [-> | ->]; vm_compute; reflexivity.
Qed.

(** C6, amended.  The timestamp of the normalised record is computed from
    the timestamp field of the broker message alone: null when the field
    is absent, the empty string or the number 0; the number itself when
    the field is a non-zero number; and, when the field is the decimal
    rendering of an integer, as the broker client delivers it, the double
    nearest to that integer, zero included: the integer itself up to 2^53
    in absolute value, a rounded one beyond (2^53 + 1 gives 2^53). *)
Theorem timestamp_of_record :
  (forall toString_utf8 cfg p,
      timestamp (normalize toString_utf8 cfg p) =
      normalize_timestamp (Message.timestamp (Payload.message p))) /\
  normalize_timestamp Js.Undefined = None /\
  normalize_timestamp (Js.Str "") = None /\
  (forall z : Z,
      normalize_timestamp (Js.Num z) =
      if (z =? 0)%Z then None else Some (Js.Int z)) /\
  (forall z : Z,
      normalize_timestamp (Js.Str (Js.decimal z)) = Some (Js.to_double z)) /\
  (forall z : Z, (Z.abs z <= 2 ^ 53)%Z -> Js.to_double z = Js.Int z) /\
  normalize_timestamp (Js.Str "9007199254740993")
  = Some (Js.Int 9007199254740992).
Proof.
  split; [reflexivity|]. split; [reflexivity|]. split; [reflexivity|].
  split; [|split; [|split]].
  - intros z. unfold normalize_timestamp. simpl. destruct (z =? 0)%Z; reflexivity.
  - intros z. unfold normalize_timestamp, Js.ToBoolean.
    change EmptyString with "". rewrite decimal_not_empty. cbn [negb].
    rewrite number_of_decimal. reflexivity.
  - exact to_double_exact.
  - vm_compute. reflexivity.
Qed.

Variable toString_utf8 : Buffer -> string.

Lemma decode_headers_fmap hs :
  decode_headers toString_utf8 (Some hs) = to_text toString_utf8 <$> hs.
Proof.
  unfold decode_headers.
  apply (map_fold_weak_ind
           (fun r (m : gmap string (option Buffer)) => r = to_text toString_utf8 <$> m)).
  - rewrite fmap_empty. reflexivity.
  - intros k v m r _ ->. rewrite fmap_insert. reflexivity.
Qed.

Lemma mask_headers_fmap (hs : gmap string string) :
  mask_headers hs = maskText <$> hs.
Proof.
  unfold mask_headers.
  change (fun kv : string * string => (kv.1, maskText kv.2))
    with (prod_map (@id string) maskText).
  rewrite list_to_map_fmap, list_to_map_to_list. reflexivity.
Qed.

Lemma maskText_empty : maskText "" = "".
Proof. vm_compute. reflexivity. Qed.

(** C9.  For every raw record: the key of the normalised record is the
    empty string when the raw key is absent, and otherwise the UTF-8
    decoding of its bytes, passed through [maskText] when masking is
    enabled and unchanged when it is not; the same holds for the value and
    for each header value; and the headers of the normalised record have
    exactly the names of the raw headers (none when the raw record has no
    headers). *)
Theorem normalize_texts (cfg : StartConfig.t) (p : Payload.t) :
  let out := normalize toString_utf8 cfg p in
  let raw := Payload.message p in
  let shown (s : string) := if StartConfig.mask cfg then maskText s else s in
  let raw_headers := default ∅ (Message.headers raw) in
  match Message.key raw with
  | None => key out = ""
  | Some bytes => key out = shown (toString_utf8 bytes)
  end /\
  match Message.value raw with
  | None => value out = ""
  | Some bytes => value out = shown (toString_utf8 bytes)
  end /\
  headers out =
    (fun v => match v with
              | None => ""
              | Some bytes => shown (toString_utf8 bytes)
              end) <$> raw_headers /\
  dom (headers out) = dom raw_headers.
Proof.
  intros out raw shown raw_headers.
  assert (Hh : headers out =
               (fun v => match v with
                         | None => ""
                         | Some bytes => shown (toString_utf8 bytes)
                         end) <$> raw_headers).
  { unfold out, normalize, raw_headers, shown. cbn [headers]. fold raw.
    destruct (Message.headers raw) as [hs|]; cbn [default].
    - rewrite decode_headers_fmap.
      destruct (StartConfig.mask cfg).
      + rewrite mask_headers_fmap, <- map_fmap_compose.
        apply map_fmap_ext. intros k [b|] _; cbn; [reflexivity|apply maskText_empty].
      + apply map_fmap_ext. intros k [b|] _; reflexivity.
    - cbn [decode_headers]. destruct (StartConfig.mask cfg).
      + rewrite mask_headers_fmap, !fmap_empty. reflexivity.
      + rewrite fmap_empty. reflexivity. }
  repeat split.
  - unfold out, normalize, shown. cbn [key]. fold raw.
    destruct (Message.key raw); cbn [to_text]; [reflexivity|].
    destruct (StartConfig.mask cfg); [apply maskText_empty|reflexivity].
  - unfold out, normalize, shown. cbn [value]. fold raw.
    destruct (Message.value raw); cbn [to_text]; [reflexivity|].
    destruct (StartConfig.mask cfg); [apply maskText_empty|reflexivity].
  - exact Hh.
  - rewrite Hh. apply dom_fmap_L.
Qed.

End Normaliser.

(** ** The consumer lifecycle *)

#[local] Set Warnings "-clear-no-such-hyp".

Section AsyncFacts.

Context {St Call' World Arrival Out : Type}.
Variable effect : Call' -> Outcome -> World -> World.
Variable on_arrival : Arrival -> St -> St * list Out.

(** Awaiting an async function and going on is running the one, then the
    other from where the first ended. *)
Lemma perform_and_then {A B} (env : Env Call' Arrival)
      (t : @Task St Call' A) (f : A -> St -> @Task St Call' B) (w : World) :
  perform effect on_arrival env (and_then t f) w =
  let r1 := perform effect on_arrival env t w in
  match result r1 with
  | inl a =>
      let r2 := perform effect on_arrival env (f a (final r1)) (world r1) in
      {| final := final r2; result := result r2; world := world r2;
         trace := trace r1 ++ trace r2; outbox := outbox r1 ++ outbox r2 |}
  | inr e =>
      {| final := final r1; result := inr e; world := world r1;
         trace := trace r1; outbox := outbox r1 |}
  end.
Proof.
  revert w. induction t as [s a|s e|s c k IH]; intros w.
  - simpl. destruct (perform effect on_arrival env (f a s) w). reflexivity.
  - reflexivity.
  - cbn [and_then perform].
    destruct (deliver on_arrival (arrivals env c) s) as [s' out].
    rewrite IH. cbn zeta.
    destruct (result (perform effect on_arrival env (k (reply env c) s')
                              (effect c (reply env c) w))); cbn.
    + rewrite <- app_assoc. reflexivity.
    + reflexivity.
Qed.

End AsyncFacts.

Section Lifecycle.

Variable toString_utf8 : Buffer -> string.

Local Abbreviation run := (run_handler toString_utf8).
Local Abbreviation on_delivery' := (on_delivery toString_utf8).
Local Abbreviation eachMessage' := (eachMessage toString_utf8).
Local Abbreviation sends' := (sends toString_utf8).

(** The callback reads the module variables and never writes them. *)
Lemma deliver_sends ds g : deliver on_delivery' ds g = (g, sends' ds g).
Proof.
  unfold sends. induction ds as [|d ds IH]; [reflexivity|].
  simpl. rewrite IH. reflexivity.
Qed.

Lemma sends_cons d ds g :
  sends' (d :: ds) g = (on_delivery' d g).2 ++ sends' ds g.
Proof.
  unfold sends. cbn [deliver]. unfold on_delivery at 1.
  rewrite deliver_sends. reflexivity.
Qed.

Lemma eachMessage_stopped cfg g p : running g = false -> eachMessage' cfg g p = None.
Proof. unfold eachMessage. intros ->. reflexivity. Qed.

Lemma sends_stopped ds g : running g = false -> sends' ds g = [].
Proof.
  intros H. unfold sends. induction ds as [|d ds IH]; [reflexivity|].
  simpl. rewrite deliver_sends in *. simpl in *.
  unfold on_delivery. rewrite eachMessage_stopped by assumption.
  simpl. exact IH.
Qed.

(** The run of [stopConsumer], case by case. *)
Lemma stop_run g env w :
  run env (stopConsumer g) w =
  let g0 := set_running false g in
  match consumer g with
  | None => {| final := g0; result := inl tt; world := w; trace := []; outbox := [] |}
  | Some c =>
      match reply env (Stop c) with
      | Rejected e =>
          {| final := set_consumer None g0; result := inl tt; world := w;
             trace := [event g0 w (Stop c) (Rejected e)]; outbox := [] |}
      | Resolved =>
          let o := reply env (Disconnect c) in
          {| final := set_consumer None g0; result := inl tt;
             world := effect (Disconnect c) o w;
             trace := [event g0 w (Stop c) Resolved; event g0 w (Disconnect c) o];
             outbox := [] |}
      end
  end.
Proof.
  destruct g as [wn [c|] r n]; unfold run_handler, stopConsumer; [|reflexivity].
  cbn [consumer set_running perform].
  rewrite deliver_sends. rewrite sends_stopped by reflexivity.
  destruct (reply env (Stop c)) as [|e]; [|reflexivity].
  cbn [consumer set_running perform].
  rewrite deliver_sends. rewrite sends_stopped by reflexivity. reflexivity.
Qed.

Lemma kafka_start_unfold cfg g :
  kafka_start cfg g = and_then (stopConsumer g) (fun _ g' => after_stop cfg g').
Proof. reflexivity. Qed.

(** The run of the rest of [kafka:start], case by case. *)
Lemma after_stop_run cfg g env w :
  let c := new_consumer cfg g in
  let g1 := mkMain (win g) (Some c) (running g) (S (created g)) in
  let g2 := set_running true g1 in
  let w1 := {[consumer_id c]} ∪ w in
  let s1 := sends' (arrivals env (Connect c)) g1 in
  let s2 := sends' (arrivals env (subscribe_call cfg c)) g1 in
  let s3 := sends' (arrivals env (Run c cfg)) g2 in
  run env (after_stop cfg g) w =
  match reply env (Connect c) with
  | Rejected e =>
      {| final := g1; result := inr e; world := w;
         trace := [event g1 w (Connect c) (Rejected e)];
         outbox := s1 ++ [] |}
  | Resolved =>
      match reply env (subscribe_call cfg c) with
      | Rejected e =>
          {| final := g1; result := inr e; world := w1;
             trace := [event g1 w (Connect c) Resolved;
                       event g1 w1 (subscribe_call cfg c) (Rejected e)];
             outbox := s1 ++ s2 ++ [] |}
      | Resolved =>
          let o := reply env (Run c cfg) in
          {| final := g2; result := settled o; world := w1;
             trace := [event g1 w (Connect c) Resolved;
                       event g1 w1 (subscribe_call cfg c) Resolved;
                       event g2 w1 (Run c cfg) o];
             outbox := s1 ++ s2 ++ s3 ++ [] |}
      end
  end.
Proof.
  intros c g1 g2 w1 s1 s2 s3.
  unfold run_handler, after_stop. fold c. fold g1.
  cbn [perform]. rewrite deliver_sends. fold s1.
  destruct (reply env (Connect c)) as [|e]; [|reflexivity].
  cbn [consumer g1 perform effect]. fold (subscribe_call cfg c).
  rewrite deliver_sends. fold s2. fold w1.
  destruct (reply env (subscribe_call cfg c)) as [|e]; [|reflexivity].
  cbn [consumer set_running g1 perform effect].
  fold g2. rewrite deliver_sends. fold s3.
  destruct (reply env (Run c cfg)) as [|e]; reflexivity.
Qed.

Lemma kafka_stop_run g env w :
  let r := run env (stopConsumer g) w in
  run env (kafka_stop g) w =
  {| final := final r; result := inl (mkAck true); world := world r;
     trace := trace r; outbox := outbox r |}.
Proof.
  unfold kafka_stop, run_handler. rewrite perform_and_then.
  fold (run env (stopConsumer g) w). rewrite stop_run.
  destruct (consumer g) as [c|]; [|reflexivity].
  destruct (reply env (Stop c)); reflexivity.
Qed.

Lemma stop_run_stopped g env w :
  Stopped (final (run env (stopConsumer g) w)).
Proof.
  rewrite stop_run. destruct (consumer g) as [c|] eqn:E.
  - destruct (reply env (Stop c)); split; reflexivity.
  - split; [reflexivity|exact E].
Qed.

(** C8.  [stop] always returns success, whatever the state and however
    the broker client answers, and leaves the process stopped; a second
    [stop] right after it returns success again, makes no call on the
    broker client, sends nothing and changes nothing. *)
Theorem stop_is_idempotent (g : Main) (w : connections) (env1 env2 : MainEnv) :
  let r1 := run env1 (kafka_stop g) w in
  let r2 := run env2 (kafka_stop (final r1)) (world r1) in
  result r1 = inl (mkAck true) /\ Stopped (final r1) /\
  result r2 = inl (mkAck true) /\ trace r2 = [] /\ outbox r2 = [] /\
  final r2 = final r1 /\ world r2 = world r1.
Proof.
  intros r1 r2. subst r2 r1. rewrite !kafka_stop_run. cbn [final result world].
  pose proof (stop_run_stopped g env1 w) as [Hr Hc].
  split; [reflexivity|]. split; [split; assumption|]. split; [reflexivity|].
  cbn [trace outbox].
  rewrite (stop_run (final _)). rewrite Hc. cbn.
  repeat split.
  destruct (final (run env1 (stopConsumer g) w)) as [wn c r n].
  simpl in *. subst. reflexivity.
Qed.

Local Abbreviation serve' := (serve toString_utf8).
Local Abbreviation serve_all' := (serve_all toString_utf8).

Lemma stop_run_outbox g env w : outbox (run env (stopConsumer g) w) = [].
Proof.
  rewrite stop_run. destruct (consumer g) as [c|]; [|reflexivity].
  destruct (reply env (Stop c)); reflexivity.
Qed.

Lemma stop_run_events g env w :
  Forall (fun e => running (ev_state e) = false /\
                   Some (callee (ev_call e)) = consumer g)
         (trace (run env (stopConsumer g) w)).
Proof.
  rewrite stop_run. destruct (consumer g) as [c|]; [|constructor].
  destruct (reply env (Stop c)); repeat constructor.
Qed.



Lemma kafka_start_run cfg g env w :
  let r0 := run env (stopConsumer g) w in
  let r1 := run env (after_stop cfg (final r0)) (world r0) in
  run env (kafka_start cfg g) w =
  {| final := final r1; result := result r1; world := world r1;
     trace := trace r0 ++ trace r1; outbox := outbox r0 ++ outbox r1 |}.
Proof.
  rewrite kafka_start_unfold. unfold run_handler. rewrite perform_and_then.
  fold (run env (stopConsumer g) w). cbn zeta.
  replace (result (run env (stopConsumer g) w)) with (@inl unit Error tt);
    [reflexivity|].
  rewrite stop_run. destruct (consumer g) as [c|]; [|reflexivity].
  destruct (reply env (Stop c)); reflexivity.
Qed.


(** *** Failures of a start *)

Lemma stop_run_created g env w :
  created (final (run env (stopConsumer g) w)) = created g /\
  win (final (run env (stopConsumer g) w)) = win g.
Proof.
  rewrite stop_run. destruct (consumer g) as [c|]; [|split; reflexivity].
  destruct (reply env (Stop c)); split; reflexivity.
Qed.

Lemma new_consumer_after_stop cfg g env w :
  new_consumer cfg (final (run env (stopConsumer g) w)) = new_consumer cfg g.
Proof.
  unfold new_consumer. rewrite (proj1 (stop_run_created g env w)). reflexivity.
Qed.


(** *** One subscription at a time *)

Ltac held_solver :=
  unfold settled_at, one_subscription, held; cbn; set_solver.

(** A stop whose calls go through closes the held connection. *)
Lemma stop_run_tidy g env w :
  releases_resolve env -> one_subscription g w ->
  let r := run env (stopConsumer g) w in
  world r = ∅ /\ Forall settled_at (trace r).
Proof.
  intros Hpolite Hone. rewrite stop_run. unfold one_subscription, held in Hone.
  destruct (consumer g) as [c|] eqn:Ec.
  - destruct (Hpolite c) as [-> ->]. cbn. split; [set_solver|].
    repeat constructor; unfold settled_at, one_subscription, held; cbn;
      rewrite Ec; exact Hone.
  - cbn. split; [set_solver|constructor].
Qed.

Lemma after_stop_run_tidy cfg g env :
  let r := run env (after_stop cfg g) ∅ in
  one_subscription (final r) (world r) /\ Forall settled_at (trace r).
Proof.
  rewrite after_stop_run.
  destruct (reply env (Connect _)).
  - destruct (reply env (subscribe_call _ _)); cbn;
      (split; [held_solver|]); repeat constructor; held_solver.
  - cbn. split; [held_solver|]. repeat constructor; held_solver.
Qed.

Lemma serve_tidy sys req :
  polite req -> tidy sys -> tidy (serve' sys req).1.
Proof.
  intros Hpolite [Hone Hlog]. destruct req as [cfg env|env|d]; cbn [polite] in Hpolite.
  - cbn [serve fst]. rewrite kafka_start_run. unfold absorb, tidy.
    cbn [globals net log final world trace].
    destruct (stop_run_tidy _ env _ Hpolite Hone) as [Hw Htr].
    rewrite Hw.
    destruct (after_stop_run_tidy cfg (final (run env (stopConsumer (globals sys))
                                               (net sys))) env) as [Hone' Htr'].
    split; [exact Hone'|].
    rewrite !Forall_app. auto.
  - cbn [serve fst]. rewrite kafka_stop_run. unfold absorb, tidy.
    cbn [globals net log final world trace].
    destruct (stop_run_tidy _ env _ Hpolite Hone) as [Hw Htr].
    split.
    + rewrite Hw. unfold one_subscription. set_solver.
    + rewrite Forall_app. auto.
  - cbn [serve fst on_delivery]. split; assumption.
Qed.

Lemma serve_all_tidy sys reqs :
  Forall polite reqs -> tidy sys -> tidy (serve_all' sys reqs).
Proof.
  intros Hpolite. revert sys.
  induction Hpolite as [|req reqs Hreq _ IH]; intros sys Htidy; [exact Htidy|].
  apply IH, serve_tidy; assumption.
Qed.

(** *** Handlers that run without another in between *)

Local Abbreviation play' := (play toString_utf8).
Local Abbreviation serially' := (serially toString_utf8).

Lemma play_app p hs hs' : play' p (hs ++ hs') = play' (play' p hs) hs'.
Proof. apply foldl_app. Qed.

Lemma play_deliveries g w out lg pk ds :
  play' (mkProcess (mkSystem g w out lg) pk) (Delivered <$> ds) =
  mkProcess (mkSystem g w (out ++ sends' ds g) lg) pk.
Proof.
  revert out. induction ds as [|d ds IH]; intros out.
  - unfold sends. cbn. rewrite app_nil_r. reflexivity.
  - cbn [fmap list_fmap]. unfold play. cbn [foldl].
    fold (play' (happen toString_utf8 (mkProcess (mkSystem g w out lg) pk)
                        (Delivered d))
                (Delivered <$> ds)).
    rewrite sends_cons. unfold happen, on_delivery.
    cbn [system globals net sent log parked snd].
    rewrite IH, <- app_assoc. reflexivity.
Qed.

(** A handler that runs with no other handler in between does what
    [run_handler] says of it. *)
Lemma play_script {R} (env : MainEnv) (t : @Task Main Call R) :
  forall sys,
    play' (advance t (idle sys)) (script env t) =
    idle (absorb sys (run env t (net sys))).
Proof.
  induction t as [g r|g e|g c k IH]; intros sys.
  - unfold absorb. cbn. rewrite !app_nil_r. reflexivity.
  - unfold absorb. cbn. rewrite !app_nil_r. reflexivity.
  - cbn [script]. rewrite play_app.
    change (advance (Await g c k) (idle sys))
      with (mkProcess (mkSystem g (net sys) (sent sys) (log sys))
                      [mkParked R g (net sys) c k]).
    rewrite play_deliveries.
    set (sys' := mkSystem g (effect c (reply env c) (net sys))
                          (sent sys ++ sends' (arrivals env c) g)
                          (log sys ++ [event g (net sys) c (reply env c)])).
    change (play' ?p (Settled 0 (reply env c) :: ?hs))
      with (play' (advance (k (reply env c) g) (idle sys')) hs).
    rewrite IH. unfold absorb, run_handler. cbn [perform].
    rewrite deliver_sends. cbn [final world trace outbox result net sent log].
    subst sys'. cbn [net sent log]. rewrite <- !app_assoc. reflexivity.
Qed.

Lemma play_request sys req :
  play' (idle sys) (serially' sys [req]) = idle (serve' sys req).1.
Proof.
  cbn [serially]. rewrite app_nil_r. destruct req as [cfg env|env|d].
  - unfold play. cbn [foldl happen receive]. apply play_script.
  - unfold play. cbn [foldl happen receive]. apply play_script.
  - unfold play, idle. cbn [foldl happen serve fst system parked].
    destruct (on_delivery toString_utf8 d (globals sys)). reflexivity.
Qed.

(** Serving requests one after the other is what the process does when
    each request is received after the handler of the one before has
    returned. *)
Lemma play_serially reqs :
  forall sys, play' (idle sys) (serially' sys reqs) = idle (serve_all' sys reqs).
Proof.
  induction reqs as [|req reqs IH]; intros sys; [reflexivity|].
  cbn [serially]. rewrite play_app.
  pose proof (play_request sys req) as H. cbn [serially] in H.
  rewrite app_nil_r in H. rewrite H. rewrite IH. reflexivity.
Qed.

Local Abbreviation orderly' := (orderly toString_utf8).

(** *** No overlap: one subscription at every moment *)

Lemma steady_stopConsumer {R} (f : unit -> Main -> @Task Main Call R) g w :
  one_subscription g w ->
  (forall g', Stopped g' -> steady (f tt g') ∅) ->
  steady (and_then (stopConsumer g) f) w.
Proof.
  intros Hone Hf. unfold stopConsumer.
  destruct g as [wn [c|] r n]; cbn in *.
  - split; [exact Hone|]. intros o Ho. rewrite (Ho I). cbn.
    split; [exact Hone|]. intros o' Ho'. rewrite (Ho' I). cbn.
    replace (w ∖ {[consumer_id c]}) with (∅ : connections)
      by (unfold one_subscription, held in Hone; cbn in Hone; set_solver).
    apply Hf. split; reflexivity.
  - replace w with (∅ : connections)
      by (unfold one_subscription, held in Hone; cbn in Hone; set_solver).
    apply Hf. split; reflexivity.
Qed.

Lemma steady_start cfg g w :
  one_subscription g w -> steady (kafka_start cfg g) w.
Proof.
  intros Hone. rewrite kafka_start_unfold. apply steady_stopConsumer; [exact Hone|].
  intros g' [Hr Hc]. unfold after_stop. cbn.
  split; [held_solver|]. intros o _. destruct o; cbn; [|held_solver].
  split; [held_solver|]. intros o _. destruct o; cbn; [|held_solver].
  split; [held_solver|]. intros o _. destruct o; cbn; held_solver.
Qed.

Lemma steady_stop g w : one_subscription g w -> steady (kafka_stop g) w.
Proof.
  intros Hone. apply steady_stopConsumer; [exact Hone|].
  intros g' [Hr Hc]. cbn. unfold one_subscription, held. rewrite Hc. set_solver.
Qed.

Lemma steady_close platform g w :
  one_subscription g w -> steady (window_all_closed platform g) w.
Proof.
  intros Hone. apply steady_stopConsumer; [exact Hone|].
  intros g' [Hr Hc]. cbn. unfold one_subscription, held. rewrite Hc. set_solver.
Qed.

Lemma advance_calm {R} (t : @Task Main Call R) sys :
  Forall settled_at (log sys) -> steady t (net sys) -> calm (advance t (idle sys)).
Proof.
  intros Hlog Hs. destruct t as [g r|g e|g c k]; (split; [exact Hlog|]); cbn.
  - exact Hs.
  - exact Hs.
  - split; [reflexivity|]. split; [reflexivity|]. exact Hs.
Qed.

Lemma happen_calm p h :
  calm p -> admitted p h -> calm (happen toString_utf8 p h).
Proof.
  intros [Hlog Hp] Ha. destruct p as [sys pks]. destruct h as [h|i o|d]; cbn in *.
  - subst pks. destruct h; apply advance_calm;
      auto using steady_start, steady_stop, steady_close.
  - destruct pks as [|pk [|pk' pks]]; [split; assumption| |contradiction].
    destruct i as [|i]; [|split; assumption]. cbn in *.
    destruct Hp as (Hg & Hw & Hone & Hk).
    apply (advance_calm _ (mkSystem _ _ _ _)); cbn.
    + rewrite Forall_app. split; [exact Hlog|]. repeat constructor. exact Hone.
    + rewrite Hg, Hw. apply Hk, Ha.
  - unfold on_delivery. split; [exact Hlog|]. exact Hp.
Qed.

Lemma play_calm hs :
  forall p, calm p -> orderly toString_utf8 p hs -> calm (play' p hs).
Proof.
  induction hs as [|h hs IH]; intros p Hp Ho; [exact Hp|].
  destruct Ho as [Ha Ho]. apply IH; [apply happen_calm; assumption|exact Ho].
Qed.

Lemma calm_one_subscription p :
  calm p ->
  length (parked p) <= 1 /\
  one_subscription (globals (system p)) (net (system p)) /\
  Forall settled_at (log (system p)).
Proof.
  intros [Hlog Hp]. destruct (parked p) as [|pk [|pk' pks]]; [| |contradiction].
  - split; [cbn; lia|]. split; assumption.
  - destruct Hp as (-> & -> & Hone & _). split; [cbn; lia|]. split; assumption.
Qed.
Lemma orderly_app hs : forall p hs',
  orderly' p (hs ++ hs') <-> orderly' p hs /\ orderly' (play' p hs) hs'.
Proof.
  induction hs as [|h hs IH]; intros p hs'; cbn [app orderly].
  - unfold play. cbn. tauto.
  - rewrite IH. unfold play. cbn [foldl]. tauto.
Qed.

Lemma orderly_deliveries p ds : orderly' p (Delivered <$> ds).
Proof.
  revert p. induction ds as [|d ds IH]; intros p; [exact I|].
  cbn [fmap list_fmap orderly]. split; [exact I|apply IH].
Qed.

Lemma orderly_script {R} (env : MainEnv) (t : @Task Main Call R) :
  releases_resolve env ->
  forall sys, orderly' (advance t (idle sys)) (script env t).
Proof.
  intros Henv. induction t as [g r|g e|g c k IH]; intros sys; [exact I|exact I|].
  cbn [script]. apply orderly_app. split; [apply orderly_deliveries|].
  change (advance (Await g c k) (idle sys))
    with (mkProcess (mkSystem g (net sys) (sent sys) (log sys))
                    [mkParked R g (net sys) c k]).
  rewrite play_deliveries. cbn [orderly]. split.
  - cbn. intros Hc. destruct c; try contradiction; apply Henv.
  - apply (IH (reply env c) g (mkSystem _ _ _ _)).
Qed.

Lemma orderly_serially reqs :
  Forall polite reqs ->
  forall sys, orderly' (idle sys) (serially' sys reqs).
Proof.
  induction 1 as [|req reqs Hreq _ IH]; intros sys; [exact I|].
  cbn [serially]. apply orderly_app. split.
  - destruct req as [cfg env|env|d]; cbn [polite] in Hreq.
    + split; [reflexivity|]. apply orderly_script, Hreq.
    + split; [reflexivity|]. apply orderly_script, Hreq.
    + split; exact I.
  - pose proof (play_request sys req) as H. cbn [serially] in H.
    rewrite app_nil_r in H. rewrite H. apply IH.
Qed.
(** C2, amended.  In every run of the process in which no request is
    received while a handler still waits on the broker client, and in which
    the stop and disconnect calls of the broker client go through, the
    process has at most one subscription at any time: one handler waits at
    most, and at every moment and at every call made no connection is open
    except that of the consumer the process holds.  Requests served one
    after the other, with releases that go through, make such a run, which
    ends as [serve_all] says, no handler waiting.  And a [kafka:start]
    handler that runs with no other handler in between, however the broker
    client answers, begins with the whole of [stopConsumer]: every call on
    the previous consumer is made and settled with the running flag off,
    the process is stopped when they are done, and only then is the new
    consumer created and connected; all later calls are on the new
    consumer. *)
Theorem one_subscription_at_a_time (reqs : list Request)
        (Hpolite : Forall polite reqs) :
  let sys := serve_all' system_ready reqs in
  (forall hs,
      orderly' (idle system_ready) hs ->
      let p := play' (idle system_ready) hs in
      length (parked p) <= 1 /\
      one_subscription (globals (system p)) (net (system p)) /\
      Forall (fun e => one_subscription (ev_state e) (ev_world e))
             (log (system p))) /\
  orderly' (idle system_ready) (serially' system_ready reqs) /\
  play' (idle system_ready) (serially' system_ready reqs) = idle sys /\
  one_subscription (globals sys) (net sys) /\
  Forall (fun e => one_subscription (ev_state e) (ev_world e)) (log sys) /\
  (forall cfg sys0 env,
      let g := globals sys0 in
      let r0 := run env (stopConsumer g) (net sys0) in
      let r := run env (kafka_start cfg g) (net sys0) in
      play' (receive (OnStart cfg) (idle sys0)) (script env (kafka_start cfg g))
      = idle (absorb sys0 r) /\
      Stopped (final r0) /\
      Forall (fun e => running (ev_state e) = false /\
                       Some (callee (ev_call e)) = consumer g) (trace r0) /\
      exists rest,
        trace r = trace r0 ++ rest /\
        Forall (fun e => callee (ev_call e) = new_consumer cfg g /\
                         consumer (ev_state e) = Some (new_consumer cfg g)) rest).
Proof.
  intros sys. split.
  { intros hs Hhs p. apply calm_one_subscription, play_calm; [|exact Hhs].
    split; [constructor|]. cbn. unfold one_subscription. set_solver. }
  split; [apply orderly_serially, Hpolite|].
  split; [apply play_serially|].
  destruct (serve_all_tidy system_ready reqs Hpolite) as [Hone Hlog].
  { split; [unfold one_subscription; set_solver|constructor]. }
  split; [exact Hone|]. split; [exact Hlog|].
  intros cfg sys0 env g r0 r. subst r r0.
  split; [apply play_script|].
  split; [apply stop_run_stopped|]. split; [apply stop_run_events|].
  rewrite kafka_start_run. cbn [trace]. eexists. split; [reflexivity|].
  rewrite after_stop_run, !new_consumer_after_stop.
  destruct (reply env (Connect _)).
  - destruct (reply env (subscribe_call _ _)); repeat constructor.
  - repeat constructor.
Qed.

End Lifecycle.


(** C2, counterexample.  When [consumer.stop()] throws during the
    second start, [disconnect] is never called on the first consumer: its
    connection is still open while the second consumer is held and
    connected. *)
Lemma second_start_overlaps_when_stop_throws :
  let sys := serve_all (fun _ => "") system_ready two_starts in
  held (globals sys) = {[1]} /\ 0 ∈ net sys /\ 1 ∈ net sys.
Proof. repeat split; vm_compute; reflexivity. Qed.

(** Overlapping starts.  When the second start request is received while
    the handler of the first still waits for its connection, the second
    handler stops and drops the consumer of the first before that
    connection is open; the first handler then goes on with the consumer of
    the second.  Every call of the broker client goes through, and yet both
    connections are open in the end, the first one for good: the process
    holds the second consumer only, on which both handlers have called
    subscribe and run. *)
Lemma overlapping_starts_leave_a_connection_open :
  let p := play (fun _ => "") (idle system_ready) overlapping_starts in
  let first := new_consumer cfg0 main_ready in
  let second := new_consumer cfg1 (mkMain (Some 1) None false 1) in
  parked p = [] /\
  running (globals (system p)) = true /\
  consumer (globals (system p)) = Some second /\
  consumer_id first ∈ net (system p) /\ consumer_id second ∈ net (system p) /\
  consumer_id first <> consumer_id second /\
  ev_call <$> log (system p) =
    [ Stop first; Disconnect first; Connect first; Connect second;
      subscribe_call cfg0 second; subscribe_call cfg1 second;
      Run second cfg0; Run second cfg1 ] /\
  Forall (fun e => ev_outcome e = Resolved) (log (system p)).
Proof.
  cbv zeta. split; [reflexivity|]. split; [reflexivity|]. split; [reflexivity|].
  split; [vm_compute; reflexivity|]. split; [vm_compute; reflexivity|].
  split; [discriminate|]. split; [reflexivity|].
  repeat constructor.
Qed.


(** Two starts in a row with a broker client whose calls all go through. *)
Lemma one_subscription_at_a_time_witness :
  Forall polite [StartRequest cfg0 (quiet Resolved);
                 StartRequest cfg1 (quiet Resolved)] /\
  one_subscription
    (globals (serve_all (fun _ => "") system_ready
                        [StartRequest cfg0 (quiet Resolved);
                         StartRequest cfg1 (quiet Resolved)]))
    (net (serve_all (fun _ => "") system_ready
                    [StartRequest cfg0 (quiet Resolved);
                     StartRequest cfg1 (quiet Resolved)])).
Proof.
  assert (H : Forall polite [StartRequest cfg0 (quiet Resolved);
                             StartRequest cfg1 (quiet Resolved)]).
  { repeat constructor. }
  split; [exact H|].
  exact (proj1 (proj2 (proj2 (proj2 (one_subscription_at_a_time (fun _ => "") _ H))))).
Defined.
Local Open Scope char_scope.
Local Open Scope nat_scope.

(** * Further properties *)

(** ** What masking leaves behind *)

Lemma longest_at_None P prev s n :
  longest_at P prev s = None -> 1 <= n <= length s ->
  P prev (take n s) (drop n s) = false.
Proof.
  unfold longest_at. intros H Hn.
  apply (List.find_none _ _ H). rewrite <- in_rev, in_seq. lia.
Qed.

Lemma longest_at_holds P prev s n :
  longest_at P prev s = Some n ->
  1 <= n <= length s /\ P prev (take n s) (drop n s) = true.
Proof.
  intros H. split; [exact (longest_at_Some _ _ _ _ H)|].
  unfold longest_at in H. apply find_some in H as [_ H]. exact H.
Qed.

(** A text free of occurrences is left as it is. *)
Lemma redact_clean P token fuel prev s :
  clean P prev s = true -> redact fuel P token prev s = s.
Proof.
  revert prev s. induction fuel as [|fuel IH]; intros prev s H; [destruct s; reflexivity|].
  destruct s as [|c s]; [reflexivity|]. cbn [clean] in H. cbn [redact].
  destruct (longest_at P prev (c :: s)); [discriminate|].
  rewrite IH by exact H. reflexivity.
Qed.

Lemma clean_drop P prev s k :
  clean P prev s = true -> clean P (prev_at prev s k) (drop k s) = true.
Proof.
  revert prev s. induction k as [|k IH]; intros prev s H; [exact H|].
  destruct s as [|c s]; [reflexivity|]. cbn [clean] in H.
  destruct (longest_at P prev (c :: s)); [discriminate|].
  specialize (IH (Some c) s H). destruct k; exact IH.
Qed.

Lemma clean_at P prev s i n :
  clean P prev s = true -> 1 <= n -> i + n <= length s ->
  P (prev_at prev s i) (take n (drop i s)) (drop n (drop i s)) = false.
Proof.
  intros H Hn Hlen. apply clean_drop with (k := i) in H.
  destruct (drop i s) as [|c r] eqn:E.
  - apply (f_equal length) in E. rewrite length_drop in E. simpl in E. lia.
  - cbn [clean] in H.
    destruct (longest_at P (prev_at prev s i) (c :: r)) eqn:El; [discriminate|].
    apply (longest_at_None _ _ _ n El).
    apply (f_equal length) in E. rewrite length_drop in E. lia.
Qed.

(** The output of a round up to its first changed character is the input. *)
Lemma redact_prefix P token (A : ascii -> bool) t0 token' :
  token = t0 :: token' -> A t0 = false ->
  forall m fuel prev s rest,
    length s <= fuel ->
    redact fuel P token prev s = m ++ rest -> forallb A m = true ->
    exists rest_s,
      s = m ++ rest_s /\
      rest = redact (fuel - length m) P token (prev_at prev s (length m)) rest_s.
Proof.
  intros -> Ht0. induction m as [|c m IH]; intros fuel prev s rest Hlen Hout Hm.
  - exists s. rewrite Nat.sub_0_r. split; [reflexivity|]. symmetry. exact Hout.
  - cbn [forallb] in Hm. apply andb_true_iff in Hm as [Hc Hm].
    destruct fuel as [|fuel].
    { destruct s; [discriminate|simpl in Hlen; lia]. }
    destruct s as [|c0 s]; [discriminate|].
    cbn [redact] in Hout. simpl in Hlen.
    destruct (longest_at P prev (c0 :: s)) as [n|].
    + simpl in Hout. injection Hout as <- _. congruence.
    + injection Hout as <- Hout.
      destruct (IH fuel (Some c0) s rest ltac:(lia) Hout Hm) as (rest_s & -> & Hrest).
      exists rest_s. split; [reflexivity|].
      cbn [length]. rewrite Nat.sub_succ.
      replace (prev_at prev (c0 :: m ++ rest_s) (S (length m)))
        with (prev_at (Some c0) (m ++ rest_s) (length m)); [exact Hrest|].
      destruct (length m); reflexivity.
Qed.

(** *** Email occurrences *)

Lemma domain_char_local c : domain_char c = true -> local_char c = true.
Proof.
  unfold domain_char, local_char, one_of. simpl.
  destruct (letter c), (digit c), (Ascii.eqb c "."), (Ascii.eqb c "-");
    simpl; rewrite ?orb_true_r; congruence.
Qed.

Lemma letter_local c : letter c = true -> local_char c = true.
Proof. unfold local_char. intros ->. reflexivity. Qed.

Lemma forallb_impl {A} (p q : A -> bool) l :
  (forall x, p x = true -> q x = true) -> forallb p l = true -> forallb q l = true.
Proof.
  intros Hpq. induction l as [|x l IH]; [reflexivity|]. simpl.
  intros H. apply andb_true_iff in H as [Hx Hl].
  rewrite (Hpq _ Hx), (IH Hl). reflexivity.
Qed.

(** An email is made of email characters and holds an [@]. *)
Lemma is_email_chars m :
  is_email m = true -> forallb email_char m = true /\ no_at m = false.
Proof.
  intros H. apply is_email_spec in H as (l & d & t & -> & Hl & Hl' & Hd & Hd' & Ht & Ht').
  assert (El : forallb email_char l = true).
  { apply (forallb_impl local_char); [|exact Hl'].
    intros x Hx. unfold email_char. rewrite Hx. reflexivity. }
  assert (Ed : forallb email_char d = true).
  { apply (forallb_impl domain_char); [|exact Hd'].
    intros x Hx. unfold email_char. rewrite (domain_char_local _ Hx). reflexivity. }
  assert (Et : forallb email_char t = true).
  { apply (forallb_impl letter); [|exact Ht'].
    intros x Hx. unfold email_char. rewrite (letter_local _ Hx). reflexivity. }
  split.
  - rewrite forallb_app, El. cbn [forallb andb].
    rewrite forallb_app, Ed. cbn [forallb]. rewrite Et. reflexivity.
  - unfold no_at. rewrite forallb_app. cbn [forallb].
    rewrite andb_false_r. reflexivity.
Qed.

Lemma clean_email_prev q q' s :
  clean email_occurrence q s = clean email_occurrence q' s.
Proof. destruct s; reflexivity. Qed.

Lemma longest_email_prev q q' s :
  longest_at email_occurrence q s = longest_at email_occurrence q' s.
Proof. reflexivity. Qed.

Lemma no_at_take t n : no_at t = true -> no_at (take n t) = true.
Proof.
  unfold no_at. revert n. induction t as [|c t IH]; intros [|n]; simpl; try reflexivity.
  intros H. apply andb_true_iff in H as [-> H]. apply IH, H.
Qed.

Lemma forallb_last {A} (p : A -> bool) l c :
  forallb p l = true -> last l = Some c -> p c = true.
Proof.
  intros H Hl. rewrite forallb_forall in H. apply H.
  apply list_elem_of_In. rewrite last_lookup in Hl.
  eapply list_elem_of_lookup_2. exact Hl.
Qed.

(** No email starts inside a replacement token. *)
Lemma no_email_in_token t x q :
  sealed t = true -> no_at t = true ->
  longest_at email_occurrence q (t ++ x) = None.
Proof.
  intros Hsealed Hno.
  destruct (longest_at email_occurrence q (t ++ x)) as [n|] eqn:E; [exfalso|reflexivity].
  apply longest_at_holds in E as [Hn E]. unfold email_occurrence in E.
  apply is_email_chars in E as [Hall Hat].
  destruct (Nat.le_gt_cases n (length t)) as [Hle|Hgt].
  - rewrite take_app_le in Hat by exact Hle.
    rewrite no_at_take in Hat by exact Hno. discriminate.
  - rewrite take_app_ge in Hall by lia. rewrite forallb_app in Hall.
    apply andb_true_iff in Hall as [Hall _].
    unfold sealed in Hsealed. destruct (last t) as [c|] eqn:El; [|discriminate].
    rewrite (forallb_last _ _ _ Hall El) in Hsealed. discriminate.
Qed.

Lemma clean_email_token t x q :
  sealed t = true -> no_at t = true ->
  (forall q', clean email_occurrence q' x = true) ->
  clean email_occurrence q (t ++ x) = true.
Proof.
  intros Hsealed Hno Hx. revert q. induction t as [|c t IH]; intros q.
  - discriminate Hsealed.
  - cbn [app clean]. change (c :: t ++ x) with ((c :: t) ++ x).
    rewrite no_email_in_token by assumption.
    destruct t as [|c' t].
    + apply Hx.
    + apply IH.
      * unfold sealed in *. rewrite last_cons in Hsealed.
        destruct (last (c' :: t)) eqn:El; [exact Hsealed|].
        apply last_None in El. discriminate El.
      * unfold no_at in *. simpl in Hno. apply andb_true_iff in Hno as [_ Hno].
        exact Hno.
Qed.

Lemma prev_at_drop prev s n i :
  1 <= n <= length s ->
  prev_at (last (take n s)) (drop n s) i = prev_at prev s (n + i).
Proof.
  intros Hn. destruct i as [|i].
  - rewrite Nat.add_0_r. cbn [prev_at]. destruct n as [|n]; [lia|]. cbn [prev_at].
    rewrite last_lookup, length_take, Nat.min_l by lia. simpl pred.
    apply lookup_take_lt. lia.
  - cbn [prev_at]. rewrite lookup_drop.
    replace (n + S i) with (S (n + i)) by lia. reflexivity.
Qed.

(** After a round of replacement with a sealed token free of [@] that
    starts outside the email characters, no email starts anywhere,
    provided none started in the input wherever the round changed
    nothing. *)
Lemma round_email_clean P token t0 token' :
  token = t0 :: token' -> email_char t0 = false ->
  sealed token = true -> no_at token = true ->
  forall fuel prev s q,
    length s <= fuel ->
    (forall i, i < length s ->
               longest_at P (prev_at prev s i) (drop i s) = None ->
               longest_at email_occurrence None (drop i s) = None) ->
    clean email_occurrence q (redact fuel P token prev s) = true.
Proof.
  intros Htok Ht0 Hsealed Hno.
  induction fuel as [|fuel IH]; intros prev s q Hlen H.
  { destruct s; [reflexivity|simpl in Hlen; lia]. }
  destruct s as [|c s]; [reflexivity|]. cbn [redact]. simpl in Hlen.
  destruct (longest_at P prev (c :: s)) as [n|] eqn:E.
  - apply longest_at_Some in E as Hn.
    apply clean_email_token; [assumption..|]. intros q'.
    apply IH; [rewrite length_drop; simpl in *; lia|].
    intros i Hi. rewrite (prev_at_drop prev (c :: s) n i) by exact Hn.
    rewrite !drop_drop.
    apply H. rewrite length_drop in Hi. lia.
  - cbn [clean].
    destruct (longest_at email_occurrence q (c :: redact fuel P token (Some c) s))
      as [n|] eqn:En.
    + exfalso. apply longest_at_holds in En as [Hn En]. unfold email_occurrence in En.
      pose proof (is_email_chars _ En) as [Hall _].
      destruct (redact_prefix P token email_char t0 token' Htok Ht0
                  (take n (c :: redact fuel P token (Some c) s)) (S fuel) prev (c :: s)
                  (drop n (c :: redact fuel P token (Some c) s)))
        as (rest_s & Es & _).
      * simpl. lia.
      * cbn [redact]. rewrite E, take_drop. reflexivity.
      * exact Hall.
      * specialize (H 0 ltac:(simpl; lia) E). cbn [drop] in H.
        assert (Hlen_m : length (take n (c :: redact fuel P token (Some c) s)) = n).
        { rewrite length_take. lia. }
        apply (longest_at_None _ _ _ n) in H.
        -- unfold email_occurrence in H. rewrite Es in H at 1.
           rewrite take_app_length' in H by (symmetry; exact Hlen_m). congruence.
        -- rewrite Es, length_app. lia.
    + apply IH; [lia|]. intros i Hi. apply (H (S i)). simpl. lia.
Qed.

(** *** Long numbers *)

Lemma long_number_parts prev m next :
  long_number prev m next = true ->
  7 <= length m /\ forallb digit m = true /\
  boundary prev (head m) = true /\ boundary (last m) (head next) = true.
Proof.
  unfold long_number. rewrite !andb_true_iff. intros [[[H7 Hd] Hb] He].
  apply Nat.leb_le in H7. auto.
Qed.

(** No long number starts at a character that is not a digit. *)
Lemma no_number_at_non_digit q c s :
  digit c = false -> longest_at long_number q (c :: s) = None.
Proof.
  intros Hc.
  destruct (longest_at long_number q (c :: s)) as [n|] eqn:E; [exfalso|reflexivity].
  apply longest_at_holds in E as [Hn E].
  apply long_number_parts in E as (_ & Hd & _).
  destruct n as [|n]; [lia|]. simpl in Hd. rewrite Hc in Hd. discriminate.
Qed.

Lemma clean_number_token t q x :
  forallb not_digit t = true ->
  clean long_number (prev_at q t (length t)) x = true ->
  clean long_number q (t ++ x) = true.
Proof.
  revert q. induction t as [|c t IH]; intros q Ht Hx; [exact Hx|].
  cbn [forallb] in Ht. apply andb_true_iff in Ht as [Hc Ht].
  cbn [app clean]. rewrite no_number_at_non_digit
    by (unfold not_digit in Hc; destruct (digit c); [discriminate|reflexivity]).
  apply IH; [exact Ht|].
  replace (prev_at (Some c) t (length t)) with (prev_at q (c :: t) (length (c :: t)));
    [exact Hx|].
  simpl. destruct (length t); reflexivity.
Qed.

Lemma head_digit_word (m : list ascii) :
  forallb digit m = true -> m <> [] -> word_char (head m) = true.
Proof.
  destruct m as [|c m]; [congruence|]. simpl. intros H _.
  apply andb_true_iff in H as [-> _]. rewrite orb_true_r. reflexivity.
Qed.

Lemma last_digit_word (m : list ascii) :
  forallb digit m = true -> m <> [] -> word_char (last m) = true.
Proof.
  intros H Hm. destruct (last m) as [c|] eqn:E.
  - apply digit_word. exact (forallb_last _ _ _ H E).
  - apply last_None in E. congruence.
Qed.

(** A long number is followed by no word character. *)
Lemma after_long_number prev m next :
  long_number prev m next = true -> word_char (head next) = false.
Proof.
  intros H. apply long_number_parts in H as (H7 & Hd & _ & Hb).
  unfold boundary in Hb. rewrite last_digit_word in Hb; [|exact Hd|].
  - destruct (word_char (head next)); [discriminate|reflexivity].
  - intros ->. simpl in H7. lia.
Qed.

Lemma redact_nil fuel P token prev : redact fuel P token prev [] = [].
Proof. destruct fuel; reflexivity. Qed.

(** After a round of number replacement no long number starts anywhere. *)
Lemma round_number_clean fuel prev s q :
  length s <= fuel ->
  word_char q = word_char prev \/ word_char (head s) = false ->
  clean long_number q (redact fuel long_number tokenN prev s) = true.
Proof.
  revert prev s q. induction fuel as [|fuel IH]; intros prev s q Hlen Hctx.
  { destruct s; [reflexivity|simpl in Hlen; lia]. }
  destruct s as [|c s]; [reflexivity|]. cbn [redact]. simpl in Hlen.
  destruct (longest_at long_number prev (c :: s)) as [n|] eqn:E.
  - apply longest_at_holds in E as [Hn E].
    apply clean_number_token; [vm_compute; reflexivity|].
    apply IH; [rewrite length_drop; simpl in *; lia|].
    right. exact (after_long_number _ _ _ E).
  - cbn [clean].
    set (out := c :: redact fuel long_number tokenN (Some c) s).
    destruct (longest_at long_number q out) as [n|] eqn:En.
    + exfalso. apply longest_at_holds in En as [Hn En].
      apply long_number_parts in En as (H7 & Hd & Hb & He).
      assert (Hlen_m : length (take n out) = n) by (rewrite length_take; lia).
      destruct (redact_prefix long_number tokenN digit "[" (units "REDACTED_NUM]")
                  eq_refl eq_refl (take n out) (S fuel) prev (c :: s) (drop n out))
        as (rest_s & Es & Hrest).
      * simpl. lia.
      * cbn [redact]. rewrite E. fold out. rewrite take_drop. reflexivity.
      * exact Hd.
      * rewrite Hlen_m in *.
        assert (Hm : take n out <> []).
        { intros Em. rewrite Em in Hlen_m. simpl in Hlen_m. lia. }
        assert (Hprev : prev_at prev (c :: s) n = last (take n out)).
        { rewrite Es. destruct n as [|n']; [lia|]. cbn [prev_at].
          rewrite lookup_app_l by lia. rewrite last_lookup, Hlen_m. reflexivity. }
        rewrite Hprev in Hrest.
        (* the character after the run is the same in the input *)
        assert (Hnext : word_char (head rest_s) = word_char (head (drop n out))).
        { rewrite Hrest. destruct rest_s as [|c1 r]; [rewrite redact_nil; reflexivity|].
          assert (Hf : S fuel - n = S (fuel - n)).
          { apply (f_equal length) in Es. rewrite length_app in Es. simpl in Es.
            rewrite Hlen_m in Es. lia. }
          rewrite Hf. cbn [redact].
          destruct (longest_at long_number (last (take n out)) (c1 :: r)) as [n'|] eqn:E1;
            [exfalso|reflexivity].
          apply longest_at_holds in E1 as [Hn' E1].
          apply long_number_parts in E1 as (H7' & Hd' & Hb' & _).
          unfold boundary in Hb'.
          rewrite last_digit_word, head_digit_word in Hb'; try assumption.
          - discriminate.
          - intros Em. apply (f_equal length) in Em. rewrite length_take in Em.
            simpl in *. lia. }
        assert (Hocc : long_number prev (take n (c :: s)) (drop n (c :: s)) = true).
        { rewrite Es at 1 2.
          rewrite take_app_length', drop_app_length' by (symmetry; exact Hlen_m).
          unfold long_number. rewrite Hd, Hlen_m, (proj2 (Nat.leb_le _ _) H7).
          unfold boundary in *. rewrite Hnext, He, andb_true_r. cbn [andb].
          destruct Hctx as [Hq|Hc]; [rewrite <- Hq; exact Hb|].
          assert (Hdc : digit c = true).
          { destruct n as [|n']; [lia|]. unfold out in Hd. simpl in Hd.
            apply andb_true_iff in Hd as [Hdc _]. exact Hdc. }
          cbn [head] in Hc. rewrite (digit_word _ Hdc) in Hc. discriminate. }
        rewrite (longest_at_None _ _ _ n E) in Hocc; [discriminate|].
        rewrite Es, length_app. lia.
    + apply IH; [lia|]. left. reflexivity.
Qed.

(** *** The two rounds of [maskText] *)

Lemma clean_longest P prev s i :
  clean P prev s = true -> i < length s ->
  longest_at P (prev_at prev s i) (drop i s) = None.
Proof.
  intros H Hi. apply clean_drop with (k := i) in H.
  destruct (drop i s) as [|c r] eqn:E.
  - apply (f_equal length) in E. rewrite length_drop in E. simpl in E. lia.
  - cbn [clean] in H. destruct (longest_at P (prev_at prev s i) (c :: r));
      [discriminate|reflexivity].
Qed.

Lemma clean_free P prev s :
  (forall q next, P q [] next = false) ->
  clean P prev s = true ->
  forall i n,
    P (prev_at prev s i) (take n (drop i s)) (drop n (drop i s)) = false.
Proof.
  intros Hnil H i n.
  destruct n as [|n]; [apply Hnil|].
  destruct (Nat.le_gt_cases (length s) i) as [Hi|Hi].
  { rewrite (drop_ge s i) by exact Hi. apply Hnil. }
  destruct (Nat.le_gt_cases (i + S n) (length s)) as [Hn|Hn].
  - apply clean_at; [exact H|lia|exact Hn].
  - rewrite (take_ge (drop i s)), (drop_ge (drop i s)) by (rewrite length_drop; lia).
    pose proof (clean_at P prev s i (length s - i) H ltac:(lia) ltac:(lia)) as Hc.
    rewrite (take_ge (drop i s)), (drop_ge (drop i s)) in Hc
      by (rewrite length_drop; lia).
    exact Hc.
Qed.

Lemma maskText_rounds s :
  units (maskText s) = after_numbers (after_emails s).
Proof.
  unfold maskText.
  rewrite (replace_is_redact_all email email_occurrence) by apply exec_email.
  rewrite (replace_is_redact_all longDigits long_number) by apply exec_longDigits.
  unfold redact_all. rewrite !units_text. reflexivity.
Qed.

Lemma after_emails_clean s q :
  clean email_occurrence q (after_emails s) = true.
Proof.
  unfold after_emails.
  apply (round_email_clean email_occurrence tokenE "[" (units "REDACTED_EMAIL]"));
    try reflexivity.
  intros i _ H. exact H.
Qed.

Lemma masked_email_clean s q :
  clean email_occurrence q (units (maskText s)) = true.
Proof.
  rewrite maskText_rounds. unfold after_numbers.
  apply (round_email_clean long_number tokenN "[" (units "REDACTED_NUM]"));
    try reflexivity.
  intros i Hi _.
  rewrite <- (clean_longest email_occurrence None (after_emails s) i
                (after_emails_clean s None) Hi).
  reflexivity.
Qed.

Lemma masked_number_clean s :
  clean long_number None (units (maskText s)) = true.
Proof.
  rewrite maskText_rounds. apply round_number_clean; [reflexivity|].
  left. reflexivity.
Qed.

(** A text with no occurrence of either kind is returned as it is. *)
Lemma maskText_clean s :
  clean email_occurrence None (units s) = true ->
  clean long_number None (units s) = true ->
  maskText s = s.
Proof.
  intros He Hn. rewrite <- (text_units (maskText s)), maskText_rounds.
  unfold after_numbers, after_emails.
  rewrite (redact_clean email_occurrence) by exact He.
  rewrite (redact_clean long_number) by exact Hn.
  apply text_units.
Qed.

Lemma is_email_nil : is_email [] = false.
Proof. reflexivity. Qed.

Lemma exec_at_clean re P prev s i :
  (forall q x, exec_at re q x = longest_at P q x) ->
  clean P prev s = true ->
  exec_at re (prev_at prev s i) (drop i s) = None.
Proof.
  intros E H. rewrite E.
  destruct (Nat.le_gt_cases (length s) i) as [Hi|Hi].
  - rewrite drop_ge by exact Hi. reflexivity.
  - apply clean_longest; assumption.
Qed.

(** X1.  What [maskText] returns holds no match of either pattern: at no
    position does the email pattern or the long-number pattern match, and
    no piece of the result is an email occurrence or a long number of the
    policy. *)
Theorem maskText_leaves_no_match (s : string) :
  (forall i, exec_at email (prev_at None (units (maskText s)) i)
                     (drop i (units (maskText s))) = None) /\
  (forall i, exec_at longDigits (prev_at None (units (maskText s)) i)
                     (drop i (units (maskText s))) = None) /\
  free_of email_occurrence (maskText s) /\
  free_of long_number (maskText s).
Proof.
  split; [|split; [|split]].
  - intros i. apply (exec_at_clean email email_occurrence); [apply exec_email|].
    apply masked_email_clean.
  - intros i. apply (exec_at_clean longDigits long_number); [apply exec_longDigits|].
    apply masked_number_clean.
  - intros i n. apply clean_free; [reflexivity|apply masked_email_clean].
  - intros i n. apply clean_free; [reflexivity|apply masked_number_clean].
Qed.

(** X2.  Masking twice is masking once. *)
Theorem maskText_idempotent (s : string) :
  maskText (maskText s) = maskText s.
Proof.
  apply maskText_clean; [apply masked_email_clean|apply masked_number_clean].
Qed.

(** *** Texts that masking does not touch *)

Lemma no_at_clean s q : no_at s = true -> clean email_occurrence q s = true.
Proof.
  revert q. induction s as [|c s IH]; intros q H; [reflexivity|]. cbn [clean].
  destruct (longest_at email_occurrence q (c :: s)) as [n|] eqn:E.
  - exfalso. apply longest_at_holds in E as [_ E]. unfold email_occurrence in E.
    apply is_email_chars in E as [_ E]. rewrite no_at_take in E by exact H.
    discriminate.
  - apply IH. unfold no_at in *. simpl in H. apply andb_true_iff in H as [_ H].
    exact H.
Qed.

Lemma short_runs_clean s q : short_runs s = true -> clean long_number q s = true.
Proof.
  revert q. induction s as [|c s IH]; intros q H; [reflexivity|].
  cbn [short_runs] in H. apply andb_true_iff in H as [Hrun H]. cbn [clean].
  destruct (longest_at long_number q (c :: s)) as [n|] eqn:E.
  - exfalso. apply longest_at_holds in E as [Hn E].
    apply long_number_parts in E as (H7 & Hd & _).
    rewrite length_take, Nat.min_l in H7 by lia.
    apply span_len_take in Hd; [|lia].
    apply Nat.ltb_lt in Hrun. lia.
  - apply IH, H.
Qed.

(** X3.  A text with no [@] and no run of seven or more digits is
    returned unchanged. *)
Theorem maskText_unchanged_without_at_and_long_runs (s : string)
        (Hat : no_at (units s) = true) (Hruns : short_runs (units s) = true) :
  maskText s = s.
Proof.
  apply maskText_clean; [apply no_at_clean, Hat|apply short_runs_clean, Hruns].
Qed.

Lemma maskText_unchanged_without_at_and_long_runs_witness :
  no_at (units "order 123456 shipped"%string) = true /\
  short_runs (units "order 123456 shipped"%string) = true /\
  maskText "order 123456 shipped"%string = "order 123456 shipped"%string.
Proof.
  split; [reflexivity|]. split; [reflexivity|].
  apply maskText_unchanged_without_at_and_long_runs; reflexivity.
Defined.

Lemma identifier_no_at s : forallb identifier_char s = true -> no_at s = true.
Proof.
  apply forallb_impl. intros c. unfold identifier_char, is_at.
  destruct (Ascii.eqb_spec c "@") as [->|]; [discriminate|reflexivity].
Qed.

(** After a word character, inside a run of word characters, no long
    number starts. *)
Lemma clean_after_word c s :
  identifier_char c = true -> forallb identifier_char s = true ->
  clean long_number (Some c) s = true.
Proof.
  revert c. induction s as [|d s IH]; intros c Hc Hs; [reflexivity|].
  cbn [forallb] in Hs. apply andb_true_iff in Hs as [Hd Hs]. cbn [clean].
  destruct (longest_at long_number (Some c) (d :: s)) as [n|] eqn:E.
  - exfalso. apply longest_at_holds in E as [Hn E].
    apply long_number_parts in E as (H7 & Hdig & Hb & _).
    unfold boundary in Hb. destruct n as [|n]; [lia|]. cbn [take head] in Hb.
    unfold identifier_char in Hc, Hd. rewrite Hc, Hd in Hb. discriminate.
  - apply IH; assumption.
Qed.

Lemma identifier_clean s :
  forallb identifier_char s = true -> forallb digit s = false ->
  clean long_number None s = true.
Proof.
  intros Hs Hnd. destruct s as [|c s]; [reflexivity|].
  cbn [forallb] in Hs. apply andb_true_iff in Hs as [Hc Hs]. cbn [clean].
  destruct (longest_at long_number None (c :: s)) as [n|] eqn:E.
  - exfalso. apply longest_at_holds in E as [Hn E].
    pose proof (after_long_number _ _ _ E) as Hnext.
    apply long_number_parts in E as (_ & Hdig & _).
    destruct (drop n (c :: s)) as [|d r] eqn:Ed.
    + rewrite take_ge in Hdig; [congruence|].
      apply (f_equal length) in Ed. rewrite length_drop in Ed. simpl in *. lia.
    + assert (Hin : forallb identifier_char (drop n (c :: s)) = true).
      { assert (Hall : forallb identifier_char (c :: s) = true)
          by (simpl; rewrite Hc; exact Hs).
        rewrite <- (take_drop n (c :: s)), forallb_app in Hall.
        apply andb_true_iff in Hall as [_ Hall]. exact Hall. }
      rewrite Ed in Hin. simpl in Hin. apply andb_true_iff in Hin as [Hd _].
      unfold identifier_char in Hd. cbn [head] in Hnext. congruence.
  - apply clean_after_word; assumption.
Qed.

(** X4.  A text made of letters, digits and underscores only, not all of
    them digits, is returned unchanged however many digits it holds: a run
    of digits that touches a letter or an underscore is never masked. *)
Theorem maskText_keeps_identifiers (s : string)
        (Hword : forallb identifier_char (units s) = true)
        (Hmixed : forallb digit (units s) = false) :
  maskText s = s.
Proof.
  apply maskText_clean.
  - apply no_at_clean, identifier_no_at, Hword.
  - apply identifier_clean; assumption.
Qed.

Lemma maskText_keeps_identifiers_witness :
  forallb identifier_char (units "user_1234567890"%string) = true /\
  forallb digit (units "user_1234567890"%string) = false /\
  maskText "user_1234567890"%string = "user_1234567890"%string.
Proof.
  split; [reflexivity|]. split; [reflexivity|].
  apply maskText_keeps_identifiers; reflexivity.
Defined.

Local Close Scope char_scope.
Local Open Scope char_scope.
Local Open Scope list_scope.
Local Open Scope nat_scope.

(** ** Masking piece by piece *)

Lemma redact_fuel P token f f' prev s :
  length s <= f -> length s <= f' ->
  redact f P token prev s = redact f' P token prev s.
Proof.
  revert f' prev s. induction f as [|f IH]; intros f' prev s Hf Hf'.
  - destruct s; [|simpl in Hf; lia]. rewrite !redact_nil. reflexivity.
  - destruct s as [|x s]; [rewrite !redact_nil; reflexivity|].
    destruct f' as [|f']; [simpl in Hf'; lia|].
    cbn [redact]. destruct (longest_at P prev (x :: s)) as [n|] eqn:E.
    + apply longest_at_Some in E. f_equal.
      apply IH; rewrite length_drop; simpl in *; lia.
    + f_equal. apply IH; simpl in *; lia.
Qed.

Lemma find_ext_seq (f g : nat -> bool) l :
  (forall n, In n l -> f n = g n) -> List.find f l = List.find g l.
Proof.
  induction l as [|x l IH]; intros H; [reflexivity|]. cbn [List.find].
  rewrite (H x) by (left; reflexivity).
  destruct (g x); [reflexivity|]. apply IH. intros n Hn. apply H. right. exact Hn.
Qed.

Lemma find_all_false (f : nat -> bool) l :
  (forall n, In n l -> f n = false) -> List.find f l = None.
Proof.
  induction l as [|x l IH]; intros H; [reflexivity|]. cbn [List.find].
  rewrite (H x) by (left; reflexivity). apply IH. intros n Hn. apply H. right.
  exact Hn.
Qed.

Lemma find_skip (f : nat -> bool) l l' :
  (forall n, In n l -> f n = false) -> List.find f (l ++ l') = List.find f l'.
Proof.
  induction l as [|x l IH]; intros H; [reflexivity|]. cbn [List.find app].
  rewrite (H x) by (left; reflexivity). apply IH. intros n Hn. apply H. right.
  exact Hn.
Qed.

Section Separator.

Variable P : occurrence.
Variable c : ascii.
Variable token : list ascii.

(** No occurrence holds [c]; an occurrence is judged alike with [c] after
    it and at the end of the text, and alike with [c] before it and at the
    start of the text. *)
Hypothesis Hinside : forall prev m next, In c m -> P prev m next = false.
Hypothesis Hafter : forall prev m r t, P prev m (r ++ c :: t) = P prev m r.
Hypothesis Hbefore : forall m next, P (Some c) m next = P None m next.

Lemma longest_at_separator prev s t :
  longest_at P prev (s ++ c :: t) = longest_at P prev s.
Proof.
  unfold longest_at. rewrite length_app. cbn [length].
  replace (length s + S (length t)) with (length s + (1 + length t)) by lia.
  rewrite seq_app, rev_app_distr. rewrite find_skip.
  - apply find_ext_seq. intros n Hn. rewrite <- in_rev, in_seq in Hn.
    rewrite take_app_le, drop_app_le by lia. apply Hafter.
  - intros n Hn. rewrite <- in_rev, in_seq in Hn. apply Hinside.
    rewrite take_app_ge by lia.
    apply in_or_app. right.
    destruct (n - length s) as [|k] eqn:E; [lia|]. left. reflexivity.
Qed.

Lemma longest_at_at_separator prev t : longest_at P prev (c :: t) = None.
Proof.
  unfold longest_at. apply find_all_false. intros n Hn.
  rewrite <- in_rev, in_seq in Hn. apply Hinside.
  destruct n as [|n]; [lia|]. left. reflexivity.
Qed.

Lemma redact_before fuel t :
  redact fuel P token (Some c) t = redact fuel P token None t.
Proof.
  destruct fuel as [|fuel]; [reflexivity|]. destruct t as [|x t]; [reflexivity|].
  cbn [redact]. unfold longest_at.
  rewrite (find_ext_seq
             (fun n => P (Some c) (take n (x :: t)) (drop n (x :: t)))
             (fun n => P None (take n (x :: t)) (drop n (x :: t))))
    by (intros n _; apply Hbefore).
  reflexivity.
Qed.

Lemma redact_separator fuel' :
  forall fuel prev s t,
    length s <= fuel -> length (s ++ c :: t) <= fuel' ->
    redact fuel' P token prev (s ++ c :: t) =
    redact fuel P token prev s ++ c :: redact (length t) P token None t.
Proof.
  induction fuel' as [|fuel' IH]; intros fuel prev s t Hf Hf'.
  - rewrite length_app in Hf'. simpl in Hf'. lia.
  - destruct s as [|x s].
    + rewrite redact_nil. cbn [app redact].
      rewrite longest_at_at_separator. f_equal.
      rewrite redact_before. apply redact_fuel; [|lia].
      simpl in Hf'. lia.
    + destruct fuel as [|fuel]; [simpl in Hf; lia|].
      change ((x :: s) ++ c :: t) with (x :: (s ++ c :: t)).
      cbn [redact].
      change (x :: (s ++ c :: t)) with ((x :: s) ++ c :: t).
      rewrite longest_at_separator.
      destruct (longest_at P prev (x :: s)) as [n|] eqn:E.
      * apply longest_at_Some in E.
        rewrite take_app_le, drop_app_le by lia.
        rewrite <- app_assoc. f_equal.
        apply IH.
        -- rewrite length_drop. simpl in *. lia.
        -- rewrite length_app, length_drop. rewrite length_app in Hf'.
           simpl in *. lia.
      * cbn [app]. f_equal. apply IH; [simpl in Hf; lia|].
        rewrite length_app in *. simpl in *. lia.
Qed.

End Separator.

Lemma email_char_word c : email_char c = false -> word_char (Some c) = false.
Proof.
  unfold email_char, local_char, word_char, one_of. cbn [existsb].
  intros H. apply orb_false_iff in H as [H _].
  apply orb_false_iff in H as [H1 H2].
  apply orb_false_iff in H1 as [-> ->].
  apply orb_false_iff in H2 as [_ H2].
  apply orb_false_iff in H2 as [-> _]. reflexivity.
Qed.

Lemma email_separator c prev m next :
  email_char c = false -> In c m -> email_occurrence prev m next = false.
Proof.
  intros Hc Hin. unfold email_occurrence.
  destruct (is_email m) eqn:E; [|reflexivity].
  apply is_email_chars in E as [E _].
  rewrite forallb_forall in E. rewrite (E c Hin) in Hc. discriminate.
Qed.

Lemma number_separator c prev m next :
  email_char c = false -> In c m -> long_number prev m next = false.
Proof.
  intros Hc Hin. destruct (long_number prev m next) eqn:E; [|reflexivity].
  apply long_number_parts in E as (_ & Hd & _).
  rewrite forallb_forall in Hd. specialize (Hd c Hin).
  unfold email_char, local_char in Hc. rewrite Hd in Hc.
  rewrite orb_true_r in Hc. discriminate.
Qed.

Lemma number_after c prev m r t :
  email_char c = false ->
  long_number prev m (r ++ c :: t) = long_number prev m r.
Proof.
  intros Hc. unfold long_number. f_equal.
  destruct r as [|x r]; [|reflexivity].
  unfold boundary. cbn [app head]. rewrite (email_char_word c Hc). reflexivity.
Qed.

Lemma number_before c m next :
  email_char c = false -> long_number (Some c) m next = long_number None m next.
Proof.
  intros Hc. unfold long_number, boundary. rewrite (email_char_word c Hc).
  reflexivity.
Qed.

Lemma text_app x c y : text (x ++ c :: y) = (text x +:+ String c (text y))%string.
Proof.
  induction x as [|a x IH]; [reflexivity|].
  change (String a (text (x ++ c :: y)) = String a (text x +:+ String c (text y))%string).
  f_equal. exact IH.
Qed.

Lemma units_sep a c b : units (a +:+ String c b) = units a ++ c :: units b.
Proof.
  induction a as [|x a IH]; [reflexivity|].
  change (x :: units (a +:+ String c b) = x :: (units a ++ c :: units b)).
  f_equal. exact IH.
Qed.

(** X16.  Masking works piece by piece: at a character that is neither
    a letter, a digit, nor one of [. _ % + - @] (a space, a comma, a
    colon, a quote, a brace, ...), the text falls into two parts that are
    masked independently of each other, and the character stays. *)
Theorem maskText_splits_at_separators (a b : string) (c : ascii)
        (Hsep : email_char c = false) :
  maskText (a +:+ String c b) = (maskText a +:+ String c (maskText b))%string.
Proof.
  rewrite <- (text_units (maskText (a +:+ String c b))).
  rewrite <- (text_units (maskText a)), <- (text_units (maskText b)).
  rewrite <- text_app. f_equal.
  rewrite !maskText_rounds.
  assert (E : after_emails (a +:+ String c b) =
              after_emails a ++ c :: after_emails b).
  { unfold after_emails. rewrite units_sep.
    apply redact_separator; try reflexivity.
    intros prev m next. apply email_separator, Hsep. }
  rewrite E. unfold after_numbers.
  apply redact_separator; try reflexivity.
  - intros prev m next. apply number_separator, Hsep.
  - intros prev m r t. apply number_after, Hsep.
  - intros m next. apply number_before, Hsep.
Qed.

Lemma maskText_splits_at_separators_witness :
  email_char " " = false /\
  maskText ("to a@b.co" +:+ String " " "from 12345678")%string =
  (maskText "to a@b.co" +:+ String " " (maskText "from 12345678"))%string.
Proof.
  split; [reflexivity|].
  apply (maskText_splits_at_separators "to a@b.co" "from 12345678" " ").
  reflexivity.
Defined.

Local Close Scope char_scope.
Local Open Scope string_scope.
Local Open Scope list_scope.
Local Open Scope nat_scope.

(** ** Records on their way to the window *)

Lemma maskText_masked s : masked (maskText s).
Proof.
  split; intros i n; (apply clean_free; [reflexivity|]).
  - apply masked_email_clean.
  - apply masked_number_clean.
Qed.

Section Forwarding.

Variable toString_utf8 : Buffer -> string.

Local Abbreviation run := (run_handler toString_utf8).
Local Abbreviation serve_all' := (serve_all toString_utf8).
Local Abbreviation forwarded' := (forwarded toString_utf8).
Local Abbreviation sends' := (sends toString_utf8).

(** X5.  With masking on, nothing in the record built for the window
    holds a match of either pattern: neither its key, nor its value, nor
    any of its header values. *)
Theorem masked_record_holds_no_match (cfg : StartConfig.t) (p : Payload.t)
        (Hmask : StartConfig.mask cfg = true) :
  let out := normalize toString_utf8 cfg p in
  masked (key out) /\ masked (value out) /\
  map_Forall (fun _ v => masked v) (headers out).
Proof.
  intros out. subst out. unfold normalize. cbn [key value headers].
  rewrite Hmask. split; [apply maskText_masked|]. split; [apply maskText_masked|].
  rewrite mask_headers_fmap. intros k v Hk.
  rewrite lookup_fmap in Hk. destruct (_ !! k) as [v0|]; [|discriminate].
  injection Hk as <-. apply maskText_masked.
Qed.

Lemma sends_running ds g w0 :
  running g = true -> win g = Some w0 ->
  sends' ds g = forwarded' <$> ds.
Proof.
  intros Hr Hw. induction ds as [|d ds IH]; [reflexivity|].
  rewrite sends_cons, IH. unfold on_delivery, eachMessage. rewrite Hr, Hw.
  reflexivity.
Qed.

Lemma serve_all_incoming sys ds :
  serve_all' sys (Incoming <$> ds) =
  mkSystem (globals sys) (net sys) (sent sys ++ sends' ds (globals sys)) (log sys).
Proof.
  revert sys. induction ds as [|d ds IH]; intros sys.
  - unfold sends. cbn. rewrite app_nil_r. destruct sys; reflexivity.
  - cbn [fmap list_fmap]. unfold serve_all. cbn [foldl].
    fold (serve_all' (serve toString_utf8 sys (Incoming d)).1 (Incoming <$> ds)).
    rewrite IH, sends_cons. unfold serve, on_delivery.
    cbn [fst snd globals net sent log]. rewrite <- app_assoc. reflexivity.
Qed.

(** X6.  While the process is running with a window attached, every
    record delivered is sent to the window, normalised with the
    configuration of its callback, once and in the order of delivery;
    nothing else changes. *)
Theorem deliveries_are_forwarded_in_order (sys : System) (ds : list Delivery)
        (Hrunning : running (globals sys) = true)
        (Hwin : is_Some (win (globals sys))) :
  let sys' := serve_all' sys (Incoming <$> ds) in
  sent sys' = sent sys ++ (forwarded' <$> ds) /\
  globals sys' = globals sys /\ net sys' = net sys /\ log sys' = log sys.
Proof.
  intros sys'. subst sys'. rewrite serve_all_incoming. cbn.
  destruct Hwin as [w0 Hw]. rewrite (sends_running ds _ w0) by assumption.
  repeat split.
Qed.

(** X7.  A start request sends to the window exactly the records that
    are delivered from the moment it calls [run]: they are forwarded in
    order, normalised with the configuration of their callback, provided a
    window is attached and connect and subscribe went through.  Whatever
    is delivered earlier in the request, while the previous consumer is
    stopped and the new one connects and subscribes, is dropped. *)
Theorem start_forwards_from_run_on (cfg : StartConfig.t) (g : Main)
        (env : MainEnv) (w : connections) :
  let r := run env (kafka_start cfg g) w in
  let c := new_consumer cfg g in
  outbox r =
  match win g, reply env (Connect c), reply env (subscribe_call cfg c) with
  | Some _, Resolved, Resolved => forwarded' <$> arrivals env (Run c cfg)
  | _, _, _ => []
  end.
Proof.
  intros r c. subst r.
  rewrite kafka_start_run. cbv zeta. cbn [outbox].
  rewrite stop_run_outbox, after_stop_run. cbv zeta.
  rewrite new_consumer_after_stop. fold c.
  pose proof (stop_run_stopped toString_utf8 g env w) as [Hr _].
  pose proof (stop_run_created toString_utf8 g env w) as [_ Hw].
  set (g0 := final (run env (stopConsumer g) w)) in *.
  rewrite (sends_stopped toString_utf8 (arrivals env (Connect c))) by exact Hr.
  rewrite (sends_stopped toString_utf8 (arrivals env (subscribe_call cfg c)))
    by exact Hr.
  rewrite Hw.
  destruct (reply env (Connect c)); [|destruct (win g); reflexivity].
  destruct (reply env (subscribe_call cfg c)); [|destruct (win g); reflexivity].
  cbn [outbox app]. rewrite app_nil_r.
  destruct (win g) as [w0|] eqn:Ew.
  - apply (sends_running _ _ w0); reflexivity.
  - clear. induction (arrivals env (Run c cfg)) as [|d ds IH]; [reflexivity|].
    rewrite sends_cons, IH. reflexivity.
Qed.


End Forwarding.

Lemma masked_record_holds_no_match_witness :
  StartConfig.mask cfg0 = true /\
  let out := normalize (fun _ => "to a@b.co") cfg0 payload0 in
  masked (key out) /\ masked (value out) /\
  map_Forall (fun _ v => masked v) (headers out).
Proof.
  split; [reflexivity|].
  apply (masked_record_holds_no_match (fun _ => "to a@b.co") cfg0 payload0). reflexivity.
Defined.

Lemma deliveries_are_forwarded_in_order_witness :
  let sys := mkSystem (set_running true main_ready) ∅ [] [] in
  running (globals sys) = true /\ is_Some (win (globals sys)) /\
  let sys' := serve_all (fun _ => "") sys (Incoming <$> [(cfg0, payload0)]) in
  sent sys' = sent sys ++ (forwarded (fun _ => "") <$> [(cfg0, payload0)]) /\
  globals sys' = globals sys /\ net sys' = net sys /\ log sys' = log sys.
Proof.
  intros sys. split; [reflexivity|]. split; [eexists; reflexivity|].
  apply (deliveries_are_forwarded_in_order (fun _ => "") sys [(cfg0, payload0)]).
  - reflexivity.
  - eexists; reflexivity.
Defined.
Local Open Scope string_scope.
Local Open Scope list_scope.
Local Open Scope nat_scope.

(** ** The topic list *)

Lemma ascii_compare_spec (a b : ascii) :
  match Ascii.compare a b with
  | Eq => a = b
  | Lt => (N_of_ascii a < N_of_ascii b)%N
  | Gt => (N_of_ascii b < N_of_ascii a)%N
  end.
Proof.
  unfold Ascii.compare.
  destruct (N.compare_spec (N_of_ascii a) (N_of_ascii b)) as [H|H|H]; try assumption.
  rewrite <- (ascii_N_embedding a), <- (ascii_N_embedding b), H. reflexivity.
Qed.

Lemma ascii_compare_refl a : Ascii.compare a a = Eq.
Proof. unfold Ascii.compare. apply N.compare_refl. Qed.

Lemma string_leb_trans (a b c : string) :
  String.leb a b = true -> String.leb b c = true -> String.leb a c = true.
Proof.
  unfold String.leb. revert b c.
  induction a as [|x a IH]; intros [|y b] [|z c]; cbn; try congruence.
  pose proof (ascii_compare_spec x y) as Hxy.
  pose proof (ascii_compare_spec y z) as Hyz.
  pose proof (ascii_compare_spec x z) as Hxz.
  destruct (Ascii.compare x y), (Ascii.compare y z), (Ascii.compare x z);
    subst; try congruence; try lia; try apply IH;
    try (rewrite ?ascii_compare_refl in *; congruence).
Qed.

Lemma string_leb_refl (a : string) : String.leb a a = true.
Proof. destruct (String.leb_total a a); assumption. Qed.

Lemma insert_perm x l : Permutation (JsArray.insert x l) (x :: l).
Proof.
  induction l as [|y l IH]; cbn; [reflexivity|].
  destruct (String.leb x y); [reflexivity|].
  rewrite IH. apply perm_swap.
Qed.

Lemma sort_perm l : Permutation (JsArray.sort l) l.
Proof.
  induction l as [|x l IH]; cbn; [reflexivity|].
  rewrite insert_perm, IH. reflexivity.
Qed.

Lemma insert_ascending x l : ascending l -> ascending (JsArray.insert x l).
Proof.
  induction l as [|y l IH]; cbn; [intros _; split; [constructor|exact I]|].
  intros [Hy Hl]. destruct (String.leb x y) eqn:E.
  - split; [|split; assumption].
    constructor; [assumption|].
    eapply Forall_impl; [exact Hy|]. cbn. intros z Hz.
    eapply string_leb_trans; eassumption.
  - cbn. split; [|apply IH, Hl].
    rewrite Forall_forall. intros z Hz.
    rewrite (insert_perm x l) in Hz. apply elem_of_cons in Hz as [->|Hz].
    + destruct (String.leb_total x y); congruence.
    + rewrite Forall_forall in Hy. apply Hy, Hz.
Qed.

Lemma sort_ascending l : ascending (JsArray.sort l).
Proof.
  induction l as [|x l IH]; [exact I|]. apply insert_ascending, IH.
Qed.

Section Topics.

Variable toString_utf8 : Buffer -> string.

Local Abbreviation run_admin' := (run_admin toString_utf8).

Lemma listTopics_run listed brokers g env open :
  let bs := Js.trim <$> Js.split "," brokers in
  let s1 := sends toString_utf8 (arrivals env (AdminConnect bs)) g in
  let s2 := sends toString_utf8 (arrivals env AdminListTopics) g in
  let s3 := sends toString_utf8 (arrivals env AdminDisconnect) g in
  let ev w c := {| ev_state := g; ev_world := w; ev_call := c;
                   ev_outcome := reply env c |} in
  run_admin' env (kafka_listTopics listed brokers g) open =
  match reply env (AdminConnect bs) with
  | Rejected e =>
      {| final := g; result := inr e; world := open;
         trace := [ev open (AdminConnect bs)]; outbox := s1 ++ [] |}
  | Resolved =>
      {| final := g;
         result := match reply env AdminDisconnect, reply env AdminListTopics with
                   | Rejected e', _ => inr e'
                   | Resolved, Rejected e => inr e
                   | Resolved, Resolved => inl (JsArray.sort listed)
                   end;
         world := admin_effect AdminDisconnect (reply env AdminDisconnect) (S open);
         trace := [ev open (AdminConnect bs); ev (S open) AdminListTopics;
                   ev (S open) AdminDisconnect];
         outbox := s1 ++ s2 ++ s3 ++ [] |}
  end.
Proof.
  intros bs s1 s2 s3 ev. subst s1 s2 s3 ev.
  unfold run_admin, kafka_listTopics. fold bs. cbn [perform].
  rewrite deliver_sends.
  destruct (reply env (AdminConnect bs)) eqn:Ec; cbn [perform admin_effect].
  - rewrite !deliver_sends.
    destruct (reply env AdminListTopics) eqn:El;
      destruct (reply env AdminDisconnect) eqn:Ed; cbn; rewrite ?Ec, ?El, ?Ed;
      reflexivity.
  - reflexivity.
Qed.

(** X8.  When the three calls on the admin client go through, the
    handler returns the topics the broker listed, each as often as it was
    listed, in ascending order; the state of the process is untouched and
    the admin connection is closed again. *)
Theorem listTopics_returns_the_topics_sorted
        (listed : list string) (brokers : string) (g : Main)
        (env : Env AdminCall Delivery) (open : nat)
        (Hconnect : reply env (AdminConnect (Js.trim <$> Js.split "," brokers)) = Resolved)
        (Hlist : reply env AdminListTopics = Resolved)
        (Hdisconnect : reply env AdminDisconnect = Resolved) :
  let r := run_admin' env (kafka_listTopics listed brokers g) open in
  exists topics,
    result r = inl topics /\ ascending topics /\ topics ≡ₚ listed /\
    final r = g /\ world r = open.
Proof.
  intros r. subst r. rewrite listTopics_run. cbv zeta.
  rewrite Hconnect, Hlist, Hdisconnect. cbn.
  exists (JsArray.sort listed).
  split; [reflexivity|]. split; [apply sort_ascending|].
  split; [apply sort_perm|]. split; reflexivity.
Qed.

(** X9.  The admin client is disconnected whenever it was connected:
    once [connect] has resolved the handler calls [listTopics] and then
    [disconnect], whatever [listTopics] did; an error of [disconnect]
    takes the place of the result or of the error of [listTopics]; when
    [connect] is rejected no other call is made.  The handler never
    changes the state of the process. *)
Theorem listTopics_always_disconnects
        (listed : list string) (brokers : string) (g : Main)
        (env : Env AdminCall Delivery) (open : nat) :
  let bs := Js.trim <$> Js.split "," brokers in
  let r := run_admin' env (kafka_listTopics listed brokers g) open in
  final r = g /\
  match reply env (AdminConnect bs) with
  | Rejected e =>
      ev_call <$> trace r = [AdminConnect bs] /\ result r = inr e /\ world r = open
  | Resolved =>
      ev_call <$> trace r = [AdminConnect bs; AdminListTopics; AdminDisconnect] /\
      match reply env AdminDisconnect with
      | Rejected e' => result r = inr e' /\ world r = S open
      | Resolved =>
          world r = open /\
          match reply env AdminListTopics with
          | Rejected e => result r = inr e
          | Resolved => result r = inl (JsArray.sort listed)
          end
      end
  end.
Proof.
  intros bs r. subst r. rewrite listTopics_run. cbv zeta. fold bs.
  destruct (reply env (AdminConnect bs)); cbn; [|repeat split].
  destruct (reply env AdminDisconnect), (reply env AdminListTopics); cbn;
    repeat split.
Qed.

End Topics.

Lemma listTopics_returns_the_topics_sorted_witness :
  exists topics,
    result (run_admin (fun _ => "") (quiet Resolved)
                      (kafka_listTopics ["payments"; "orders"; "audit"]
                                        "localhost:29092" main_ready) 0)
    = inl topics /\ ascending topics /\
    topics ≡ₚ ["payments"; "orders"; "audit"] /\
    final (run_admin (fun _ => "") (quiet Resolved)
                     (kafka_listTopics ["payments"; "orders"; "audit"]
                                       "localhost:29092" main_ready) 0)
    = main_ready /\
    world (run_admin (fun _ => "") (quiet Resolved)
                     (kafka_listTopics ["payments"; "orders"; "audit"]
                                       "localhost:29092" main_ready) 0) = 0.
Proof.
  apply (listTopics_returns_the_topics_sorted
           (fun _ => "") ["payments"; "orders"; "audit"] "localhost:29092"
           main_ready (quiet Resolved) 0); reflexivity.
Defined.
Local Open Scope string_scope.
Local Open Scope list_scope.
Local Open Scope nat_scope.

(** ** The broker list *)

Lemma units_append a b : units (a +:+ b) = units a ++ units b.
Proof.
  induction a as [|c a IH]; [reflexivity|].
  change (c :: units (a +:+ b) = c :: units a ++ units b). f_equal. exact IH.
Qed.

Lemma split_units_last (p : list ascii) :
  ","%char ∉ p -> Js.split_units "," p = [p].
Proof.
  induction p as [|c p IH]; intros H; [reflexivity|].
  cbn [Js.split_units]. destruct (Ascii.eqb_spec c ","%char) as [->|_].
  - exfalso. apply H. left.
  - rewrite IH; [reflexivity|]. intros H'. apply H. right. exact H'.
Qed.

Lemma split_units_piece (p rest : list ascii) :
  ","%char ∉ p ->
  Js.split_units "," (p ++ ","%char :: rest) = p :: Js.split_units "," rest.
Proof.
  induction p as [|c p IH]; intros H; [reflexivity|].
  cbn [Js.split_units app]. destruct (Ascii.eqb_spec c ","%char) as [->|_].
  - exfalso. apply H. left.
  - rewrite IH; [reflexivity|]. intros H'. apply H. right. exact H'.
Qed.

Lemma split_concat (ps : list string) :
  ps <> [] -> Forall comma_free ps ->
  Js.split "," (String.concat "," ps) = ps.
Proof.
  unfold Js.split. induction ps as [|p ps IH]; [congruence|]. intros _ H.
  apply Forall_cons in H as [Hp Hps]. destruct ps as [|p' ps].
  - cbn [String.concat]. rewrite split_units_last by exact Hp. cbn.
    rewrite text_units. reflexivity.
  - change (String.concat "," (p :: p' :: ps))
      with (p +:+ "," +:+ String.concat "," (p' :: ps)).
    rewrite !units_append. change (units ",") with [","%char]. cbn [app].
    rewrite split_units_piece by exact Hp. cbn [map].
    rewrite text_units, IH by (congruence || assumption). reflexivity.
Qed.

Lemma trim_start_idem l : Js.trim_start (Js.trim_start l) = Js.trim_start l.
Proof.
  induction l as [|c l IH]; [reflexivity|]. cbn [Js.trim_start].
  destruct (Js.is_space c) eqn:E; [exact IH|]. cbn [Js.trim_start]. rewrite E.
  reflexivity.
Qed.

Lemma trim_end_idem l : Js.trim_end (Js.trim_end l) = Js.trim_end l.
Proof. unfold Js.trim_end. rewrite rev_involutive, trim_start_idem. reflexivity. Qed.

Lemma trim_idem s : Js.trim (Js.trim s) = Js.trim s.
Proof.
  unfold Js.trim. rewrite units_text. f_equal.
  destruct (Js.trim_start (units s)) as [|c m] eqn:E; [reflexivity|].
  pose proof (trim_start_head _ _ _ E) as Hc.
  destruct (trim_end_head c m Hc) as [m' Hm]. rewrite Hm.
  cbn [Js.trim_start]. rewrite Hc, <- Hm. apply trim_end_idem.
Qed.

(** X11.  The broker list is cut at its commas and each entry is
    stripped of the white space around it: a [brokers] field made of
    comma-free entries joined by commas gives the consumer exactly these
    entries, trimmed, in their order, empty ones included. *)
Theorem brokers_are_cut_at_commas (cfg : StartConfig.t) (g : Main)
        (entries : list string)
        (Hsome : entries <> [])
        (Hfree : Forall comma_free entries)
        (Hbrokers : StartConfig.brokers cfg = String.concat "," entries) :
  let bs := consumer_brokers (new_consumer cfg g) in
  bs = Js.trim <$> entries /\
  length bs = length entries /\
  Forall (fun b => Js.trim b = b) bs.
Proof.
  intros bs. subst bs. cbn [new_consumer consumer_brokers].
  rewrite Hbrokers, split_concat by assumption.
  split; [reflexivity|]. split; [apply length_fmap|].
  apply Forall_fmap, Forall_forall. intros b _. apply trim_idem.
Qed.

Lemma brokers_are_cut_at_commas_witness :
  ["localhost:29092"; " broker-2:9092 "; ""] <> [] /\
  Forall comma_free ["localhost:29092"; " broker-2:9092 "; ""] /\
  let bs := consumer_brokers
              (new_consumer (StartConfig.mk "localhost:29092, broker-2:9092 ,"
                                            "orders" "viewer" false true)
                            main_ready) in
  bs = Js.trim <$> ["localhost:29092"; " broker-2:9092 "; ""] /\
  length bs = 3 /\
  Forall (fun b => Js.trim b = b) bs.
Proof.
  assert (H : Forall comma_free ["localhost:29092"; " broker-2:9092 "; ""]).
  { repeat (constructor; [unfold comma_free; apply (bool_decide_unpack _);
                            vm_compute; reflexivity|]).
    constructor. }
  split; [discriminate|]. split; [exact H|].
  apply (brokers_are_cut_at_commas
           (StartConfig.mk "localhost:29092, broker-2:9092 ," "orders" "viewer"
                           false true)
           main_ready ["localhost:29092"; " broker-2:9092 "; ""]);
    [discriminate | exact H | reflexivity].
Defined.
Local Open Scope string_scope.
Local Open Scope list_scope.
Local Open Scope nat_scope.

(** ** More of the renderer *)

Section RendererFacts.
Import Renderer.

Lemma deliver_ticks ts (x : App) :
  deliver (fun (t : Tick) (a : App) => (on_tick t a, @nil Empty_set)) ts x
  = (ticks ts x, []).
Proof.
  revert x. induction ts as [|t ts IH]; intros x; [reflexivity|].
  simpl. rewrite IH. reflexivity.
Qed.

Lemma with_buffer_id a : with_buffer a (messages a) (queueRef a) = a.
Proof. destruct a; reflexivity. Qed.

Lemma on_tick_with_buffer t a ms q :
  on_tick t (with_buffer a ms q) =
  with_buffer a (messages (on_tick t (with_buffer initial ms q)))
              (queueRef (on_tick t (with_buffer initial ms q))).
Proof.
  destruct t as [m|]; [reflexivity|]. cbn [on_tick]. unfold flush.
  cbn [queueRef with_buffer]. destruct (length q =? 0); reflexivity.
Qed.

Lemma ticks_cons t ts a : ticks (t :: ts) a = ticks ts (on_tick t a).
Proof. reflexivity. Qed.

Lemma ticks_with_buffer ts a ms q :
  ticks ts (with_buffer a ms q) =
  with_buffer a (messages (ticks ts (with_buffer initial ms q)))
              (queueRef (ticks ts (with_buffer initial ms q))).
Proof.
  revert ms q. induction ts as [|t ts IH]; intros ms q; [reflexivity|].
  rewrite !ticks_cons.
  pose proof (on_tick_with_buffer t a ms q) as Ha.
  pose proof (on_tick_with_buffer t initial ms q) as Hi.
  set (ms' := messages (on_tick t (with_buffer initial ms q))) in *.
  set (q' := queueRef (on_tick t (with_buffer initial ms q))) in *.
  rewrite Ha, Hi. apply IH.
Qed.

(** Records and the interval touch nothing but the buffer and the queue. *)
Lemma ticks_settings ts a :
  ticks ts a = with_buffer a (messages (ticks ts a)) (queueRef (ticks ts a)).
Proof.
  pose proof (ticks_with_buffer ts a (messages a) (queueRef a)) as H.
  rewrite with_buffer_id in H. rewrite H. reflexivity.
Qed.

Lemma on_tick_bound t a :
  length (messages a) <= MAX_MESSAGES -> length (messages (on_tick t a)) <= MAX_MESSAGES.
Proof.
  intros H. destruct t as [m|]; [exact H|]. cbn [on_tick]. unfold flush.
  destruct (length (queueRef a) =? 0); [exact H|]. cbn [messages].
  rewrite merge_last_n. apply length_last_n.
Qed.

Lemma ticks_bound ts a :
  length (messages a) <= MAX_MESSAGES -> length (messages (ticks ts a)) <= MAX_MESSAGES.
Proof.
  revert a. induction ts as [|t ts IH]; intros a H; [exact H|].
  apply IH, on_tick_bound, H.
Qed.

Lemma ticks_status ts a : status (ticks ts a) = status a.
Proof. rewrite ticks_settings. reflexivity. Qed.

(** X12.  After Clear the component shows records as a freshly mounted
    one does: whatever arrives and whenever the interval fires afterwards,
    the buffer and the queue are those of a component that started empty,
    so nothing received before the click is shown again; the buffer is the
    last 500 of the records drained since the click.  The settings, the
    status and the search text stay, and nothing is selected. *)
Theorem clear_starts_afresh (a : App) (ts : list Tick) :
  let a' := ticks ts (clear a) in
  a' = with_buffer (setSelected None a) (messages (ticks ts initial))
                   (queueRef (ticks ts initial)) /\
  length (messages a') <= 500 /\
  exists drained,
    records ts = drained ++ queueRef a' /\ messages a' = last_n 500 drained.
Proof.
  intros a'. subst a'.
  assert (E : ticks ts (clear a) =
              with_buffer (setSelected None a) (messages (ticks ts initial))
                          (queueRef (ticks ts initial))).
  { change (clear a) with (with_buffer (setSelected None a) [] []).
    rewrite ticks_with_buffer. reflexivity. }
  split; [exact E|]. rewrite E. cbn [messages queueRef with_buffer].
  destruct (ticks_inv [] ts initial initial_inv) as (drained & Hseen & Hmsgs).
  split.
  - rewrite Hmsgs. apply length_last_n.
  - exists drained. split; assumption.
Qed.

Lemma refresh_run list a env :
  let call := InvokeListTopics (brokers a) in
  let a' := ticks (arrivals env call) a in
  run_refresh env (refreshTopics list a) =
  {| final := match reply env call with
              | Resolved =>
                  if String.eqb (topic a) "" && negb (length list =? 0)
                  then setTopic (hd "" list) (setTopics list a')
                  else setTopics list a'
              | Rejected _ => setTopics [] a'
              end;
     result := inl tt; world := tt;
     trace := [ {| ev_state := a; ev_world := tt; ev_call := call;
                   ev_outcome := reply env call |} ];
     outbox := [] |}.
Proof.
  intros call a'. subst a'. unfold run_refresh, refreshTopics. fold call.
  cbn [perform]. rewrite deliver_ticks.
  destruct (reply env call); [|reflexivity].
  destruct (String.eqb (topic a) "" && negb (length list =? 0)); reflexivity.
Qed.

(** X13.  Loading the topics never fails and disturbs nothing else:
    whatever the main process answers, [refreshTopics] returns normally
    after its one invocation.  The list of topics becomes the one
    received, or the empty list when the invocation is rejected.  The
    chosen topic changes only when none was chosen at the click and a
    non-empty list is received: it then becomes the first topic of that
    list; a topic already chosen is never replaced.  Everything else is
    as the records arriving meanwhile left it. *)
Theorem refreshTopics_keeps_the_chosen_topic (list : list string) (a : App)
        (env : Env IpcTopics Tick) :
  let call := InvokeListTopics (brokers a) in
  let r := run_refresh env (refreshTopics list a) in
  let received := match reply env call with
                  | Resolved => list
                  | Rejected _ => []
                  end in
  let chosen := match received with
                | first :: _ => if String.eqb (topic a) "" then first else topic a
                | [] => topic a
                end in
  result r = inl tt /\
  ev_call <$> trace r = [call] /\
  final r = setTopic chosen (setTopics received (ticks (arrivals env call) a)).
Proof.
  intros call r received chosen. subst r. rewrite refresh_run. cbv zeta.
  fold call. set (a' := ticks (arrivals env call) a).
  cbn [result trace final fmap list_fmap ev_call].
  assert (Ea : a' = with_buffer a (messages a') (queueRef a'))
    by apply ticks_settings.
  split; [reflexivity|]. split; [reflexivity|].
  assert (Ew : forall l, setTopics l a' = setTopic (topic a) (setTopics l a'))
    by (intros l; rewrite Ea; reflexivity).
  subst chosen received. destruct (reply env call).
  - destruct list as [|first rest].
    + rewrite andb_false_r. apply Ew.
    + cbn [length Nat.eqb negb hd]. rewrite andb_true_r.
      destruct (String.eqb (topic a) ""); [reflexivity|apply Ew].
  - apply Ew.
Qed.

Lemma filter_by_length q ms : length (filter_by q ms) <= length ms.
Proof.
  unfold filter_by. destruct (String.eqb _ ""); [reflexivity|].
  induction ms as [|m ms IH]; [reflexivity|]. cbn [List.filter].
  destruct (matches _ m); cbn [length]; lia.
Qed.

(** What every step of a session keeps. *)
Lemma ui_bound e a :
  length (messages a) <= MAX_MESSAGES /\ status a <> st_starting ->
  length (messages (ui e a)) <= MAX_MESSAGES /\ status (ui e a) <> st_starting.
Proof.
  intros [Hm Hs]. destruct e; cbn [ui].
  - split; [apply on_tick_bound, Hm|].
    rewrite <- (ticks_status [t] a) in Hs. exact Hs.
  - split; assumption.
  - pose proof (refresh_run list a env) as E. cbv zeta in E. rewrite E.
    cbn [final].
    pose proof (ticks_bound (arrivals env (InvokeListTopics (brokers a))) a Hm) as Hb.
    pose proof (ticks_status (arrivals env (InvokeListTopics (brokers a))) a) as Hst.
    destruct (reply env _); [destruct (_ && _)|]; cbn; rewrite Hst; split; assumption.
  - destruct (topics a !! i); split; assumption.
  - split; assumption.
  - split; assumption.
  - split; assumption.
  - destruct (status a) eqn:Est; try (split; [assumption|congruence]).
    + unfold Renderer.run_handler, start.
      destruct (blank (brokers a) || blank (topic a) || blank (groupId a));
        [cbn; rewrite Est; split; [assumption|discriminate]|].
      cbn [perform final]. rewrite deliver_ticks.
      set (call := InvokeStart _).
      pose proof (ticks_bound (arrivals env call) (setStatus st_starting (reset a)))
        as Hb.
      destruct (reply env call); cbn [perform final messages setStatus status];
        (split; [apply Hb; cbn; lia | discriminate]).
    + unfold Renderer.run_handler, start.
      destruct (blank (brokers a) || blank (topic a) || blank (groupId a));
        [cbn; rewrite Est; split; [assumption|discriminate]|].
      cbn [perform final]. rewrite deliver_ticks.
      set (call := InvokeStart _).
      pose proof (ticks_bound (arrivals env call) (setStatus st_starting (reset a)))
        as Hb.
      destruct (reply env call); cbn [perform final messages setStatus status];
        (split; [apply Hb; cbn; lia | discriminate]).
  - destruct (status a) eqn:Est; try (split; [assumption|congruence]).
    unfold Renderer.run_handler, stop. cbn [perform final]. rewrite deliver_ticks.
    pose proof (ticks_bound (arrivals env InvokeStop) a Hm) as Hb.
    pose proof (ticks_status (arrivals env InvokeStop) a) as Hst.
    destruct (reply env InvokeStop); cbn [perform final messages setStatus status];
      (split; [exact Hb|]); [discriminate|]. rewrite Hst, Est. discriminate.
  - split; assumption.
  - split; [cbn; lia|exact Hs].
  - destruct (rows a !! i); split; assumption.
Qed.

(** X14.  The counters of the search row stay in their bounds.  From the
    freshly mounted component, whatever the user does with the controls,
    whatever the main process answers and whatever arrives: the buffer
    never holds more than 500 records, the filtered view never more than
    the buffer, and the status is never left at "starting" once a handler
    has returned. *)
Theorem session_stays_in_bounds (es : list Ui) :
  let a := session es initial in
  length (filtered a) <= length (messages a) /\
  length (messages a) <= MAX_MESSAGES /\
  status a <> st_starting.
Proof.
  intros a. subst a. split; [apply filter_by_length|].
  assert (H : forall a,
             length (messages a) <= MAX_MESSAGES /\ status a <> st_starting ->
             length (messages (session es a)) <= MAX_MESSAGES /\
             status (session es a) <> st_starting).
  { induction es as [|e es IH]; intros a Ha; [exact Ha|].
    apply IH, ui_bound, Ha. }
  apply H. split; [cbn; lia|discriminate].
Qed.

End RendererFacts.
Local Open Scope string_scope.
Local Open Scope list_scope.
Local Open Scope nat_scope.

(** ** The topic list, from the broker to the component *)

Lemma ascending_head t rest l :
  JsArray.sort l = t :: rest -> Forall (fun u => String.leb t u = true) l.
Proof.
  intros E. pose proof (sort_ascending l) as H. rewrite E in H.
  destruct H as [H _].
  rewrite <- (sort_perm l), E. constructor; [apply string_leb_refl | exact H].
Qed.

(** X15.  Load topics, end to end.  With no topic chosen yet, a broker
    that lists at least one topic and an admin client whose calls go
    through, the component ends up with the topics of the broker in
    ascending order, each as often as listed, and with the least of them
    chosen. *)
Theorem load_topics_chooses_the_least_topic
        (toString_utf8 : Buffer -> string) (listed : list string) (g : Main)
        (broker : Env AdminCall Delivery) (open : nat)
        (meanwhile : list Renderer.Tick) (a : Renderer.App)
        (Hnone : Renderer.topic a = "")
        (Hsome : listed <> [])
        (Hconnect : reply broker (AdminConnect (Js.trim <$> Js.split "," (Renderer.brokers a)))
                    = Resolved)
        (Hlist : reply broker AdminListTopics = Resolved)
        (Hdisconnect : reply broker AdminDisconnect = Resolved) :
  let a' := final (load_topics toString_utf8 listed g broker open meanwhile a) in
  ascending (Renderer.topics a') /\
  Renderer.topics a' ≡ₚ listed /\
  Renderer.topic a' ∈ listed /\
  Forall (fun t => String.leb (Renderer.topic a') t = true) listed.
Proof.
  intros a'. subst a'. unfold load_topics.
  rewrite listTopics_run. cbv zeta. rewrite Hconnect, Hlist, Hdisconnect.
  cbn [result]. rewrite refresh_run. cbv zeta. cbn [final reply].
  rewrite Hnone. cbn [String.eqb andb].
  destruct (JsArray.sort listed) as [|t rest] eqn:E.
  - exfalso. apply Hsome. apply Permutation_nil_r. rewrite <- E.
    symmetry. apply sort_perm.
  - cbn [length Nat.eqb negb hd]. cbn [Renderer.topics Renderer.topic setTopic setTopics].
    split; [rewrite <- E; apply sort_ascending|].
    split; [rewrite <- E; apply sort_perm|].
    split; [|eapply ascending_head; exact E].
    rewrite <- (sort_perm listed), E. left.
Qed.

Lemma load_topics_chooses_the_least_topic_witness :
  let a' := final (load_topics (fun _ => "") ["payments"; "orders"; "audit"]
                               main_ready (quiet Resolved) 0 [] Renderer.initial) in
  ascending (Renderer.topics a') /\
  Renderer.topics a' ≡ₚ ["payments"; "orders"; "audit"] /\
  Renderer.topic a' ∈ ["payments"; "orders"; "audit"] /\
  Forall (fun t => String.leb (Renderer.topic a') t = true)
         ["payments"; "orders"; "audit"].
Proof.
  apply (load_topics_chooses_the_least_topic
           (fun _ => "") ["payments"; "orders"; "audit"] main_ready
           (quiet Resolved) 0 [] Renderer.initial);
    (reflexivity || discriminate).
Defined.
Local Open Scope string_scope.
Local Open Scope list_scope.
Local Open Scope nat_scope.

(** ** The buttons, end to end *)

Section Buttons.

Variable toString_utf8 : Buffer -> string.

Local Abbreviation run := (run_handler toString_utf8).
Local Abbreviation click_start' := (click_start toString_utf8).
Local Abbreviation click_stop' := (click_stop toString_utf8).
Local Abbreviation forwarded' := (forwarded toString_utf8).

Lemma records_paced fires news : records (paced fires news) = news.
Proof.
  assert (H : forall n, records (replicate n Renderer.Interval) = []).
  { induction n as [|n IH]; [reflexivity|exact IH]. }
  revert fires. induction news as [|m news IH]; intros fires; cbn [paced].
  - rewrite app_nil_r. apply H.
  - rewrite records_app, H. cbn. f_equal. apply IH.
Qed.

Lemma start_couple broker fires sys a :
  Renderer.blank (Renderer.brokers a) || Renderer.blank (Renderer.topic a)
  || Renderer.blank (Renderer.groupId a) = false ->
  let r := run broker (kafka_start (start_cfg a) (globals sys)) (net sys) in
  let cleared := Renderer.setStatus Renderer.st_starting (Renderer.reset a) in
  couple toString_utf8 broker fires (Renderer.start a) sys =
  (absorb sys r,
   Renderer.setStatus (match result r with
                       | inl _ => Renderer.st_running
                       | inr _ => Renderer.st_error
                       end)
                      (Renderer.ticks (paced fires (outbox r)) cleared),
   inl tt).
Proof.
  intros Hb r cleared. unfold Renderer.start. rewrite Hb. cbn [couple answer serve].
  fold (start_cfg (Renderer.setStatus Renderer.st_starting (Renderer.reset a))).
  change (start_cfg (Renderer.setStatus Renderer.st_starting (Renderer.reset a)))
    with (start_cfg a).
  fold r. cbn [absorb sent]. rewrite drop_app_length.
  destruct (result r); reflexivity.
Qed.

Lemma stop_couple broker fires sys a :
  let r := run broker (kafka_stop (globals sys)) (net sys) in
  couple toString_utf8 broker fires (Renderer.stop a) sys =
  (absorb sys r,
   Renderer.setStatus Renderer.st_stopped
                      (Renderer.ticks (replicate (hd 0 fires) Renderer.Interval) a),
   inl tt).
Proof.
  intros r. unfold Renderer.stop. cbn [couple answer serve]. fold r.
  subst r. rewrite kafka_stop_run. cbv zeta. cbn [absorb sent result outbox].
  rewrite stop_run_outbox, drop_app_length. cbn [paced]. rewrite app_nil_r.
  reflexivity.
Qed.

(** X17.  The Start button, end to end.  With the three fields filled
    in, a window attached and a broker client whose calls go through, a
    click on the enabled Start button ends with the status "running" and
    nothing selected; the main process is running with a consumer created
    for the brokers and the group of the form; the window has been sent
    exactly the records delivered since [run] was called, normalised and in
    order; and the component holds exactly these: the last 500 of those
    drained in its buffer, the others in its queue. *)
Theorem start_button_end_to_end (broker : MainEnv) (fires : list nat)
        (sys : System) (a : Renderer.App)
        (Hfields : Renderer.blank (Renderer.brokers a)
                   || Renderer.blank (Renderer.topic a)
                   || Renderer.blank (Renderer.groupId a) = false)
        (Henabled : Renderer.status a = Renderer.st_stopped \/
                    Renderer.status a = Renderer.st_error)
        (Hwin : is_Some (win (globals sys)))
        (Hbroker : forall c, reply broker c = Resolved) :
  let sys' := (click_start' broker fires sys a).1.1 in
  let a' := (click_start' broker fires sys a).1.2 in
  let c := new_consumer (start_cfg a) (globals sys) in
  let news := forwarded' <$> arrivals broker (Run c (start_cfg a)) in
  (click_start' broker fires sys a).2 = inl tt /\
  Renderer.status a' = Renderer.st_running /\
  Renderer.selected a' = None /\
  running (globals sys') = true /\
  consumer (globals sys') = Some c /\
  consumer_brokers c = Js.trim <$> Js.split "," (Renderer.brokers a) /\
  consumer_groupId c = Renderer.groupId a /\
  sent sys' = sent sys ++ news /\
  exists drained,
    news = drained ++ Renderer.queueRef a' /\
    Renderer.messages a' = last_n 500 drained.
Proof.
  intros sys' a' c news. subst sys' a'.
  assert (Ec : click_start' broker fires sys a =
               couple toString_utf8 broker fires (Renderer.start a) sys).
  { unfold click_start. destruct Henabled as [-> | ->]; reflexivity. }
  rewrite Ec, start_couple by exact Hfields. cbv zeta. cbn [fst snd].
  set (r := run broker (kafka_start (start_cfg a) (globals sys)) (net sys)).
  assert (Er : result r = inl (mkAck true) /\
               running (final r) = true /\ consumer (final r) = Some c /\
               outbox r = news).
  { subst r. rewrite kafka_start_run. cbv zeta. cbn [result final outbox].
    rewrite stop_run_outbox, after_stop_run. cbv zeta.
    rewrite new_consumer_after_stop. fold c.
    rewrite !Hbroker. cbn [result final outbox settled consumer running set_running].
    pose proof (stop_run_stopped toString_utf8 (globals sys) broker (net sys)) as [Hr _].
    pose proof (stop_run_created toString_utf8 (globals sys) broker (net sys)) as [_ Hw].
    rewrite !(sends_stopped toString_utf8) by exact Hr.
    destruct Hwin as [w0 Hw0]. rewrite Hw0 in Hw.
    rewrite (sends_running toString_utf8 _ _ w0) by (reflexivity || exact Hw).
    cbn [app]. rewrite app_nil_r. repeat split. }
  destruct Er as (Eres & Erun & Econs & Eout).
  rewrite Eres, Eout. cbn [absorb globals sent].
  split; [reflexivity|]. split; [reflexivity|].
  split; [rewrite ticks_settings; reflexivity|].
  split; [exact Erun|]. split; [exact Econs|].
  split; [reflexivity|]. split; [reflexivity|].
  split; [rewrite Eout; reflexivity|].
  pose proof (ticks_inv [] (paced fires news)
                        (Renderer.setStatus Renderer.st_starting (Renderer.reset a)))
    as H.
  destruct H as (drained & Hseen & Hmsgs).
  { exists []. split; reflexivity. }
  rewrite records_paced in Hseen. exists drained. split; assumption.
Qed.

(** X18.  The Stop button, end to end.  A click on the enabled Stop
    button never fails, however the broker client answers: the status
    becomes "stopped", the main process is stopped, and nothing is sent to
    the window; the records shown are those the component already had. *)
Theorem stop_button_end_to_end (broker : MainEnv) (fires : list nat)
        (sys : System) (a : Renderer.App)
        (Hrunning : Renderer.status a = Renderer.st_running) :
  let sys' := (click_stop' broker fires sys a).1.1 in
  let a' := (click_stop' broker fires sys a).1.2 in
  (click_stop' broker fires sys a).2 = inl tt /\
  Renderer.status a' = Renderer.st_stopped /\
  Stopped (globals sys') /\
  sent sys' = sent sys /\
  a' = Renderer.setStatus Renderer.st_stopped
         (Renderer.ticks (replicate (hd 0 fires) Renderer.Interval) a).
Proof.
  intros sys' a'. subst sys' a'. unfold click_stop. rewrite Hrunning.
  rewrite stop_couple. cbv zeta. cbn [fst snd absorb globals sent].
  rewrite kafka_stop_run. cbv zeta. cbn [final outbox].
  rewrite stop_run_outbox, app_nil_r.
  split; [reflexivity|]. split; [reflexivity|].
  split; [apply stop_run_stopped|]. split; reflexivity.
Qed.

(** X19.  When the start request fails, the status becomes "error" and
    the Stop button stays disabled: a click on it does nothing, while the
    main process still holds the consumer it created for the request. *)
Theorem failed_start_leaves_stop_disabled (broker : MainEnv) (fires : list nat)
        (sys : System) (a : Renderer.App) (e : Error)
        (Hfields : Renderer.blank (Renderer.brokers a)
                   || Renderer.blank (Renderer.topic a)
                   || Renderer.blank (Renderer.groupId a) = false)
        (Henabled : Renderer.status a = Renderer.st_stopped \/
                    Renderer.status a = Renderer.st_error)
        (Hfails : result (run broker (kafka_start (start_cfg a) (globals sys))
                              (net sys)) = inr e) :
  let sys' := (click_start' broker fires sys a).1.1 in
  let a' := (click_start' broker fires sys a).1.2 in
  (click_start' broker fires sys a).2 = inl tt /\
  Renderer.status a' = Renderer.st_error /\
  consumer (globals sys') = Some (new_consumer (start_cfg a) (globals sys)) /\
  forall broker' fires', click_stop' broker' fires' sys' a' = (sys', a', inl tt).
Proof.
  intros sys' a'. subst sys' a'.
  assert (Ec : click_start' broker fires sys a =
               couple toString_utf8 broker fires (Renderer.start a) sys).
  { unfold click_start. destruct Henabled as [-> | ->]; reflexivity. }
  rewrite Ec, start_couple by exact Hfields. cbv zeta. cbn [fst snd].
  rewrite Hfails. cbn [absorb globals].
  split; [reflexivity|]. split; [reflexivity|]. split; [|reflexivity].
  rewrite kafka_start_run. cbv zeta. cbn [final].
  rewrite after_stop_run. cbv zeta. rewrite new_consumer_after_stop.
  destruct (reply broker (Connect _)); [|reflexivity].
  destruct (reply broker (subscribe_call _ _)); reflexivity.
Qed.

End Buttons.

Lemma start_button_end_to_end_witness :
  let a := with_topic "orders" [msg0] in
  let sys := system_ready in
  let sys' := (click_start (fun _ => "") delivers_on_run [0; 1] sys a).1.1 in
  let a' := (click_start (fun _ => "") delivers_on_run [0; 1] sys a).1.2 in
  let c := new_consumer (start_cfg a) (globals sys) in
  let news := forwarded (fun _ => "")
                <$> arrivals delivers_on_run (Run c (start_cfg a)) in
  (click_start (fun _ => "") delivers_on_run [0; 1] sys a).2 = inl tt /\
  Renderer.status a' = Renderer.st_running /\
  Renderer.selected a' = None /\
  running (globals sys') = true /\
  consumer (globals sys') = Some c /\
  consumer_brokers c = Js.trim <$> Js.split "," (Renderer.brokers a) /\
  consumer_groupId c = Renderer.groupId a /\
  sent sys' = sent sys ++ news /\
  exists drained,
    news = drained ++ Renderer.queueRef a' /\
    Renderer.messages a' = last_n 500 drained.
Proof.
  apply (start_button_end_to_end (fun _ => "") delivers_on_run [0; 1]
                                 system_ready (with_topic "orders" [msg0])).
  - reflexivity.
  - left. reflexivity.
  - eexists. reflexivity.
  - intros c. reflexivity.
Defined.

Lemma stop_button_end_to_end_witness :
  let a := Renderer.setStatus Renderer.st_running (with_topic "orders" [msg0]) in
  let sys' := (click_stop (fun _ => "") stop_fails [0] system_ready a).1.1 in
  let a' := (click_stop (fun _ => "") stop_fails [0] system_ready a).1.2 in
  (click_stop (fun _ => "") stop_fails [0] system_ready a).2 = inl tt /\
  Renderer.status a' = Renderer.st_stopped /\
  Stopped (globals sys') /\
  sent sys' = sent system_ready /\
  a' = Renderer.setStatus Renderer.st_stopped
         (Renderer.ticks (replicate (hd 0 [0]) Renderer.Interval) a).
Proof.
  apply (stop_button_end_to_end
           (fun _ => "") stop_fails [0] system_ready
           (Renderer.setStatus Renderer.st_running (with_topic "orders" [msg0]))).
  reflexivity.
Defined.

Lemma failed_start_leaves_stop_disabled_witness :
  let a := with_topic "orders" [msg0] in
  let sys' := (click_start (fun _ => "") run_fails [] system_ready a).1.1 in
  let a' := (click_start (fun _ => "") run_fails [] system_ready a).1.2 in
  (click_start (fun _ => "") run_fails [] system_ready a).2 = inl tt /\
  Renderer.status a' = Renderer.st_error /\
  consumer (globals sys') = Some (new_consumer (start_cfg a) main_ready) /\
  forall broker' fires',
    click_stop (fun _ => "") broker' fires' sys' a' = (sys', a', inl tt).
Proof.
  apply (failed_start_leaves_stop_disabled
           (fun _ => "") run_fails [] system_ready (with_topic "orders" [msg0])
           (KafkaJSError "run failed")).
  - reflexivity.
  - left. reflexivity.
  - reflexivity.
Defined.
Local Open Scope string_scope.
Local Open Scope list_scope.
Local Open Scope nat_scope.

(** ** From the broker to the screen *)

Section Screen.

Variable toString_utf8 : Buffer -> string.

(** X20.  Between the broker and the screen nothing is lost, repeated
    or reordered, except by the cap of the buffer.  While the process is
    running with a window attached, whatever is delivered and whenever
    the interval fires: the records the component held, followed by the
    delivered records normalised, in order, are exactly what it then
    holds, the last 500 of those drained in the buffer and the others in
    the queue. *)
Theorem delivered_records_reach_the_screen (fires : list nat)
        (ds : list Delivery) (sys : System) (a : Renderer.App)
        (Hrunning : running (globals sys) = true)
        (Hwin : is_Some (win (globals sys)))
        (Hcap : length (Renderer.messages a) <= 500) :
  let a' := (incoming toString_utf8 fires ds sys a).2 in
  exists drained,
    Renderer.messages a ++ Renderer.queueRef a ++ (forwarded toString_utf8 <$> ds)
    = drained ++ Renderer.queueRef a' /\
    Renderer.messages a' = last_n 500 drained.
Proof.
  intros a'. subst a'. unfold incoming. cbn [snd].
  rewrite serve_all_incoming. cbn [sent]. rewrite drop_app_length.
  destruct Hwin as [w0 Hw].
  rewrite (sends_running toString_utf8 ds _ w0) by assumption.
  pose proof (ticks_inv (Renderer.messages a ++ Renderer.queueRef a)
                        (paced fires (forwarded toString_utf8 <$> ds)) a) as H.
  destruct H as (drained & Hseen & Hmsgs).
  { exists (Renderer.messages a). split; [reflexivity|].
    unfold last_n.
    replace (length (Renderer.messages a) - Renderer.MAX_MESSAGES) with 0
      by (unfold Renderer.MAX_MESSAGES; lia).
    reflexivity. }
  rewrite records_paced, <- app_assoc in Hseen.
  exists drained. split; assumption.
Qed.

End Screen.

Lemma delivered_records_reach_the_screen_witness :
  let sys := mkSystem (set_running true main_ready) ∅ [] [] in
  let a := with_topic "orders" [msg0] in
  let a' := (incoming (fun _ => "") [0; 1] [(cfg0, payload0)] sys a).2 in
  exists drained,
    Renderer.messages a ++ Renderer.queueRef a
    ++ (forwarded (fun _ => "") <$> [(cfg0, payload0)])
    = drained ++ Renderer.queueRef a' /\
    Renderer.messages a' = last_n 500 drained.
Proof.
  apply (delivered_records_reach_the_screen
           (fun _ => "") [0; 1] [(cfg0, payload0)]
           (mkSystem (set_running true main_ready) ∅ [] [])
           (with_topic "orders" [msg0])).
  - reflexivity.
  - eexists. reflexivity.
  - cbn. lia.
Defined.

(** ** The search, whatever the case *)

Section Case.
Import Renderer.

Lemma lower_idem c : Js.lower (Js.lower c) = Js.lower c.
Proof.
  destruct c as [[] [] [] [] [] [] [] []]; vm_compute; reflexivity.
Qed.

Lemma lower_space c : Js.is_space (Js.lower c) = Js.is_space c.
Proof.
  destruct c as [[] [] [] [] [] [] [] []]; vm_compute; reflexivity.
Qed.

Lemma trim_start_lower l :
  Js.trim_start (map Js.lower l) = map Js.lower (Js.trim_start l).
Proof.
  induction l as [|c l IH]; [reflexivity|]. cbn [map Js.trim_start].
  rewrite lower_space. destruct (Js.is_space c); [exact IH|reflexivity].
Qed.

Lemma trim_end_lower l :
  Js.trim_end (map Js.lower l) = map Js.lower (Js.trim_end l).
Proof.
  unfold Js.trim_end. rewrite <- map_rev, trim_start_lower, map_rev. reflexivity.
Qed.

Lemma trim_lower s : Js.trim (Js.toLowerCase s) = Js.toLowerCase (Js.trim s).
Proof.
  unfold Js.trim, Js.toLowerCase. rewrite !units_text.
  rewrite trim_start_lower, trim_end_lower. reflexivity.
Qed.

Lemma toLowerCase_idem s : Js.toLowerCase (Js.toLowerCase s) = Js.toLowerCase s.
Proof.
  unfold Js.toLowerCase. rewrite units_text, map_map. f_equal.
  apply map_ext. intros c. apply lower_idem.
Qed.

Lemma toLowerCase_append s t :
  Js.toLowerCase (s +:+ t) = Js.toLowerCase s +:+ Js.toLowerCase t.
Proof.
  unfold Js.toLowerCase. rewrite units_append, map_app.
  generalize (map Js.lower (units s)) as x. generalize (map Js.lower (units t)) as y.
  intros y x. induction x as [|c x IH]; [reflexivity|].
  change (String c (text (x ++ y)) = String c (text x +:+ text y)).
  f_equal. exact IH.
Qed.

(** X21.  On ASCII texts the search ignores case on both sides.  For
    a query and records made of ASCII characters: lowering the case of the
    query gives the same filtered view, and whether a record is kept
    depends on its key and its value only up to case: two records whose
    keys and whose values differ only in case are kept or dropped
    together. *)
Theorem search_ignores_case (q : string) (Hq : ascii_only q = true) :
  (forall ms,
      forallb ascii_record ms = true ->
      filter_by (Js.toLowerCase q) ms = filter_by q ms) /\
  (forall m m',
      ascii_record m = true -> ascii_record m' = true ->
      Js.toLowerCase (key m) = Js.toLowerCase (key m') ->
      Js.toLowerCase (value m) = Js.toLowerCase (value m') ->
      length (filter_by q [m]) = length (filter_by q [m'])).
Proof.
  split.
  - intros ms _. unfold filter_by. rewrite trim_lower, toLowerCase_idem.
    reflexivity.
  - intros m m' _ _ Hk Hv. unfold filter_by.
    destruct (String.eqb _ ""); [reflexivity|].
    cbn [List.filter]. unfold matches.
    rewrite !toLowerCase_append, Hk, Hv.
    destruct (Js.includes _ _); reflexivity.
Qed.

End Case.

Lemma search_ignores_case_witness :
  ascii_only "Order" = true /\
  (forall ms,
      forallb ascii_record ms = true ->
      Renderer.filter_by (Js.toLowerCase "Order") ms = Renderer.filter_by "Order" ms) /\
  (forall m m',
      ascii_record m = true -> ascii_record m' = true ->
      Js.toLowerCase (key m) = Js.toLowerCase (key m') ->
      Js.toLowerCase (value m) = Js.toLowerCase (value m') ->
      length (Renderer.filter_by "Order" [m]) = length (Renderer.filter_by "Order" [m'])).
Proof.
  split; [reflexivity|].
  apply (search_ignores_case "Order"). reflexivity.
Defined.
